(** * NYT Strands solver: word enumerator, tiling solver, dictionary

    A shallow embedding of the algorithmic core of the repository:
    - [loadWordList]   (wordLoader.js): dictionary construction;
    - [buildPrefixTree], [hasPrefix], [findWordsDFS], [solvePuzzle]
      (solver.js, class [Solver]);
    - [collectAllWords] (app.js, [attemptSolve]): the pool handed to the solver.

    Conventions of the embedding.
    - JavaScript numbers that hold rows, columns, lengths and counters are
      integers, modelled by [Z].
    - Text is ASCII (the word list [words_alpha.txt] and the grid editor only
      produce ASCII), modelled by [string]; a grid cell is a one-character
      string (utils.js [validateGrid], grid.js [editCell]), modelled by [ascii].
    - A JavaScript [Set] or [Map] keeps its entries in insertion order; both
      are modelled by lists ([Set]: duplicate-free list, [Map]: association
      list).  Position sets are keyed in the source by the template string
      [`${row},${col}`], which is an injective rendering of the integer pair;
      the model keys them by the pair itself.
    - Code that can raise a [TypeError] returns an [Outcome]. *)

From Stdlib Require Import ZArith List String Ascii Bool Lia Arith.
From Stdlib Require Import Sorting.Sorted Permutation QArith.
Import ListNotations.

Set Warnings "-register-all".

Open Scope Z_scope.
Open Scope list_scope.

(* ================================================================== *)
(** * Part I.  The embedding                                            *)
(* ================================================================== *)

(** ** Outcomes of fallible or fuel-bounded code *)

Inductive Outcome (A : Type) : Type :=
| Done (a : A)   (* normal completion *)
| Threw          (* a TypeError was raised *)
| NoFuel.        (* the recursion bound of the model was hit (shown unreachable) *)

Arguments Done {A} a.
Arguments Threw {A}.
Arguments NoFuel {A}.

Definition bindO {A B : Type} (m : Outcome A) (k : A -> Outcome B) : Outcome B :=
  match m with
  | Done a => k a
  | Threw => Threw
  | NoFuel => NoFuel
  end.

Definition mapO {A B : Type} (f : A -> B) (m : Outcome A) : Outcome B :=
  bindO m (fun a => Done (f a)).

Notation "x <- m ;; k" := (bindO m (fun x => k))
  (at level 61, m at next level, right associativity).

(** ** Cells, paths, candidates *)

Definition Cell : Type := (Z * Z)%type.
Definition Path : Type := list Cell.
Definition Candidate : Type := (string * Path)%type.

Definition cellEqb (a b : Cell) : bool :=
  (fst a =? fst b) && (snd a =? snd b).

(** ** JavaScript [Set], as an insertion-ordered duplicate-free list *)

Section JsSet.
Context {A : Type} (eqb : A -> A -> bool).

Definition setHas (s : list A) (x : A) : bool := existsb (eqb x) s.

Definition setAdd (s : list A) (x : A) : list A :=
  if setHas s x then s else s ++ [x].

Definition setDelete (s : list A) (x : A) : list A :=
  filter (fun y => negb (eqb x y)) s.

Definition setSize (s : list A) : Z := Z.of_nat (List.length s).

End JsSet.

(** Position sets ([usedPositions], [visited]) and word sets. *)
Definition posHas : list Cell -> Cell -> bool := setHas cellEqb.
Definition posAdd : list Cell -> Cell -> list Cell := setAdd cellEqb.
Definition posDelete : list Cell -> Cell -> list Cell := setDelete cellEqb.
Definition wordHas : list string -> string -> bool := setHas String.eqb.
Definition wordAdd : list string -> string -> list string := setAdd String.eqb.

(** ** JavaScript [Map] from words to paths, as an association list.
    [set] on a key already present replaces the value and keeps the key's
    position; on a new key it appends. *)

Definition mapHas (m : list Candidate) (k : string) : bool :=
  existsb (fun e => String.eqb k (fst e)) m.

Fixpoint mapGet (m : list Candidate) (k : string) : option Path :=
  match m with
  | [] => None
  | (k', v) :: m' => if String.eqb k k' then Some v else mapGet m' k
  end.

Fixpoint mapSet (m : list Candidate) (k : string) (v : Path) : list Candidate :=
  match m with
  | [] => [(k, v)]
  | (k', v') :: m' =>
      if String.eqb k k' then (k', v) :: m' else (k', v') :: mapSet m' k v
  end.

(** ** [Array.prototype.sort] with a comparator.
    The sort is stable (ECMAScript 2019); for the comparators used here
    (differences of numeric keys) the sorted array is the unique stable
    arrangement, computed below by insertion. *)

Fixpoint insertSorted {A : Type} (cmp : A -> A -> Z) (x : A) (l : list A) : list A :=
  match l with
  | [] => [x]
  | y :: l' => if 0 <? cmp x y then y :: insertSorted cmp x l' else x :: y :: l'
  end.

Definition jsSort {A : Type} (cmp : A -> A -> Z) (l : list A) : list A :=
  fold_right (insertSorted cmp) [] l.

(** ** ASCII strings: [length], [toUpperCase], [trim], [split('\n')] *)

Definition strLen (s : string) : Z := Z.of_nat (String.length s).

Definition isLowerChar (c : ascii) : bool :=
  let n := nat_of_ascii c in (97 <=? n)%nat && (n <=? 122)%nat.

Definition isUpperChar (c : ascii) : bool :=
  let n := nat_of_ascii c in (65 <=? n)%nat && (n <=? 90)%nat.

Definition toUpperChar (c : ascii) : ascii :=
  if isLowerChar c then ascii_of_nat (nat_of_ascii c - 32) else c.

Fixpoint toUpperCase (s : string) : string :=
  match s with
  | EmptyString => EmptyString
  | String c r => String (toUpperChar c) (toUpperCase r)
  end.

(** White space removed by [trim]: TAB, LF, VT, FF, CR, SPACE. *)
Definition isSpaceChar (c : ascii) : bool :=
  let n := nat_of_ascii c in
  ((9 <=? n)%nat && (n <=? 13)%nat) || (n =? 32)%nat.

Fixpoint trimStart (s : string) : string :=
  match s with
  | EmptyString => EmptyString
  | String c r => if isSpaceChar c then trimStart r else s
  end.

Fixpoint trimEnd (s : string) : string :=
  match s with
  | EmptyString => EmptyString
  | String c r =>
      match trimEnd r with
      | EmptyString => if isSpaceChar c then EmptyString else String c EmptyString
      | r' => String c r'
      end
  end.

Definition trim (s : string) : string := trimEnd (trimStart s).

Definition newline : ascii := ascii_of_nat 10.

(** [text.split('\n')]. *)
Fixpoint splitLines (s : string) : list string :=
  match s with
  | EmptyString => [EmptyString]
  | String c r =>
      if Ascii.eqb c newline then EmptyString :: splitLines r
      else match splitLines r with
           | [] => [String c EmptyString]
           | h :: t => String c h :: t
           end
  end.

(** A string all of whose characters are in A-Z. *)
Fixpoint allUpperAZ (s : string) : bool :=
  match s with
  | EmptyString => true
  | String c r => isUpperChar c && allUpperAZ r
  end.

(** ** wordLoader.js: [loadWordList]
    The loop run on the fetched text (the same loop serves the fallback
    location); a failed fetch yields the empty set. *)

Definition loadWordLines (lines : list string) : list string :=
  fold_left
    (fun wordSet line =>
       let word := toUpperCase (trim line) in
       if 4 <=? strLen word then wordAdd wordSet word else wordSet)
    lines [].

Definition loadWordList (text : option string) : list string :=
  match text with
  | Some t => loadWordLines (splitLines t)
  | None => []
  end.

(** ** solver.js: the prefix tree
    The tree is a nest of plain objects keyed by one-character strings; the
    end of a word is the entry ['$'] holding [true]. *)

Inductive JsTrie : Type :=
| TrieTrue                                  (* the boolean [true] *)
| TrieObj (props : list (ascii * JsTrie)).  (* an object *)

Definition dollar : ascii := ascii_of_nat 36.

(** [current[letter]] : [None] is [undefined].  Reading a property of the
    primitive [true] yields [undefined]. *)
Fixpoint propsGet (props : list (ascii * JsTrie)) (k : ascii) : option JsTrie :=
  match props with
  | [] => None
  | (k', v) :: ps => if Ascii.eqb k k' then Some v else propsGet ps k
  end.

Definition trieGet (t : JsTrie) (k : ascii) : option JsTrie :=
  match t with
  | TrieTrue => None
  | TrieObj props => propsGet props k
  end.

Fixpoint propsSet (props : list (ascii * JsTrie)) (k : ascii) (v : JsTrie)
  : list (ascii * JsTrie) :=
  match props with
  | [] => [(k, v)]
  | (k', v') :: ps =>
      if Ascii.eqb k k' then (k', v) :: ps else (k', v') :: propsSet ps k v
  end.

(** [current[k] = v]; module code is strict, so creating a property on the
    primitive [true] raises a TypeError. *)
Definition trieSet (t : JsTrie) (k : ascii) (v : JsTrie) : Outcome JsTrie :=
  match t with
  | TrieTrue => Threw
  | TrieObj props => Done (TrieObj (propsSet props k v))
  end.

(** The inner loop of [buildPrefixTree] for one word, returning the updated
    node [current] started from. *)
Fixpoint insertWord (current : JsTrie) (word : string) : Outcome JsTrie :=
  match word with
  | EmptyString => trieSet current dollar TrieTrue
  | String letter rest =>
      match trieGet current letter with
      | Some child =>
          child' <- insertWord child rest ;;
          trieSet current letter child'
      | None =>
          match current with
          | TrieTrue => Threw
          | TrieObj _ =>
              child' <- insertWord (TrieObj []) rest ;;
              trieSet current letter child'
          end
      end
  end.

Definition buildPrefixTree (wordSet : list string) : Outcome JsTrie :=
  fold_left (fun acc word => trie <- acc ;; insertWord trie word)
            wordSet (Done (TrieObj [])).

(** [hasPrefix], on the tree held by the solver. *)
Fixpoint trieHasPrefix (current : JsTrie) (prefix : string) : bool :=
  match prefix with
  | EmptyString => true
  | String letter rest =>
      match trieGet current letter with
      | None => false
      | Some child => trieHasPrefix child rest
      end
  end.

(** ** solver.js: class [Solver] *)

Definition Grid : Type := list (list ascii).

Record Solver : Type := mkSolver {
  grid : Grid;
  wordSet : list string;
  prefixTree : JsTrie;
  rows : Z;
  cols : Z
}.

Definition gridRows (g : Grid) : Z := Z.of_nat (List.length g).

(** [grid[0].length]; a TypeError on an empty grid. *)
Definition gridCols (g : Grid) : Outcome Z :=
  match g with
  | [] => Threw
  | r :: _ => Done (Z.of_nat (List.length r))
  end.

(** [new Solver(grid, wordSet)]. *)
Definition newSolver (g : Grid) (ws : list string) : Outcome Solver :=
  trie <- buildPrefixTree ws ;;
  c <- gridCols g ;;
  Done (mkSolver g ws trie (gridRows g) c).

Definition hasPrefix (this : Solver) (prefix : string) : bool :=
  trieHasPrefix (prefixTree this) prefix.

(** [this.grid[row][col]]; [None] stands for the TypeError raised by the
    following [.toUpperCase()] when the row or the cell is [undefined]. *)
Definition gridAt (g : Grid) (row col : Z) : option ascii :=
  if (row <? 0) || (col <? 0) then None
  else match nth_error g (Z.to_nat row) with
       | None => None
       | Some r => nth_error r (Z.to_nat col)
       end.

Definition inBounds (this : Solver) (row col : Z) : bool :=
  negb ((row <? 0) || (rows this <=? row) || (col <? 0) || (cols this <=? col)).

(** ** solver.js: [findWordsDFS] *)

(** The eight neighbour offsets, in the order the source lists them. *)
Definition directions : list (Z * Z) :=
  [ (-1, -1); (-1, 0); (-1, 1);
    (0, -1);           (0, 1);
    (1, -1);  (1, 0);  (1, 1) ].

Definition pathLen (p : Path) : Z := Z.of_nat (List.length p).

(** The mutable state of one enumeration: the map [uniqueWords], the set
    [visited], and a history variable [hits] that records, in the order of
    the search, every (word, path) that passed the validity test of [dfs]
    (the history is not read by the code). *)
Record DfsState : Type := mkDfsState {
  uniqueWords : list Candidate;
  visited : list Cell;
  hits : list Candidate
}.

(** The body of [if (currentWord.length >= minLength && ...)]: keep the path
    when the word is new or the path is longer than the stored one. *)
Definition keepWord (m : list Candidate) (currentWord : string) (currentPath : Path)
  : list Candidate :=
  if negb (mapHas m currentWord)
     || match mapGet m currentWord with
        | Some stored => pathLen stored <? pathLen currentPath
        | None => false
        end
  then mapSet m currentWord currentPath
  else m.

Section Enumerator.
Variable this : Solver.
Variable usedPositions : list Cell.
Variable blacklistedWords : list string.
Variables minLength maxLength : Z.

Definition isValidWord (currentWord : string) : bool :=
  (minLength <=? strLen currentWord)
  && wordHas (wordSet this) currentWord
  && negb (wordHas blacklistedWords currentWord).

Definition checkWord (currentWord : string) (currentPath : Path) (st : DfsState)
  : DfsState :=
  if isValidWord currentWord
  then mkDfsState (keepWord (uniqueWords st) currentWord currentPath)
                  (visited st)
                  (hits st ++ [(currentWord, currentPath)])
  else st.

(** The loop [for (const [dr, dc] of directions)] of [dfs], with the
    recursive call abstracted as [rec]. *)
Fixpoint tryDirections
  (rec : Z -> Z -> string -> Path -> DfsState -> Outcome DfsState)
  (ds : list (Z * Z)) (row col : Z) (currentWord : string) (currentPath : Path)
  (st : DfsState) : Outcome DfsState :=
  match ds with
  | [] => Done st
  | (dr, dc) :: ds' =>
      let newRow := row + dr in
      let newCol := col + dc in
      if negb (inBounds this newRow newCol) then
        tryDirections rec ds' row col currentWord currentPath st
      else if posHas (visited st) (newRow, newCol) then
        tryDirections rec ds' row col currentWord currentPath st
      else if posHas usedPositions (newRow, newCol) then
        tryDirections rec ds' row col currentWord currentPath st
      else
        match gridAt (grid this) newRow newCol with
        | None => Threw
        | Some ch =>
            let letter := toUpperChar ch in
            let newWord := (currentWord ++ String letter EmptyString)%string in
            let newPath := currentPath ++ [(newRow, newCol)] in
            let st1 := mkDfsState (uniqueWords st)
                                  (posAdd (visited st) (newRow, newCol))
                                  (hits st) in
            st2 <- rec newRow newCol newWord newPath st1 ;;
            let st3 := mkDfsState (uniqueWords st2)
                                  (posDelete (visited st2) (newRow, newCol))
                                  (hits st2) in
            tryDirections rec ds' row col currentWord currentPath st3
        end
  end.

(** The closure [dfs].  [fuel] bounds the depth of the recursion; the
    source terminates because every call adds an unvisited in-bounds cell. *)
Fixpoint dfs (fuel : nat) (row col : Z) (currentWord : string) (currentPath : Path)
  (st : DfsState) : Outcome DfsState :=
  match fuel with
  | O => NoFuel
  | S fuel' =>
      let st1 := checkWord currentWord currentPath st in
      if maxLength <=? strLen currentWord then Done st1
      else if negb (hasPrefix this currentWord) then Done st1
      else tryDirections (dfs fuel') directions row col currentWord currentPath st1
  end.

(** Depth bound used by the model: the number of cells of the grid. *)
Definition dfsFuel : nat := Z.to_nat (rows this * cols this).

Definition wordLengthDesc (a b : Candidate) : Z := strLen (fst b) - strLen (fst a).

(** The search proper: everything up to the final state of [uniqueWords]. *)
Definition searchFrom (startRow startCol : Z) : Outcome DfsState :=
  match gridAt (grid this) startRow startCol with
  | None => Threw
  | Some ch =>
      let startLetter := String (toUpperChar ch) EmptyString in
      let startVisited := [(startRow, startCol)] in
      dfs dfsFuel startRow startCol startLetter [(startRow, startCol)]
          (mkDfsState [] startVisited [])
  end.

Definition findWordsDFS (startRow startCol : Z) : Outcome (list Candidate) :=
  if (startRow <? 0) || (rows this <=? startRow) || (startCol <? 0) || (cols this <=? startCol)
  then Done []
  else if posHas usedPositions (startRow, startCol) then Done []
  else
    st <- searchFrom startRow startCol ;;
    Done (jsSort wordLengthDesc (uniqueWords st)).

End Enumerator.

(** ** app.js, [attemptSolve]: the pool of candidates
    [findWordsDFS] from every cell in row-major order, each candidate
    extended with the length of its path. *)

Record PoolWord : Type := mkPoolWord {
  pw_word : string;
  pw_coords : Path;
  pw_length : Z
}.

Definition indexRange (n : Z) : list Z := map Z.of_nat (seq 0 (Z.to_nat n)).

Definition allCells (g : Grid) : list Cell :=
  match g with
  | [] => []
  | r0 :: _ =>
      flat_map (fun row => map (fun col => (row, col))
                               (indexRange (Z.of_nat (List.length r0))))
               (indexRange (gridRows g))
  end.

Definition collectAllWords (this : Solver) (usedPositions : list Cell)
  (blacklistedWords : list string) : Outcome (list PoolWord) :=
  fold_left
    (fun acc cell =>
       allPossibleWords <- acc ;;
       wordsFromPos <- findWordsDFS this usedPositions blacklistedWords 4 15
                                    (fst cell) (snd cell) ;;
       Done (allPossibleWords
             ++ map (fun wc => mkPoolWord (fst wc) (snd wc) (pathLen (snd wc)))
                    wordsFromPos))
    (allCells (grid this)) (Done []).

(** ** solver.js: [solvePuzzle] *)

Record Prioritized : Type := mkPrioritized {
  p_word : string;
  p_coords : Path;
  p_length : Z;
  p_positionScore : Z;
  p_priority : Z
}.

(** One call of [onProgress(attempts, currentSolution.length, coveragePercent)];
    [pc_coverage] is the number of covered cells from which the source
    computes [coveragePercent = (coverage / totalPositions) * 100]. *)
Record ProgressCall : Type := mkProgressCall {
  pc_attempts : Z;
  pc_placed : Z;
  pc_coverage : Z
}.

Definition coveragePercent (coverage totalPositions : Z) : Q :=
  (inject_Z coverage / inject_Z totalPositions) * inject_Z 100.

(** The variables captured by the closures of [solvePuzzle], together with
    four histories that the code does not read: [progressCalls], the calls
    made to [onProgress]; [coverageAtPolls], the value of
    [usedPositions.size] at each poll; [bestAtPolls], the value of
    [bestCoverage] at the end of the best-update of each poll; and
    [peakCoverage], the largest [usedPositions.size] seen on entry to
    [solveRecursive]. *)
Record SolveState : Type := mkSolveState {
  attempts : Z;
  usedPositions : list Cell;
  currentSolution : list Candidate;
  bestSolution : list Candidate;
  bestCoverage : Z;
  progressCalls : list ProgressCall;
  coverageAtPolls : list Z;
  bestAtPolls : list Z;
  peakCoverage : Z
}.

Definition addCoords (used : list Cell) (coords : Path) : list Cell :=
  fold_left posAdd coords used.

Definition deleteCoords (used : list Cell) (coords : Path) : list Cell :=
  fold_left posDelete coords used.

Section TilingSolver.
Variable this : Solver.
Variable onProgress : bool.            (* whether a callback was supplied *)
Variable shouldCancel : Z -> bool.     (* answer of the hook at the poll taken
                                          when [attempts] has the given value *)
Variable maxAttempts : Z.

Definition totalPositions : Z := rows this * cols this.

Definition cellScore (c : Cell) : Z :=
  let row := fst c in
  let col := snd c in
  if ((row =? 0) || (row =? rows this - 1)) && ((col =? 0) || (col =? cols this - 1))
  then 4
  else if (row =? 0) || (row =? rows this - 1) || (col =? 0) || (col =? cols this - 1)
  then 2
  else 1.

Definition prioritize (w : PoolWord) : Prioritized :=
  let positionScore := fold_left (fun acc c => acc + cellScore c) (pw_coords w) 0 in
  mkPrioritized (pw_word w) (pw_coords w) (pw_length w) positionScore
                (- pw_length w * 1000 - positionScore).

Definition byPriority (a b : Prioritized) : Z := p_priority a - p_priority b.

Definition prioritizedWords (allWords : list PoolWord) : list Prioritized :=
  jsSort byPriority (map prioritize allWords).

Definition canPlaceWord (st : SolveState) (coords : Path) : bool :=
  forallb (fun c => negb (posHas (usedPositions st) c)) coords.

Definition placeWord (st : SolveState) (word : string) (coords : Path) : SolveState :=
  mkSolveState (attempts st)
               (addCoords (usedPositions st) coords)
               (currentSolution st ++ [(word, coords)])
               (bestSolution st) (bestCoverage st)
               (progressCalls st) (coverageAtPolls st) (bestAtPolls st)
               (peakCoverage st).

(** [currentSolution.pop()] and the release of its cells.  [removeWord] is
    only called right after a failed recursive call that followed a
    [placeWord]; the failed call leaves the stack as [placeWord] left it
    (lemmas [solveRecursive_keeps], [removeWord_restores]), so the stack is
    not empty there and the first branch is not reached. *)
Definition removeWord (st : SolveState) : SolveState :=
  match rev (currentSolution st) with
  | [] => st
  | (word, coords) :: below =>
      mkSolveState (attempts st)
                   (deleteCoords (usedPositions st) coords)
                   (rev below)
                   (bestSolution st) (bestCoverage st)
                   (progressCalls st) (coverageAtPolls st) (bestAtPolls st)
                   (peakCoverage st)
  end.

(** The block [if (attempts % 1000 === 0) { ... }] up to, and excluding,
    the call of [shouldCancel]. *)
Definition pollUpdate (st : SolveState) : SolveState :=
  let coverage := setSize (usedPositions st) in
  let improved := bestCoverage st <? coverage in
  let best := if improved then coverage else bestCoverage st in
  mkSolveState (attempts st) (usedPositions st) (currentSolution st)
               (if improved then currentSolution st else bestSolution st)
               best
               (if onProgress
                then progressCalls st
                     ++ [mkProgressCall (attempts st)
                                        (Z.of_nat (List.length (currentSolution st)))
                                        coverage]
                else progressCalls st)
               (coverageAtPolls st ++ [coverage])
               (bestAtPolls st ++ [best])
               (peakCoverage st).

(** [attempts++] (and the history [peakCoverage]). *)
Definition tick (st : SolveState) : SolveState :=
  mkSolveState (attempts st + 1) (usedPositions st) (currentSolution st)
               (bestSolution st) (bestCoverage st)
               (progressCalls st) (coverageAtPolls st) (bestAtPolls st)
               (Z.max (peakCoverage st) (setSize (usedPositions st))).

(** [solveRecursive(wordIndex)].  The argument [ws] is the part of
    [prioritizedWords] from [wordIndex] on; the loop over [i] walks it and
    the recursive call [solveRecursive(i + 1)] receives what follows
    position [i]. *)
Fixpoint solveRecursive (ws : list Prioritized) (st : SolveState) {struct ws}
  : bool * SolveState :=
  let st := tick st in
  let isPoll := attempts st mod 1000 =? 0 in
  let st := if isPoll then pollUpdate st else st in
  if isPoll && shouldCancel (attempts st) then (false, st)
  else if setSize (usedPositions st) =? totalPositions then (true, st)
  else if maxAttempts <? attempts st then (false, st)
  else
    (fix tryWords (l : list Prioritized) (st : SolveState) {struct l}
       : bool * SolveState :=
       match l with
       | [] => (false, st)
       | w :: rest =>
           if canPlaceWord st (p_coords w) then
             let (solved, st') :=
               solveRecursive rest (placeWord st (p_word w) (p_coords w)) in
             if solved then (true, st')
             else tryWords rest (removeWord st')
           else tryWords rest st
       end) ws st.

(** The loop [for (let i = wordIndex; ...)] of [solveRecursive] on its own
    (lemma [solveRecursive_unfold] identifies it with the loop above). *)
Fixpoint tryWords (l : list Prioritized) (st : SolveState) {struct l}
  : bool * SolveState :=
  match l with
  | [] => (false, st)
  | w :: rest =>
      if canPlaceWord st (p_coords w) then
        let (solved, st') :=
          solveRecursive rest (placeWord st (p_word w) (p_coords w)) in
        if solved then (true, st')
        else tryWords rest (removeWord st')
      else tryWords rest st
  end.

(** The state before the search: the existing words pushed and their cells
    marked. *)
Definition initialState (existingWords : list Candidate) : SolveState :=
  let used := fold_left (fun u e => addCoords u (snd e)) existingWords [] in
  mkSolveState 0 used existingWords [] (setSize used) [] [] [] (setSize used).

Definition runSolver (allWords : list PoolWord) (existingWords : list Candidate)
  : bool * SolveState :=
  solveRecursive (prioritizedWords allWords) (initialState existingWords).

(** The result: [None] is [null]. *)
Definition solvePuzzle (allWords : list PoolWord) (existingWords : list Candidate)
  : option (list Candidate) :=
  let (completeSolution, st) := runSolver allWords existingWords in
  if completeSolution then Some (currentSolution st)
  else if 0 <? Z.of_nat (List.length (bestSolution st)) then Some (bestSolution st)
  else if 0 <? Z.of_nat (List.length existingWords) then Some existingWords
  else None.

End TilingSolver.

(** Number of grid cells covered by a placement, counted the way app.js
    counts it when it reports a solution. *)
Definition coverageOf (sol : list Candidate) : Z :=
  setSize (fold_left (fun u e => addCoords u (snd e)) sol []).

(* ------------------------------------------------------------------ *)
(** ** Vocabulary of the specification                                  *)
(* ------------------------------------------------------------------ *)

(** Two cells are 8-neighbours. *)
Definition neighbors8 (a b : Cell) : Prop :=
  Z.abs (fst b - fst a) <= 1 /\ Z.abs (snd b - snd a) <= 1 /\ a <> b.

Fixpoint isPath8 (p : Path) : Prop :=
  match p with
  | a :: (b :: _) as rest => neighbors8 a b /\ isPath8 rest
  | _ => True
  end.

(** The letters of the grid along a path, as stored. *)
Fixpoint lettersAlong (g : Grid) (p : Path) : option string :=
  match p with
  | [] => Some EmptyString
  | (r, c) :: p' =>
      match gridAt g r c, lettersAlong g p' with
      | Some ch, Some s => Some (String ch s)
      | _, _ => None
      end
  end.

(** The word a path spells: its letters read through [toUpperCase]. *)
Definition spells (g : Grid) (p : Path) (w : string) : Prop :=
  option_map toUpperCase (lettersAlong g p) = Some w.

(** Every cell of the grid holds a letter A-Z (utils.js [validateGrid]). *)
Definition upperGrid (g : Grid) : Prop :=
  Forall (Forall (fun ch => isUpperChar ch = true)) g.

(** A simple 8-path from [start] inside the grid that avoids [occupied]. *)
Definition simplePathFrom (this : Solver) (occupied : list Cell) (start : Cell)
  (p : Path) : Prop :=
  (exists rest, p = start :: rest)
  /\ isPath8 p
  /\ NoDup p
  /\ (forall c, In c p -> inBounds this (fst c) (snd c) = true)
  /\ (forall c, In c p -> ~ In c occupied).

(** What the enumerator promises of a candidate, with the upper bound on the
    length of the word left as a parameter. *)
Definition candidateOk (this : Solver) (occupied : list Cell) (blacklist : list string)
  (minLength upper : Z) (start : Cell) (e : Candidate) : Prop :=
  simplePathFrom this occupied start (snd e)
  /\ minLength <= strLen (fst e) <= upper
  /\ In (fst e) (wordSet this)
  /\ ~ In (fst e) blacklist
  /\ spells (grid this) (snd e) (fst e).

(** Paths of different placed words share no cell. *)
Definition cellDisjoint (a b : Candidate) : Prop :=
  forall c, In c (snd a) -> ~ In c (snd b).

Definition pairwiseDisjoint (sol : list Candidate) : Prop :=
  ForallOrdPairs cellDisjoint sol.

Definition isPrefixOf {A : Type} (l1 l2 : list A) : Prop :=
  exists rest, l2 = l1 ++ rest.

(** Replaying the validated (word, path) pairs of a search, in order, through
    the update of [uniqueWords]. *)
Definition replayHits (hs : list Candidate) (m : list Candidate) : list Candidate :=
  fold_left (fun acc e => keepWord acc (fst e) (snd e)) hs m.

(** The words of a list in the order of their first occurrence. *)
Fixpoint firstOccurrences (ws : list string) (seen : list string) : list string :=
  match ws with
  | [] => []
  | w :: ws' =>
      if wordHas seen w then firstOccurrences ws' seen
      else w :: firstOccurrences ws' (seen ++ [w])
  end.

(** [newSolver] followed by an enumeration. *)
Definition enumerate (g : Grid) (ws : list string) (occupied : list Cell)
  (blacklist : list string) (minLength maxLength : Z) (startRow startCol : Z)
  : Outcome (list Candidate) :=
  this <- newSolver g ws ;;
  findWordsDFS this occupied blacklist minLength maxLength startRow startCol.

Definition uppercaseGrid (g : Grid) : Grid := map (map toUpperChar) g.

Definition withGrid (this : Solver) (g : Grid) : Solver :=
  mkSolver g (wordSet this) (prefixTree this) (rows this) (cols this).

(** The solver with every cell of its grid upper-cased. *)
Definition uppercased (this : Solver) : Solver :=
  withGrid this (uppercaseGrid (grid this)).

(** All rows have the length of the first (utils.js [validateGrid]). *)
Definition rectangular (g : Grid) : Prop :=
  forall row, In row g -> List.length row = List.length (hd [] g).

(** The grid answers every in-bounds read. *)
Definition gridCovers (this : Solver) : Prop :=
  forall r c, inBounds this r c = true -> gridAt (grid this) r c <> None.

(** [e] is, among the validated pairs [hs] of its word, the first of
    greatest path length: every earlier one is strictly shorter, every
    later one is not longer. *)
Definition firstLongest (hs : list Candidate) (e : Candidate) : Prop :=
  exists pre post,
    hs = pre ++ e :: post
    /\ (forall q, In (fst e, q) pre -> pathLen q < pathLen (snd e))
    /\ (forall q, In (fst e, q) post -> pathLen q <= pathLen (snd e)).

(* ------------------------------------------------------------------ *)
(** ** Invariants of the enumerator                                     *)
(* ------------------------------------------------------------------ *)

Definition isStep (d : Z * Z) : Prop :=
  Z.abs (fst d) <= 1 /\ Z.abs (snd d) <= 1 /\ d <> (0, 0).

Section EnumeratorInvariants.
Variable this : Solver.
Variable occupied : list Cell.
Variable blacklist : list string.
Variables minLength maxLength : Z.
Variable start : Cell.

(** A validated pair: a candidate as promised, whose word has one letter per
    cell of its path. *)
Definition hitOk (e : Candidate) : Prop :=
  candidateOk this occupied blacklist minLength (Z.max maxLength 1) start e
  /\ strLen (fst e) = pathLen (snd e).

(** [uniqueWords] is the replay of the validated pairs, all of them good. *)
Definition stateOk (st : DfsState) : Prop :=
  uniqueWords st = replayHits (hits st) [] /\ Forall hitOk (hits st).

(** What holds of the arguments at every call of [dfs]. *)
Definition pathPre (row col : Z) (currentWord : string) (currentPath : Path) : Prop :=
  simplePathFrom this occupied start currentPath
  /\ last currentPath start = (row, col)
  /\ spells (grid this) currentPath currentWord
  /\ strLen currentWord = pathLen currentPath
  /\ strLen currentWord <= Z.max maxLength 1.

(** What holds of the outcome of a call entered with path [currentPath]. *)
Definition outcomeOk (currentPath : Path) (o : Outcome DfsState) : Prop :=
  match o with
  | Done st' => visited st' = currentPath /\ stateOk st'
  | Threw => ~ gridCovers this
  | NoFuel => False
  end.

Definition dfsOk (n : nat)
  (rec : Z -> Z -> string -> Path -> DfsState -> Outcome DfsState) : Prop :=
  forall row col currentWord currentPath st,
    pathPre row col currentWord currentPath ->
    visited st = currentPath ->
    stateOk st ->
    (n <= List.length currentPath)%nat ->
    outcomeOk currentPath (rec row col currentWord currentPath st).

End EnumeratorInvariants.

(** The enumerator claims, as the specification words them. *)


(* ------------------------------------------------------------------ *)
(** ** Invariants of the solver                                         *)
(* ------------------------------------------------------------------ *)

(** The cells marked by the words of a placement, in marking order. *)
Definition usedOf (sol : list Candidate) : list Cell :=
  fold_left (fun u e => addCoords u (snd e)) sol [].

(** Two states hold the same placement and the same marked cells. *)
Definition sameBoard (a b : SolveState) : Prop :=
  currentSolution b = currentSolution a /\ usedPositions b = usedPositions a.

(** A placement that extends the existing words and is pairwise disjoint. *)
Definition goodSolution (existingWords sol : list Candidate) : Prop :=
  isPrefixOf existingWords sol /\ pairwiseDisjoint sol.

Definition boardOk (existingWords : list Candidate) (st : SolveState) : Prop :=
  goodSolution existingWords (currentSolution st)
  /\ usedPositions st = usedOf (currentSolution st)
  /\ (bestSolution st = [] \/ goodSolution existingWords (bestSolution st)).

(** The histories of the polls: the best coverage never decreases from one
    poll to the next and bounds the coverage reported at the same poll. *)
Definition pollsOk (onProgress : bool) (st : SolveState) : Prop :=
  StronglySorted Z.le (bestAtPolls st)
  /\ Forall (fun b => b <= bestCoverage st) (bestAtPolls st)
  /\ Forall2 (fun call best => pc_coverage call <= best)
             (progressCalls st)
             (if onProgress then bestAtPolls st else []).

(** A search keeps the invariant [P], leaves the board as it found it when
    it fails, and has every cell marked when it succeeds. *)
Definition searchKeeps (total : Z) (P : SolveState -> Prop)
  (search : SolveState -> bool * SolveState) : Prop :=
  forall st, P st ->
    P (snd (search st))
    /\ (fst (search st) = false -> sameBoard st (snd (search st)))
    /\ (fst (search st) = true -> setSize (usedPositions (snd (search st))) = total).

(** What is recorded as best: nothing (and then [bestCoverage] is still the
    coverage of the existing words), or a placement whose coverage is
    [bestCoverage], exceeds that of the existing words and was seen at a
    poll; no poll saw a coverage above [bestCoverage]. *)
Definition bestOk (committed : Z) (st : SolveState) : Prop :=
  usedPositions st = usedOf (currentSolution st)
  /\ committed <= bestCoverage st
  /\ Forall (fun c => c <= bestCoverage st) (coverageAtPolls st)
  /\ ((bestSolution st = [] /\ bestCoverage st = committed)
      \/ (bestSolution st <> []
          /\ coverageOf (bestSolution st) = bestCoverage st
          /\ committed < bestCoverage st
          /\ In (bestCoverage st) (coverageAtPolls st))).

(** The solver claims, as the specification words them. *)

(** "If any partial placement reached during the search covered strictly
    more cells than the committed words, [a placement whose] coverage [is]
    the maximum coverage ever reached during the search [is returned]." *)
Definition returnsBestEverReached (this : Solver) (onProgress : bool)
  (shouldCancel : Z -> bool) (maxAttempts : Z)
  (allWords : list PoolWord) (existingWords : list Candidate) : Prop :=
  let run := runSolver this onProgress shouldCancel maxAttempts allWords existingWords in
  fst run = false ->
  coverageOf existingWords < peakCoverage (snd run) ->
  exists R,
    solvePuzzle this onProgress shouldCancel maxAttempts allWords existingWords = Some R
    /\ coverageOf R = peakCoverage (snd run).

(** "Every reported coverage is greater than or equal to the previously
    reported value", on the percentages handed to the callback. *)
Definition reportsNonDecreasing (totalCells : Z) (calls : list ProgressCall) : Prop :=
  forall pre a b post,
    calls = pre ++ a :: b :: post ->
    Qle (coveragePercent (pc_coverage a) totalCells)
        (coveragePercent (pc_coverage b) totalCells).

(** The dictionary claims, as the specification words them. *)

(** "No word containing a character outside A-Z is ever in the built
    dictionary." *)
Definition dictionaryOnlyAZ (lines : list string) : Prop :=
  forall w, In w (loadWordLines lines) -> allUpperAZ w = true.

(** "For a dictionary built from empty input, every query returns false." *)
Definition allQueriesFalse (this : Solver) : Prop :=
  (forall w, wordHas (wordSet this) w = false)
  /\ (forall p, hasPrefix this p = false).

(** The solver handed the dictionary built from the empty text. *)
Definition emptyDictionarySolver : Solver :=
  mkSolver [["A"%char]] (loadWordList (Some EmptyString)) (TrieObj []) 1 1.

(** ** Sample solvers *)

Definition noSolver : Solver := mkSolver [] [] (TrieObj []) 0 0.

Definition solverOf (g : Grid) (ws : list string) : Solver :=
  match newSolver g ws with
  | Done this => this
  | _ => noSolver
  end.

(** ** Sample inputs *)

Definition gridCATS : Grid :=
  [ ["C"; "A"]; ["T"; "S"] ]%char.


(** The 2 x 3 grid of the best-partial scenario: one word covers 4 of 6 cells. *)
Definition gridPartial : Grid :=
  [ ["C"; "A"; "X"]; ["T"; "S"; "X"] ]%char.

Definition solverCATS : Solver :=
  Eval vm_compute in solverOf gridCATS ["CATS"; "ACTS"]%string.

Definition gridABAB : Grid := [ ["A"; "B"; "A"; "B"; "A"; "B"] ]%char.

Definition gridABCDE : Grid := [ ["A"; "B"; "C"; "D"; "E"] ]%char.


Definition solverPartial : Solver :=
  Eval vm_compute in solverOf gridPartial ["CATS"%string].

Definition pathCATS : Path := [(0, 0); (0, 1); (1, 0); (1, 1)].

(** A 3 x 3 grid on which some words are reached by several paths and some
    words share their length. *)
Definition gridSEA : Grid :=
  [ ["S"; "E"; "A"]; ["T"; "A"; "R"]; ["S"; "E"; "T"] ]%char.

Definition solverSEA : Solver :=
  Eval vm_compute in
    solverOf gridSEA
      ["SEAT"; "SEAR"; "STAR"; "STARE"; "SEATER"; "STATE"; "SEAS"; "STAT"]%string.

Definition resultSEA : list Candidate :=
  [ ("SEATER", [(0, 0); (0, 1); (1, 1); (1, 0); (2, 1); (1, 2)]);
    ("STARE", [(0, 0); (1, 0); (1, 1); (1, 2); (0, 1)]);
    ("STATE", [(0, 0); (1, 0); (1, 1); (2, 2); (2, 1)]);
    ("SEAR", [(0, 0); (0, 1); (0, 2); (1, 2)]);
    ("SEAT", [(0, 0); (0, 1); (1, 1); (1, 0)]);
    ("SEAS", [(0, 0); (0, 1); (1, 1); (2, 0)]);
    ("STAR", [(0, 0); (1, 0); (1, 1); (1, 2)]);
    ("STAT", [(0, 0); (1, 0); (1, 1); (2, 2)]) ]%string.

Definition neverCancel : Z -> bool := fun _ => false.
Definition alwaysCancel : Z -> bool := fun _ => true.

Definition letterRow (n : nat) : list ascii := repeat "A"%char n.

Definition singleCell (c : Cell) : PoolWord := mkPoolWord "A" [c] 1.

(** A 1 x 13 board and a pool of two overlapping two-cell words and eleven
    one-cell words. *)
Definition boardCancel : Solver :=
  mkSolver [letterRow 13] [] (TrieObj []) 1 13.

Definition poolCancel : list PoolWord :=
  [ mkPoolWord "AA" [(0, 0); (0, 1)] 2; mkPoolWord "AA" [(0, 1); (0, 2)] 2 ]
  ++ map (fun c => singleCell (0, c)) [0; 3; 4; 5; 6; 7; 8; 9; 10; 11; 12].

(** The complete tiling of the 1 x 13 board found by the search. *)
Definition tilingCancel : list Candidate :=
  ("AA"%string, [(0, 1); (0, 2)])
  :: map (fun c => ("A"%string, [(0, c)])) [0; 12; 3; 4; 5; 6; 7; 8; 9; 10; 11].

(** The placement recorded as best at the poll of attempt 1000 on that board. *)
Definition bestAtCancel : list Candidate :=
  ("AA"%string, [(0, 0); (0, 1)])
  :: map (fun c => ("A"%string, [(0, c)])) [7; 8; 9; 11].

(** A 2 x 10 board and eleven one-cell words. *)
Definition boardProgress : Solver :=
  mkSolver [letterRow 10; letterRow 10] [] (TrieObj []) 2 10.

Definition poolProgress : list PoolWord :=
  map (fun c => singleCell (0, c)) [0; 1; 2; 3; 4; 5; 6; 7; 8; 9]
  ++ [singleCell (1, 0)].

(** The placement recorded as best at the poll of attempt 1000 on that board. *)
Definition bestProgress : list Candidate :=
  map (fun c => ("A"%string, [(0, c)])) [0; 4; 5; 6; 8].

(* ------------------------------------------------------------------ *)
(** ** Vocabulary for the prefix tree                                   *)
(* ------------------------------------------------------------------ *)

(** The string holds no ['$'], the key that marks the end of a word. *)
Fixpoint noDollar (s : string) : bool :=
  match s with
  | EmptyString => true
  | String c r => negb (Ascii.eqb c dollar) && noDollar r
  end.

(** [s] starts with [p]. *)
Fixpoint startsWith (s p : string) : bool :=
  match p, s with
  | EmptyString, _ => true
  | String _ _, EmptyString => false
  | String b p', String a s' => Ascii.eqb a b && startsWith s' p'
  end.

(** The shape of the trees that [buildPrefixTree] builds from words without
    ['$']: objects all the way down, whose entry ['$'], when present, is
    [true]. *)
Fixpoint wfTrie (t : JsTrie) : Prop :=
  match t with
  | TrieTrue => False
  | TrieObj props =>
      (fix wfAll (ps : list (ascii * JsTrie)) : Prop :=
         match ps with
         | [] => True
         | (k, v) :: ps' =>
             (if Ascii.eqb k dollar then v = TrieTrue else wfTrie v) /\ wfAll ps'
         end) props
  end.

Definition wfEntry (kv : ascii * JsTrie) : Prop :=
  if Ascii.eqb (fst kv) dollar then snd kv = TrieTrue else wfTrie (snd kv).

(** The solver holds the tree built from its word set, as the constructor
    and [setWordSet] leave it. *)
Definition treeOfWordSet (this : Solver) : Prop :=
  buildPrefixTree (wordSet this) = Done (prefixTree this).

(* ------------------------------------------------------------------ *)
(** ** Completeness of the enumerator                                   *)
(* ------------------------------------------------------------------ *)

(** What a call of [dfs] entered with the path [currentPath] leaves behind:
    the set [visited] as it found it, the validated pairs it found kept in
    order, and among them every candidate whose path extends [currentPath]. *)
Definition dfsFinds (this : Solver) (occupied : list Cell) (blacklist : list string)
  (minLength maxLength : Z) (start : Cell)
  (rec : Z -> Z -> string -> Path -> DfsState -> Outcome DfsState) : Prop :=
  forall row col currentWord currentPath st st',
    rec row col currentWord currentPath st = Done st' ->
    currentPath <> [] ->
    last currentPath start = (row, col) ->
    spells (grid this) currentPath currentWord ->
    visited st = currentPath ->
    visited st' = currentPath
    /\ (exists new, hits st' = hits st ++ new)
    /\ forall ext w,
         candidateOk this occupied blacklist minLength maxLength start
                     (w, currentPath ++ ext) ->
         In (w, currentPath ++ ext) (hits st').

(* ------------------------------------------------------------------ *)
(** ** Where the words of a placement come from                         *)
(* ------------------------------------------------------------------ *)

(** [l1] is [l2] with some elements left out, the others in their order. *)
Inductive subseq {A : Type} : list A -> list A -> Prop :=
| subseq_nil : subseq [] []
| subseq_skip (x : A) (l1 l2 : list A) : subseq l1 l2 -> subseq l1 (x :: l2)
| subseq_take (x : A) (l1 l2 : list A) : subseq l1 l2 -> subseq (x :: l1) (x :: l2).

(** The entries [[word, coords]] that [placeWord] pushes for pool words. *)
Definition placedOf (l : list Prioritized) : list Candidate :=
  map (fun w => (p_word w, p_coords w)) l.

(** A search over the pool words [ws] pushes, above the placement it
    starts from, pool words of [ws] in their order, each at most once; and
    what it records as best is such a placement too, unless it keeps the
    record it found. *)
Definition searchDraws (ws : list Prioritized)
  (search : SolveState -> bool * SolveState) : Prop :=
  forall st,
    (exists sub, subseq sub ws
                 /\ currentSolution (snd (search st))
                    = currentSolution st ++ placedOf sub)
    /\ (bestSolution (snd (search st)) = bestSolution st
        \/ exists sub, subseq sub ws
                       /\ bestSolution (snd (search st))
                          = currentSolution st ++ placedOf sub).


(** The pool words [sub], placed one after the other on a board whose
    marked cells are [used], each fit when their turn comes and together
    leave [total] cells marked. *)
Fixpoint tilesFrom (total : Z) (used : list Cell) (sub : list Prioritized) : Prop :=
  match sub with
  | [] => setSize used = total
  | w :: sub' =>
      forallb (fun c => negb (posHas used c)) (p_coords w) = true
      /\ tilesFrom total (addCoords used (p_coords w)) sub'
  end.



(** A coverage run with the cells [(0, 0)] and [(2, 2)] of the sample grid
    occupied. *)
Definition resultSEAOccupied : list Candidate :=
  Eval vm_compute in
    match findWordsDFS solverSEA [(2, 2)] [] 4 15 0 0 with
    | Done res => res
    | _ => []
    end.

(* ------------------------------------------------------------------ *)
(** ** wordManager.js: class [WordManager]
    The data the class holds and the methods that change it; the redrawing
    of the lists of the page ([updateSetWordsDisplay] and the like) and the
    callbacks are left out, they do not touch the data. *)
(* ------------------------------------------------------------------ *)

Record WordManager : Type := mkWordManager {
  setWords : list Candidate;
  blacklistedWords : list string;
  selectedSetWordIndex : Z;
  foundWordsData : list Candidate;
  selectedFoundWordIndex : Z
}.

(** [new WordManager()]. *)
Definition newWordManager : WordManager := mkWordManager [] [] (-1) [] (-1).

(** [this.setWords.some(([w, p]) => w === word)]. *)
Definition hasSetWord (l : list Candidate) (word : string) : bool :=
  existsb (fun e => String.eqb (fst e) word) l.

Definition addSetWord (wm : WordManager) (word : string) (positions : Path)
  : WordManager :=
  if hasSetWord (setWords wm) word then wm
  else mkWordManager (setWords wm ++ [(word, positions)])
                     (blacklistedWords wm) (selectedSetWordIndex wm)
                     (foundWordsData wm) (selectedFoundWordIndex wm).

(** [arr.splice(index, 1)] on an index inside the array: what stays. *)
Definition spliceOne {A : Type} (l : list A) (index : nat) : list A :=
  firstn index l ++ skipn (S index) l.

(** [removeSetWord]; the second component is the value returned, [None]
    for [null]. *)
Definition removeSetWord (wm : WordManager) (index : Z)
  : WordManager * option Candidate :=
  if (0 <=? index) && (index <? Z.of_nat (List.length (setWords wm))) then
    match nth_error (setWords wm) (Z.to_nat index) with
    | Some removed =>
        (mkWordManager (spliceOne (setWords wm) (Z.to_nat index))
                       (blacklistedWords wm)
                       (if selectedSetWordIndex wm =? index then -1
                        else if index <? selectedSetWordIndex wm
                             then selectedSetWordIndex wm - 1
                             else selectedSetWordIndex wm)
                       (foundWordsData wm) (selectedFoundWordIndex wm),
         Some removed)
    | None => (wm, None)   (* not reached: the index is inside the array *)
    end
  else (wm, None).

Definition blacklistWord (wm : WordManager) (word : string) : WordManager :=
  mkWordManager (setWords wm) (wordAdd (blacklistedWords wm) word)
                (selectedSetWordIndex wm) (foundWordsData wm)
                (selectedFoundWordIndex wm).

Definition blacklistAndRemoveWord (wm : WordManager) (index : Z) : WordManager :=
  let (wm', removed) := removeSetWord wm index in
  match removed with
  | Some r => blacklistWord wm' (fst r)
  | None => wm'
  end.

Definition clearSetWords (wm : WordManager) : WordManager :=
  mkWordManager [] (blacklistedWords wm) (-1)
                (foundWordsData wm) (selectedFoundWordIndex wm).

Definition clearBlacklist (wm : WordManager) : WordManager :=
  mkWordManager (setWords wm) [] (selectedSetWordIndex wm)
                (foundWordsData wm) (selectedFoundWordIndex wm).

Definition getUsedPositions (wm : WordManager) : list Cell :=
  fold_left (fun used e => fold_left posAdd (snd e) used) (setWords wm) [].

(** [selectSetWord]: selecting the selected word again deselects it. *)
Definition selectSetWord (wm : WordManager) (index : Z) : WordManager :=
  let wasSelected := selectedSetWordIndex wm =? index in
  mkWordManager (setWords wm) (blacklistedWords wm)
                (if wasSelected then -1 else index)
                (foundWordsData wm) (selectedFoundWordIndex wm).

Definition updatePossibleWords (wm : WordManager) (words : list Candidate)
  : WordManager :=
  mkWordManager (setWords wm) (blacklistedWords wm) (selectedSetWordIndex wm)
                words (selectedFoundWordIndex wm).

Definition getSelectedFoundWord (wm : WordManager) : option Candidate :=
  if (0 <=? selectedFoundWordIndex wm)
     && (selectedFoundWordIndex wm <? Z.of_nat (List.length (foundWordsData wm)))
  then nth_error (foundWordsData wm) (Z.to_nat (selectedFoundWordIndex wm))
  else None.

(* ------------------------------------------------------------------ *)
(** ** app.js: class [StrandsApp], the handlers that reach the solver
    The handlers are taken in solve mode with the solver initialised (the
    guards at their head otherwise return at once); messages to the page
    are left out. *)
(* ------------------------------------------------------------------ *)

(** The loop of [onCellClick] over the set words: the index of the first
    word that has the clicked cell, or [-1]. *)
Fixpoint findWordIndexFrom (l : list Candidate) (i : Z) (row col : Z) : Z :=
  match l with
  | [] => -1
  | e :: l' =>
      if existsb (fun p => (fst p =? row) && (snd p =? col)) (snd e) then i
      else findWordIndexFrom l' (i + 1) row col
  end.

Definition onCellClick (this : Solver) (wm : WordManager) (row col : Z)
  : Outcome WordManager :=
  let foundWordIndex := findWordIndexFrom (setWords wm) 0 row col in
  if 0 <=? foundWordIndex then Done (selectSetWord wm foundWordIndex)
  else
    words <- findWordsDFS this (getUsedPositions wm) (blacklistedWords wm) 4 15
                          row col ;;
    Done (updatePossibleWords wm words).

(** [addSetWord] of the application: [proposedWordText] is the trimmed text
    of the proposed word shown on the page. *)
Definition appAddSetWord (wm : WordManager) (proposedWordText : string) : WordManager :=
  match proposedWordText with
  | EmptyString => wm
  | _ =>
      match find (fun e => String.eqb (fst e) proposedWordText) (foundWordsData wm) with
      | Some proposedWord => addSetWord wm (fst proposedWord) (snd proposedWord)
      | None => wm
      end
  end.

Definition removeSelectedWord (wm : WordManager) : WordManager :=
  let index := selectedSetWordIndex wm in
  if 0 <=? index then blacklistAndRemoveWord wm index else wm.

(** "Apply solution" of [attemptSolve]. *)
Definition applySolution (wm : WordManager) (solution : list Candidate) : WordManager :=
  fold_left (fun m e => addSetWord m (fst e) (snd e)) solution (clearSetWords wm).

(** [attemptSolve], from the scan of the grid on.  [cancelled] is the value
    of [solveCancelled] when the timer starts the solver: the solver runs
    without a break, so every call of [shouldCancel] answers that value.
    No other handler is taken to run between the scan and the start of the
    solver, 100 ms later: [existingWords] is the array [setWords] itself,
    and it is read here as the scan found it. *)
Definition attemptSolve (this : Solver) (wm : WordManager) (cancelled : bool)
  (maxAttempts : Z) : Outcome WordManager :=
  allPossibleWords <- collectAllWords this (getUsedPositions wm) (blacklistedWords wm) ;;
  let solution :=
    solvePuzzle this true (fun _ => cancelled) maxAttempts allPossibleWords (setWords wm) in
  if cancelled then Done wm
  else match solution with
       | Some sol => Done (applySolution wm sol)
       | None => Done wm
       end.

(** The set words share no cell and no word is set twice. *)
Definition setWordsOk (wm : WordManager) : Prop :=
  pairwiseDisjoint (setWords wm) /\ NoDup (map fst (setWords wm)).

(** The selection is [-1] or the index of a set word. *)
Definition selectionOk (wm : WordManager) : Prop :=
  -1 <= selectedSetWordIndex wm < Z.of_nat (List.length (setWords wm)).

(** The set word the selection points at. *)
Definition selectedSetWord (wm : WordManager) : option Candidate :=
  if selectedSetWordIndex wm <? 0 then None
  else nth_error (setWords wm) (Z.to_nat (selectedSetWordIndex wm)).

(** The first entry of each word, in order. *)
Fixpoint firstByWord (l : list Candidate) (seen : list Candidate) : list Candidate :=
  match l with
  | [] => []
  | e :: l' =>
      if hasSetWord seen (fst e) then firstByWord l' seen
      else e :: firstByWord l' (seen ++ [e])
  end.


(** The entry [[word, coords, coords.length]] that [attemptSolve] pushes
    for a candidate. *)
Definition poolEntry (e : Candidate) : PoolWord :=
  mkPoolWord (fst e) (snd e) (pathLen (snd e)).

(** The solver is as its constructor leaves it for its grid and word set. *)
Definition asConstructed (this : Solver) : Prop :=
  newSolver (grid this) (wordSet this) = Done this.


(** The calls that change a word manager. *)
Inductive WmCall : Type :=
| CallAddSetWord (word : string) (positions : Path)
| CallRemoveSetWord (index : Z)
| CallBlacklistWord (word : string)
| CallBlacklistAndRemoveWord (index : Z)
| CallClearSetWords
| CallClearBlacklist
| CallSelectSetWord (index : Z)
| CallUpdatePossibleWords (words : list Candidate).

Definition doCall (wm : WordManager) (c : WmCall) : WordManager :=
  match c with
  | CallAddSetWord word positions => addSetWord wm word positions
  | CallRemoveSetWord index => fst (removeSetWord wm index)
  | CallBlacklistWord word => blacklistWord wm word
  | CallBlacklistAndRemoveWord index => blacklistAndRemoveWord wm index
  | CallClearSetWords => clearSetWords wm
  | CallClearBlacklist => clearBlacklist wm
  | CallSelectSetWord index => selectSetWord wm index
  | CallUpdatePossibleWords words => updatePossibleWords wm words
  end.

(** [selectSetWord] is called on the index of a word of the list (from
    the items of the page and from [onCellClick]). *)
Definition callInRange (wm : WordManager) (c : WmCall) : Prop :=
  match c with
  | CallSelectSetWord index => 0 <= index < Z.of_nat (List.length (setWords wm))
  | _ => True
  end.

(** The word managers that calls make of a new one. *)
Inductive reachable : WordManager -> Prop :=
| reachable_new : reachable newWordManager
| reachable_call (wm : WordManager) (c : WmCall) :
    reachable wm -> callInRange wm c -> reachable (doCall wm c).


(** Sample word managers: one with the word CATS set and selected, and the
    outcomes of "Solve" on the 2 x 2 grid. *)
Definition wmSelectedCATS : WordManager :=
  mkWordManager [("CATS"%string, pathCATS)] [] 0 [] (-1).

Definition wmSolvedCATS : WordManager :=
  mkWordManager [("CATS"%string, pathCATS)] [] (-1) [] (-1).

Definition wmSolvedACTS : WordManager :=
  mkWordManager [("ACTS"%string, [(0, 1); (0, 0); (1, 0); (1, 1)])]
                ["CATS"%string] (-1) [] (-1).

Definition poolCATS : list PoolWord :=
  [ mkPoolWord "CATS" pathCATS 4;
    mkPoolWord "ACTS" [(0, 1); (0, 0); (1, 0); (1, 1)] 4 ].

(* ------------------------------------------------------------------ *)
(** ** solver.js: [setWordSet], [setGrid]; utils.js                     *)
(* ------------------------------------------------------------------ *)

Definition setWordSet (this : Solver) (ws : list string) : Outcome Solver :=
  trie <- buildPrefixTree ws ;;
  Done (mkSolver (grid this) ws trie (rows this) (cols this)).

(** [setGrid]; [grid[0].length] raises a TypeError on an empty grid. *)
Definition setGrid (this : Solver) (g : Grid) : Outcome Solver :=
  c <- gridCols g ;;
  Done (mkSolver g (wordSet this) (prefixTree this) (gridRows g) c).

(** utils.js [validateGrid], on a grid of one-character cells: the test
    [/^[A-Z]$/] of a cell is [isUpperChar]. *)
Definition validateGrid (g : Grid) : bool :=
  match g with
  | [] => false
  | r0 :: _ =>
      let cols := List.length r0 in
      if (cols =? 0)%nat then false
      else if existsb (fun row => negb (List.length row =? cols)%nat) g then false
      else if existsb (fun row => existsb (fun cell => negb (isUpperChar cell)) row) g
      then false
      else true
  end.

(** The greatest length of an array; [Array(n)] raises a RangeError beyond
    it and below zero. *)
Definition maxArrayLength : Z := 4294967295.

(** utils.js [createEmptyGrid], on integers: the callback of [map] runs
    once for each of the [rows] entries. *)
Definition createEmptyGrid (rows cols : Z) : Outcome Grid :=
  if (rows <? 0) || (maxArrayLength <? rows) then Threw
  else if rows =? 0 then Done []
  else if (cols <? 0) || (maxArrayLength <? cols) then Threw
  else Done (repeat (repeat "A"%char (Z.to_nat cols)) (Z.to_nat rows)).


(* ------------------------------------------------------------------ *)
(** ** grid.js: class [GridDisplay], the cursor of the editor           *)
(* ------------------------------------------------------------------ *)

(** [advanceToNextCell]: the cell handed to [startEditing]. *)
Definition advanceToNextCell (rows cols : Z) (currentRow currentCol : Z) : Cell :=
  let newCol := currentCol + 1 in
  let newRow := currentRow in
  if cols <=? newCol then
    let newCol := 0 in
    let newRow := newRow + 1 in
    if rows <=? newRow then (0, newCol) else (newRow, newCol)
  else (newRow, newCol).

(** The place of a cell in reading order. *)
Definition readingIndex (cols : Z) (c : Cell) : Z := fst c * cols + snd c.


(* ------------------------------------------------------------------ *)
(** ** utils.js: [parseTextGrid], on ASCII text                         *)
(* ------------------------------------------------------------------ *)

(** [s.replace(/[^A-Z]/g, '')]. *)
Fixpoint keepUpperAZ (s : string) : string :=
  match s with
  | EmptyString => EmptyString
  | String c r => if isUpperChar c then String c (keepUpperAZ r) else keepUpperAZ r
  end.

(** [line.trim()] taken as a condition: a non-empty string is true. *)
Definition nonBlank (line : string) : bool :=
  match trim line with
  | EmptyString => false
  | String _ _ => true
  end.

(** The loop of [parseTextGrid] over the lines; [None] is the [return null]
    inside the loop. *)
Fixpoint parseLines (cols : Z) (lines : list string) (grid : Grid) : option Grid :=
  match lines with
  | [] => Some grid
  | line :: rest =>
      let cleaned := keepUpperAZ (toUpperCase (trim line)) in
      if negb (strLen cleaned =? cols) then None
      else parseLines cols rest (grid ++ [list_ascii_of_string cleaned])
  end.

Definition parseTextGrid (text : string) : option Grid :=
  let lines := filter nonBlank (splitLines (trim text)) in
  match lines with
  | [] => None
  | line0 :: _ =>
      let cols := strLen line0 in
      match parseLines cols lines [] with
      | None => None
      | Some grid => if validateGrid grid then Some grid else None
      end
  end.

(** A letter, of either case. *)
Definition isLetterChar (c : ascii) : bool := isUpperChar c || isLowerChar c.

(** The lines joined by line feeds. *)
Fixpoint joinLines (lines : list string) : string :=
  match lines with
  | [] => EmptyString
  | [l] => l
  | l :: rest => (l ++ String newline (joinLines rest))%string
  end.

(** The text of a grid: one row per line. *)
Definition gridText (g : Grid) : string := joinLines (map string_of_list_ascii g).

(** The last character of the string is not white space. *)
Fixpoint endsNonSpace (s : string) : bool :=
  match s with
  | EmptyString => false
  | String c EmptyString => negb (isSpaceChar c)
  | String _ r => endsNonSpace r
  end.

Fixpoint allLetters (s : string) : bool :=
  match s with
  | EmptyString => true
  | String c r => isLetterChar c && allLetters r
  end.


(** The walk along [w] from the node [t] stays on objects and ends on one
    whose entry ['$'] is [true]: [w] is marked as a word below [t]. *)
Fixpoint marked (t : JsTrie) (w : string) : Prop :=
  match w with
  | EmptyString => trieGet t dollar = Some TrieTrue
  | String c r => exists child, trieGet t c = Some child /\ marked child r
  end.

(** Every character of the text is an ASCII character (code below 128);
    on such text [trim] and [toUpperCase] are the ASCII functions above. *)
Fixpoint asciiText (s : string) : bool :=
  match s with
  | EmptyString => true
  | String c r => (nat_of_ascii c <? 128)%nat && asciiText r
  end.

(* ================================================================== *)
(** * Part II.  Properties                                              *)
(* ================================================================== *)

(** ** Sets and maps *)

Lemma cellEqb_eq (a b : Cell) : cellEqb a b = true <-> a = b.
Proof.
  unfold cellEqb. destruct a as [ar ac], b as [br bc]. simpl.
  rewrite andb_true_iff, !Z.eqb_eq. split.
  - intros [-> ->]. reflexivity.
  - intros H. inversion H. split; reflexivity.
Qed.

Lemma cellEqb_refl (a : Cell) : cellEqb a a = true.
Proof. apply cellEqb_eq. reflexivity. Qed.

Lemma posHas_In (s : list Cell) (x : Cell) : posHas s x = true <-> In x s.
Proof.
  unfold posHas, setHas. rewrite existsb_exists. split.
  - intros [y [Hy E]]. apply cellEqb_eq in E. subst. exact Hy.
  - intros H. exists x. split; [exact H | apply cellEqb_refl].
Qed.

Lemma posHas_false (s : list Cell) (x : Cell) : posHas s x = false <-> ~ In x s.
Proof.
  rewrite <- posHas_In. destruct (posHas s x); split; intros H; try reflexivity;
    try discriminate; try (intros K; discriminate K); exfalso; apply H; reflexivity.
Qed.

Lemma wordHas_In (s : list string) (x : string) : wordHas s x = true <-> In x s.
Proof.
  unfold wordHas, setHas. rewrite existsb_exists. split.
  - intros [y [Hy E]]. apply String.eqb_eq in E. subst. exact Hy.
  - intros H. exists x. split; [exact H | apply String.eqb_refl].
Qed.

Lemma wordHas_false (s : list string) (x : string) : wordHas s x = false <-> ~ In x s.
Proof.
  rewrite <- wordHas_In. destruct (wordHas s x); split; intros H; try reflexivity;
    try discriminate; try (intros K; discriminate K); exfalso; apply H; reflexivity.
Qed.

Lemma wordAdd_In (s : list string) (x y : string) :
  In y (wordAdd s x) <-> In y s \/ y = x.
Proof.
  unfold wordAdd, setAdd. fold (wordHas s x).
  destruct (wordHas s x) eqn:E.
  - apply wordHas_In in E. split; [tauto | intros [H | ->]; assumption].
  - rewrite in_app_iff. simpl. split.
    + intros [H | [<- | []]]; [left; exact H | right; reflexivity].
    + intros [H | ->]; [left; exact H | right; left; reflexivity].
Qed.

Lemma wordAdd_NoDup (s : list string) (x : string) : NoDup s -> NoDup (wordAdd s x).
Proof.
  intros H. unfold wordAdd, setAdd. fold (wordHas s x).
  destruct (wordHas s x) eqn:E; [exact H |].
  apply wordHas_false in E.
  apply NoDup_app; [exact H | repeat constructor; intros [] | ].
  intros a Ha [<- | []]. exact (E Ha).
Qed.

Lemma posAdd_In (s : list Cell) (x y : Cell) :
  In y (posAdd s x) <-> In y s \/ y = x.
Proof.
  unfold posAdd, setAdd. fold (posHas s x).
  destruct (posHas s x) eqn:E.
  - apply posHas_In in E. split; [tauto | intros [H | ->]; assumption].
  - rewrite in_app_iff. simpl. split.
    + intros [H | [<- | []]]; [left; exact H | right; reflexivity].
    + intros [H | ->]; [left; exact H | right; left; reflexivity].
Qed.

Lemma posAdd_fresh (s : list Cell) (x : Cell) : ~ In x s -> posAdd s x = s ++ [x].
Proof.
  intros H. unfold posAdd, setAdd. fold (posHas s x).
  apply posHas_false in H. rewrite H. reflexivity.
Qed.

Lemma posDelete_absent (s : list Cell) (x : Cell) : ~ In x s -> posDelete s x = s.
Proof.
  induction s as [| y s IH]; intros H; [reflexivity |].
  unfold posDelete, setDelete in *. simpl.
  destruct (cellEqb x y) eqn:E.
  - apply cellEqb_eq in E. subst. exfalso. apply H. left. reflexivity.
  - simpl. f_equal. apply IH. intros K. apply H. right. exact K.
Qed.

Lemma posDelete_last (s : list Cell) (x : Cell) :
  ~ In x s -> posDelete (s ++ [x]) x = s.
Proof.
  intros H. unfold posDelete, setDelete. rewrite filter_app. simpl.
  rewrite cellEqb_refl. simpl. rewrite app_nil_r.
  apply (posDelete_absent s x H).
Qed.

(** ** Dictionary construction *)

Lemma loadWordLines_fold (lines acc : list string) (w : string) :
  In w (fold_left
          (fun wordSet line =>
             let word := toUpperCase (trim line) in
             if 4 <=? strLen word then wordAdd wordSet word else wordSet)
          lines acc)
  <-> In w acc
      \/ exists line, In line lines /\ w = toUpperCase (trim line) /\ 4 <= strLen w.
Proof.
  revert acc. induction lines as [| l lines IH]; intros acc; simpl.
  - split; [auto | intros [H | [line [[] _]]]; exact H].
  - rewrite IH. clear IH. cbv zeta.
    destruct (4 <=? strLen (toUpperCase (trim l))) eqn:E.
    + apply Z.leb_le in E. rewrite wordAdd_In. split.
      * intros [[H | ->] | [line [Hin Hw]]].
        -- left. exact H.
        -- right. exists l. split; [left; reflexivity | split; [reflexivity | exact E]].
        -- right. exists line. split; [right; exact Hin | exact Hw].
      * intros [H | [line [[<- | Hin] [Hw Hlen]]]].
        -- left. left. exact H.
        -- left. right. exact Hw.
        -- right. exists line. split; [exact Hin | split; assumption].
    + apply Z.leb_gt in E. split.
      * intros [H | [line [Hin Hw]]]; [left; exact H |].
        right. exists line. split; [right; exact Hin | exact Hw].
      * intros [H | [line [[<- | Hin] [Hw Hlen]]]].
        -- left. exact H.
        -- subst w. lia.
        -- right. exists line. split; [exact Hin | split; assumption].
Qed.

Lemma loadWordLines_fold_NoDup (lines acc : list string) :
  NoDup acc ->
  NoDup (fold_left
           (fun wordSet line =>
              let word := toUpperCase (trim line) in
              if 4 <=? strLen word then wordAdd wordSet word else wordSet)
           lines acc).
Proof.
  revert acc. induction lines as [| l lines IH]; intros acc H; simpl; [exact H |].
  apply IH. cbv zeta.
  destruct (4 <=? strLen (toUpperCase (trim l))); [apply wordAdd_NoDup |]; exact H.
Qed.

(** A line that is a duplicate of an earlier survivor leaves the set as it is. *)
Lemma wordAdd_idempotent (s : list string) (w : string) :
  wordAdd (wordAdd s w) w = wordAdd s w.
Proof.
  unfold wordAdd at 1. unfold setAdd. fold (wordHas (wordAdd s w) w).
  assert (H : wordHas (wordAdd s w) w = true).
  { apply wordHas_In. apply wordAdd_In. right. reflexivity. }
  rewrite H. reflexivity.
Qed.

(** C9, as the code has it: the dictionary holds exactly the trimmed and
    upper-cased lines of length at least 4, each once, duplicates leaving
    the set unchanged; no test on the characters is made. *)
Theorem loadWordLines_exact (lines : list string) :
  NoDup (loadWordLines lines)
  /\ (forall w,
        In w (loadWordLines lines)
        <-> exists line, In line lines /\ w = toUpperCase (trim line) /\ 4 <= strLen w)
  /\ (forall s w, wordAdd (wordAdd s w) w = wordAdd s w).
Proof.
  split; [| split].
  - apply loadWordLines_fold_NoDup. constructor.
  - intros w. unfold loadWordLines. rewrite loadWordLines_fold. simpl.
    split; [intros [[] | H]; exact H | intros H; right; exact H].
  - apply wordAdd_idempotent.
Qed.

(** Every word of a loaded dictionary has at least 4 letters. *)
Lemma loadWordLines_min_length (lines : list string) (w : string) :
  In w (loadWordLines lines) -> 4 <= strLen w.
Proof.
  unfold loadWordLines. rewrite loadWordLines_fold.
  intros [[] | [line [_ [_ Hlen]]]]. exact Hlen.
Qed.

(** C9, counterexample: the line [don't] survives as [DON'T], which holds a
    character outside A-Z. *)
Lemma loadWordLines_keeps_apostrophe :
  ~ dictionaryOnlyAZ ["don't"%string].
Proof.
  intros H. specialize (H "DON'T"%string).
  assert (K : In "DON'T"%string (loadWordLines ["don't"%string])).
  { vm_compute. left. reflexivity. }
  apply H in K. vm_compute in K. discriminate K.
Qed.

(** ** The empty dictionary *)

Lemma loadWordList_empty_text : loadWordList (Some EmptyString) = [].
Proof. reflexivity. Qed.

Lemma trieHasPrefix_empty_trie (p : string) :
  p <> EmptyString -> trieHasPrefix (TrieObj []) p = false.
Proof.
  destruct p as [| c r]; intros H; [exfalso; apply H; reflexivity | reflexivity].
Qed.

(** C8, as the code has it: on the dictionary built from empty input the
    tree is built without error, membership is false for every word, and
    [hasPrefix] is false for every non-empty prefix. *)
Theorem empty_dictionary_queries (g : Grid) (text : option string) (this : Solver) :
  text = None \/ text = Some EmptyString ->
  newSolver g (loadWordList text) = Done this ->
  buildPrefixTree (loadWordList text) = Done (TrieObj [])
  /\ (forall w, wordHas (wordSet this) w = false)
  /\ (forall p, p <> EmptyString -> hasPrefix this p = false).
Proof.
  intros Htext Hnew.
  assert (E : loadWordList text = []) by (destruct Htext as [-> | ->]; reflexivity).
  rewrite E in *. split; [reflexivity |].
  unfold newSolver in Hnew. simpl in Hnew.
  destruct g as [| r g']; simpl in Hnew; [discriminate Hnew |].
  inversion Hnew; subst this; clear Hnew. simpl. split.
  - intros w. reflexivity.
  - intros p Hp. unfold hasPrefix. simpl. apply trieHasPrefix_empty_trie. exact Hp.
Qed.

Lemma empty_dictionary_queries_witness :
  buildPrefixTree (loadWordList (Some EmptyString)) = Done (TrieObj [])
  /\ (forall w, wordHas (wordSet emptyDictionarySolver) w = false)
  /\ (forall p, p <> EmptyString -> hasPrefix emptyDictionarySolver p = false).
Proof.
  apply (empty_dictionary_queries [["A"%char]] (Some EmptyString) emptyDictionarySolver).
  - right. reflexivity.
  - reflexivity.
Defined.

(** C8, counterexample: on the empty dictionary [hasPrefix] answers [true]
    for the empty prefix. *)
Lemma hasPrefix_empty_prefix_true :
  newSolver [["A"%char]] (loadWordList (Some EmptyString)) = Done emptyDictionarySolver
  /\ hasPrefix emptyDictionarySolver EmptyString = true
  /\ ~ allQueriesFalse emptyDictionarySolver.
Proof.
  split; [reflexivity | split; [reflexivity |]].
  intros [_ H]. specialize (H EmptyString). discriminate H.
Qed.

(** ** The stable sort *)

Section JsSortFacts.
Context {A : Type} (cmp : A -> A -> Z) (key : A -> Z).
Hypothesis cmp_key : forall a b, cmp a b = key a - key b.

Lemma insertSorted_perm (x : A) (l : list A) :
  Permutation (insertSorted cmp x l) (x :: l).
Proof.
  induction l as [| y l IH]; simpl; [apply Permutation_refl |].
  destruct (0 <? cmp x y); [| apply Permutation_refl].
  eapply Permutation_trans; [apply perm_skip, IH | apply perm_swap].
Qed.

Lemma jsSort_perm (l : list A) : Permutation (jsSort cmp l) l.
Proof.
  induction l as [| x l IH]; simpl; [apply perm_nil |].
  eapply Permutation_trans; [apply insertSorted_perm | apply perm_skip, IH].
Qed.

Lemma jsSort_In (l : list A) (x : A) : In x (jsSort cmp l) <-> In x l.
Proof.
  split; apply Permutation_in; [| apply Permutation_sym]; apply jsSort_perm.
Qed.

Lemma insertSorted_sorted (x : A) (l : list A) :
  StronglySorted (fun a b => key a <= key b) l ->
  StronglySorted (fun a b => key a <= key b) (insertSorted cmp x l).
Proof.
  induction l as [| y l IH]; intros Hs; simpl.
  - constructor; [constructor | constructor].
  - inversion Hs as [| ? ? Hl Hy]; subst.
    destruct (0 <? cmp x y) eqn:E.
    + apply Z.ltb_lt in E. rewrite cmp_key in E.
      constructor; [apply IH; exact Hl |].
      apply Forall_forall. intros z Hz.
      apply (Permutation_in _ (insertSorted_perm x l)) in Hz.
      destruct Hz as [<- | Hz]; [lia |].
      rewrite Forall_forall in Hy. apply Hy. exact Hz.
    + apply Z.ltb_ge in E. rewrite cmp_key in E.
      constructor; [exact Hs |].
      constructor; [lia |].
      rewrite Forall_forall in Hy |- *. intros z Hz. specialize (Hy z Hz). lia.
Qed.

Lemma jsSort_sorted (l : list A) :
  StronglySorted (fun a b => key a <= key b) (jsSort cmp l).
Proof.
  induction l as [| x l IH]; simpl; [constructor |].
  apply insertSorted_sorted. exact IH.
Qed.

Lemma insertSorted_filter (k : Z) (x : A) (l : list A) :
  filter (fun a => key a =? k) (insertSorted cmp x l)
  = filter (fun a => key a =? k) (x :: l).
Proof.
  induction l as [| y l IH]; [reflexivity |].
  simpl insertSorted. destruct (0 <? cmp x y) eqn:E; [| reflexivity].
  apply Z.ltb_lt in E. rewrite cmp_key in E.
  change (filter (fun a => key a =? k) (y :: insertSorted cmp x l))
    with (if key y =? k then y :: filter (fun a => key a =? k) (insertSorted cmp x l)
          else filter (fun a => key a =? k) (insertSorted cmp x l)).
  rewrite IH. simpl.
  destruct (key y =? k) eqn:Ey, (key x =? k) eqn:Ex; try reflexivity.
  apply Z.eqb_eq in Ey, Ex. lia.
Qed.

(** Stability: elements with the same key keep their relative order. *)
Lemma jsSort_stable (k : Z) (l : list A) :
  filter (fun a => key a =? k) (jsSort cmp l) = filter (fun a => key a =? k) l.
Proof.
  induction l as [| x l IH]; [reflexivity |].
  simpl jsSort. rewrite insertSorted_filter. simpl. rewrite IH. reflexivity.
Qed.

End JsSortFacts.

(** ** The map [uniqueWords] *)

Lemma mapHas_keys (m : list Candidate) (k : string) :
  mapHas m k = wordHas (map fst m) k.
Proof.
  unfold mapHas, wordHas, setHas.
  induction m as [| [k' v] m IH]; simpl; [reflexivity | rewrite IH; reflexivity].
Qed.

Lemma mapHas_In (m : list Candidate) (k : string) :
  mapHas m k = true <-> In k (map fst m).
Proof. rewrite mapHas_keys. apply wordHas_In. Qed.

Lemma mapSet_keys (m : list Candidate) (k : string) (v : Path) :
  map fst (mapSet m k v) = if mapHas m k then map fst m else map fst m ++ [k].
Proof.
  induction m as [| [k' v'] m IH]; simpl; [reflexivity |].
  unfold mapHas in *. simpl.
  destruct (String.eqb k k') eqn:E; simpl; [reflexivity |].
  rewrite IH.
  match goal with |- context [existsb ?f m] => destruct (existsb f m) end; reflexivity.
Qed.

Lemma mapSet_absent (m : list Candidate) (k : string) (v : Path) :
  mapHas m k = false -> mapSet m k v = m ++ [(k, v)].
Proof.
  induction m as [| [k' v'] m IH]; simpl; intros H; [reflexivity |].
  unfold mapHas in H. simpl in H. apply orb_false_iff in H. destruct H as [E H].
  rewrite E. f_equal. apply IH. exact H.
Qed.

Lemma mapSet_In (m : list Candidate) (k : string) (v : Path) (e : Candidate) :
  NoDup (map fst m) ->
  In e (mapSet m k v) ->
  (fst e <> k /\ In e m) \/ e = (k, v).
Proof.
  induction m as [| [k' v'] m IH]; simpl; intros Hnd Hin.
  - destruct Hin as [<- | []]. right. reflexivity.
  - inversion Hnd as [| ? ? Hk Hnd']; subst.
    destruct (String.eqb k k') eqn:E.
    + apply String.eqb_eq in E. subst k'.
      destruct Hin as [<- | Hin]; [right; reflexivity |].
      left. split; [| right; exact Hin].
      intros <-. apply Hk. apply in_map. exact Hin.
    + apply String.eqb_neq in E.
      destruct Hin as [<- | Hin].
      * left. split; [simpl; congruence | left; reflexivity].
      * destruct (IH Hnd' Hin) as [[Hne Hm] | ->]; [left | right; reflexivity].
        split; [exact Hne | right; exact Hm].
Qed.

Lemma mapSet_keeps_others (m : list Candidate) (k : string) (v : Path) (e : Candidate) :
  fst e <> k -> In e m -> In e (mapSet m k v).
Proof.
  induction m as [| [k' v'] m IH]; simpl; intros Hne Hin; [destruct Hin |].
  destruct (String.eqb k k') eqn:E.
  - apply String.eqb_eq in E. subst k'.
    destruct Hin as [<- | Hin]; [exfalso; apply Hne; reflexivity | right; exact Hin].
  - destruct Hin as [<- | Hin]; [left; reflexivity | right; apply IH; assumption].
Qed.

Lemma mapGet_In (m : list Candidate) (k : string) (v : Path) :
  NoDup (map fst m) -> In (k, v) m -> mapGet m k = Some v.
Proof.
  induction m as [| [k' v'] m IH]; simpl; intros Hnd Hin; [destruct Hin |].
  inversion Hnd as [| ? ? Hk Hnd']; subst.
  destruct Hin as [E | Hin].
  - inversion E; subst. rewrite String.eqb_refl. reflexivity.
  - destruct (String.eqb k k') eqn:E.
    + apply String.eqb_eq in E. subst k'. exfalso. apply Hk.
      change k with (fst (k, v)). apply in_map. exact Hin.
    + apply IH; assumption.
Qed.

Lemma mapGet_Some_In (m : list Candidate) (k : string) (v : Path) :
  mapGet m k = Some v -> In (k, v) m.
Proof.
  induction m as [| [k' v'] m IH]; simpl; intros H; [discriminate H |].
  destruct (String.eqb k k') eqn:E.
  - apply String.eqb_eq in E. inversion H; subst. left. reflexivity.
  - right. apply IH. exact H.
Qed.

Lemma mapGet_None (m : list Candidate) (k : string) :
  mapHas m k = false -> mapGet m k = None.
Proof.
  induction m as [| [k' v'] m IH]; simpl; intros H; [reflexivity |].
  unfold mapHas in H. simpl in H. apply orb_false_iff in H. destruct H as [E H].
  rewrite E. apply IH. exact H.
Qed.

Lemma mapHas_get (m : list Candidate) (k : string) :
  mapHas m k = true -> exists v, mapGet m k = Some v.
Proof.
  induction m as [| [k' v'] m IH]; simpl; intros H; [discriminate H |].
  unfold mapHas in H. simpl in H.
  destruct (String.eqb k k') eqn:E; [eexists; reflexivity |].
  apply IH. exact H.
Qed.

(** The three ways [keepWord] acts. *)
Lemma keepWord_cases (m : list Candidate) (w : string) (p : Path) :
  (mapHas m w = false /\ keepWord m w p = m ++ [(w, p)])
  \/ (exists stored, mapGet m w = Some stored /\ pathLen stored < pathLen p
                     /\ keepWord m w p = mapSet m w p)
  \/ (exists stored, mapGet m w = Some stored /\ pathLen p <= pathLen stored
                     /\ keepWord m w p = m).
Proof.
  unfold keepWord. destruct (mapHas m w) eqn:H; simpl.
  - right. destruct (mapHas_get m w H) as [stored Hs]. rewrite Hs.
    destruct (pathLen stored <? pathLen p) eqn:E.
    + left. exists stored. apply Z.ltb_lt in E. auto.
    + right. exists stored. apply Z.ltb_ge in E. auto.
  - left. split; [reflexivity | apply mapSet_absent; exact H].
Qed.

Lemma keepWord_keys (m : list Candidate) (w : string) (p : Path) :
  map fst (keepWord m w p) = wordAdd (map fst m) w.
Proof.
  unfold wordAdd, setAdd. fold (wordHas (map fst m) w). rewrite <- mapHas_keys.
  destruct (keepWord_cases m w p) as [[H E] | [[st [Hg [Hl E]]] | [st [Hg [Hl E]]]]];
    rewrite E.
  - rewrite H, map_app. reflexivity.
  - rewrite mapSet_keys.
    destruct (mapHas m w) eqn:H; [reflexivity |].
    rewrite (mapGet_None m w H) in Hg. discriminate Hg.
  - destruct (mapHas m w) eqn:H; [reflexivity |].
    rewrite (mapGet_None m w H) in Hg. discriminate Hg.
Qed.

Lemma replayHits_snoc (hs : list Candidate) (e : Candidate) (m : list Candidate) :
  replayHits (hs ++ [e]) m = keepWord (replayHits hs m) (fst e) (snd e).
Proof. unfold replayHits. rewrite fold_left_app. reflexivity. Qed.

Lemma replayHits_keys (hs m : list Candidate) :
  map fst (replayHits hs m) = fold_left wordAdd (map fst hs) (map fst m).
Proof.
  revert m. induction hs as [| e hs IH]; intros m; [reflexivity |].
  simpl. unfold replayHits in IH. rewrite IH, keepWord_keys. reflexivity.
Qed.

Lemma fold_wordAdd_NoDup (ws seen : list string) :
  NoDup seen -> NoDup (fold_left wordAdd ws seen).
Proof.
  revert seen. induction ws as [| w ws IH]; intros seen H; simpl; [exact H |].
  apply IH, wordAdd_NoDup, H.
Qed.

Lemma fold_wordAdd_firstOccurrences (ws seen : list string) :
  fold_left wordAdd ws seen = seen ++ firstOccurrences ws seen.
Proof.
  revert seen. induction ws as [| w ws IH]; intros seen; simpl.
  - rewrite app_nil_r. reflexivity.
  - unfold wordAdd at 2. unfold setAdd. fold (wordHas seen w).
    destruct (wordHas seen w); rewrite IH; [reflexivity |].
    rewrite <- app_assoc. reflexivity.
Qed.

(** The keys of [uniqueWords] are the validated words in the order of
    their first discovery, each once. *)
Lemma replayHits_first_occurrences (hs : list Candidate) :
  map fst (replayHits hs []) = firstOccurrences (map fst hs) []
  /\ NoDup (map fst (replayHits hs [])).
Proof.
  rewrite replayHits_keys. simpl. split.
  - apply (fold_wordAdd_firstOccurrences (map fst hs) []).
  - apply fold_wordAdd_NoDup. constructor.
Qed.

Lemma firstLongest_extend (hs : list Candidate) (e h : Candidate) :
  firstLongest hs e ->
  (fst h = fst e -> pathLen (snd h) <= pathLen (snd e)) ->
  firstLongest (hs ++ [h]) e.
Proof.
  intros [pre [post [E [Hpre Hpost]]]] Hh.
  exists pre, (post ++ [h]). split; [| split].
  - rewrite E, <- app_assoc. reflexivity.
  - exact Hpre.
  - intros q Hq. apply in_app_iff in Hq. destruct Hq as [Hq | [Hq | []]].
    + apply Hpost. exact Hq.
    + subst h. simpl in Hh. apply Hh. reflexivity.
Qed.

Lemma firstLongest_bound (hs : list Candidate) (e : Candidate) (q : Path) :
  firstLongest hs e -> In (fst e, q) hs -> pathLen q <= pathLen (snd e).
Proof.
  destruct e as [w p]. simpl.
  intros [pre [post [E [Hpre Hpost]]]] Hq. subst hs. simpl in *.
  apply in_app_iff in Hq. destruct Hq as [Hq | [Hq | Hq]].
  - specialize (Hpre q Hq). lia.
  - inversion Hq; subst. lia.
  - apply Hpost. exact Hq.
Qed.

(** Each entry of [uniqueWords] is the first longest validated pair of its
    word, and every validated word has an entry. *)
Lemma replayHits_firstLongest (hs : list Candidate) :
  (forall e, In e (replayHits hs []) -> firstLongest hs e)
  /\ (forall e, In e hs -> mapHas (replayHits hs []) (fst e) = true).
Proof.
  induction hs as [| h hs IH] using rev_ind.
  - split; intros e [].
  - destruct IH as [IHa IHb].
    destruct (replayHits_first_occurrences hs) as [_ Hnd].
    rewrite replayHits_snoc.
    set (m := replayHits hs []) in *.
    split.
    + intros e He.
      destruct (keepWord_cases m (fst h) (snd h))
        as [[Hno E] | [[st [Hg [Hl E]]] | [st [Hg [Hl E]]]]]; rewrite E in He.
      * apply in_app_iff in He. destruct He as [He | [He | []]].
        -- apply firstLongest_extend; [apply IHa; exact He |].
           intros Hw. exfalso.
           assert (K : mapHas m (fst h) = true).
           { apply mapHas_In. rewrite Hw. apply in_map. exact He. }
           rewrite Hno in K. discriminate K.
        -- exists hs, []. split; [| split].
           ++ rewrite <- He. destruct h; reflexivity.
           ++ intros q Hq. subst e. simpl in Hq. apply IHb in Hq. simpl in Hq.
              rewrite Hno in Hq. discriminate Hq.
           ++ intros q [].
      * destruct (mapSet_In m (fst h) (snd h) e Hnd He) as [[Hne Hm] | ->].
        -- apply firstLongest_extend; [apply IHa; exact Hm |].
           intros Hw. exfalso. apply Hne. symmetry. exact Hw.
        -- exists hs, []. split; [| split].
           ++ destruct h; reflexivity.
           ++ intros q Hq. simpl in Hq |- *.
              apply mapGet_Some_In in Hg. apply IHa in Hg.
              pose proof (firstLongest_bound hs (fst h, st) q Hg Hq) as B.
              simpl in B. lia.
           ++ intros q [].
      * apply firstLongest_extend; [apply IHa; exact He |].
        intros Hw.
        assert (K : mapGet m (fst h) = Some (snd e)).
        { apply mapGet_In; [exact Hnd |]. rewrite Hw. destruct e; exact He. }
        rewrite Hg in K. inversion K; subst. exact Hl.
    + intros e He. apply mapHas_In. rewrite keepWord_keys. apply wordAdd_In.
      apply in_app_iff in He. destruct He as [He | [He | []]].
      * left. apply mapHas_In. apply IHb. exact He.
      * right. subst e. reflexivity.
Qed.

Lemma replayHits_subset (hs : list Candidate) (e : Candidate) :
  In e (replayHits hs []) -> In e hs.
Proof.
  intros H. destruct (replayHits_firstLongest hs) as [Ha _].
  destruct (Ha e H) as [pre [post [E _]]]. rewrite E.
  apply in_app_iff. right. left. reflexivity.
Qed.

(** ** Paths and the words they spell *)

Lemma strLen_app (a b : string) : strLen (a ++ b) = strLen a + strLen b.
Proof.
  unfold strLen. induction a as [| c a IH]; simpl String.length.
  - simpl. lia.
  - change (String c a ++ b)%string with (String c (a ++ b)).
    simpl String.length. lia.
Qed.

Lemma toUpperCase_app (a b : string) :
  toUpperCase (a ++ b) = (toUpperCase a ++ toUpperCase b)%string.
Proof.
  induction a as [| c a IH]; simpl; [reflexivity | rewrite IH; reflexivity].
Qed.

Lemma toUpperCase_length (s : string) : strLen (toUpperCase s) = strLen s.
Proof.
  unfold strLen. induction s as [| c s IH]; simpl; [reflexivity | lia].
Qed.

Lemma pathLen_snoc (p : Path) (c : Cell) : pathLen (p ++ [c]) = pathLen p + 1.
Proof. unfold pathLen. rewrite length_app. simpl. lia. Qed.

Lemma lettersAlong_snoc (g : Grid) (p : Path) (r c : Z) :
  lettersAlong g (p ++ [(r, c)])
  = match lettersAlong g p, gridAt g r c with
    | Some s, Some ch => Some (s ++ String ch EmptyString)%string
    | _, _ => None
    end.
Proof.
  induction p as [| [r' c'] p IH]; simpl.
  - destruct (gridAt g r c); reflexivity.
  - rewrite IH. destruct (gridAt g r' c'), (lettersAlong g p), (gridAt g r c);
      reflexivity.
Qed.

Lemma lettersAlong_length (g : Grid) (p : Path) (s : string) :
  lettersAlong g p = Some s -> strLen s = pathLen p.
Proof.
  revert s. induction p as [| [r c] p IH]; simpl; intros s H.
  - inversion H. reflexivity.
  - destruct (gridAt g r c); [| discriminate H].
    destruct (lettersAlong g p) as [s' |]; [| discriminate H].
    inversion H; subst. specialize (IH s' eq_refl).
    unfold strLen, pathLen in *. simpl. lia.
Qed.

(** A path that spells a word has as many cells as the word has letters. *)
Lemma spells_length (g : Grid) (p : Path) (w : string) :
  spells g p w -> strLen w = pathLen p.
Proof.
  unfold spells. intros H.
  destruct (lettersAlong g p) as [s |] eqn:E; simpl in H; [| discriminate H].
  inversion H; subst. rewrite toUpperCase_length.
  apply (lettersAlong_length g p s E).
Qed.

Lemma spells_snoc (g : Grid) (p : Path) (w : string) (r c : Z) (ch : ascii) :
  spells g p w -> gridAt g r c = Some ch ->
  spells g (p ++ [(r, c)]) (w ++ String (toUpperChar ch) EmptyString).
Proof.
  unfold spells. intros H G. rewrite lettersAlong_snoc, G.
  destruct (lettersAlong g p) as [s |]; simpl in *; [| discriminate H].
  inversion H; subst. rewrite toUpperCase_app. reflexivity.
Qed.

Lemma isPath8_snoc (p : Path) (a b d : Cell) :
  p <> [] -> isPath8 p -> last p d = a -> neighbors8 a b -> isPath8 (p ++ [b]).
Proof.
  induction p as [| x p IH]; intros Hne Hp Hl Hn; [contradiction |].
  destruct p as [| y p'].
  - simpl in *. subst. split; [exact Hn | exact I].
  - change (isPath8 (x :: (y :: p') ++ [b])).
    change (neighbors8 x y /\ isPath8 ((y :: p') ++ [b])).
    destruct Hp as [Hxy Hrest]. split; [exact Hxy |].
    apply IH; [discriminate | exact Hrest | exact Hl | exact Hn].
Qed.

Lemma step_neighbors8 (row col : Z) (d : Z * Z) :
  isStep d -> neighbors8 (row, col) (row + fst d, col + snd d).
Proof.
  destruct d as [dr dc]. unfold isStep, neighbors8. simpl.
  intros [Hr [Hc Hne]]. split; [| split].
  - replace (row + dr - row) with dr by lia. exact Hr.
  - replace (col + dc - col) with dc by lia. exact Hc.
  - intros E. apply Hne. inversion E. f_equal; lia.
Qed.

Lemma directions_are_steps : Forall isStep directions.
Proof.
  unfold directions, isStep.
  repeat constructor; simpl; try lia; discriminate.
Qed.

(** ** A simple path inside the grid has at most [rows * cols] cells *)

Lemma inBounds_range (this : Solver) (r c : Z) :
  inBounds this r c = true <-> 0 <= r < rows this /\ 0 <= c < cols this.
Proof.
  unfold inBounds. rewrite negb_true_iff, !orb_false_iff.
  rewrite !Z.ltb_ge, !Z.leb_gt. lia.
Qed.

Lemma indexRange_In (n k : Z) : In k (indexRange n) <-> 0 <= k < n.
Proof.
  unfold indexRange. rewrite in_map_iff. split.
  - intros [i [<- Hi]]. apply in_seq in Hi. lia.
  - intros H. exists (Z.to_nat k). split; [lia |]. apply in_seq. lia.
Qed.

Lemma indexRange_length (n : Z) : List.length (indexRange n) = Z.to_nat n.
Proof. unfold indexRange. rewrite length_map, length_seq. reflexivity. Qed.

Lemma simple_path_short (this : Solver) (p : Path) :
  NoDup p ->
  (forall c, In c p -> inBounds this (fst c) (snd c) = true) ->
  (List.length p <= dfsFuel this)%nat.
Proof.
  intros Hnd Hin. destruct p as [| c0 p']; [simpl; lia |].
  assert (H0 : inBounds this (fst c0) (snd c0) = true) by (apply Hin; left; reflexivity).
  apply inBounds_range in H0.
  assert (L : List.length (list_prod (indexRange (rows this)) (indexRange (cols this)))
              = dfsFuel this).
  { rewrite length_prod, !indexRange_length. unfold dfsFuel.
    rewrite Z2Nat.inj_mul by lia. reflexivity. }
  rewrite <- L. apply NoDup_incl_length; [exact Hnd |].
  intros [r c] Hc. apply in_prod; apply indexRange_In;
    specialize (Hin (r, c) Hc); apply inBounds_range in Hin; simpl in Hin; lia.
Qed.

(** ** The enumerator keeps its invariants *)

Section EnumeratorCorrect.
Variable this : Solver.
Variable occupied : list Cell.
Variable blacklist : list string.
Variables minLength maxLength : Z.
Variable start : Cell.

Lemma pathPre_snoc (row col : Z) (w : string) (p : Path) (d : Z * Z) (ch : ascii) :
  pathPre this occupied maxLength start row col w p ->
  isStep d ->
  strLen w < maxLength ->
  inBounds this (row + fst d) (col + snd d) = true ->
  ~ In (row + fst d, col + snd d) p ->
  ~ In (row + fst d, col + snd d) occupied ->
  gridAt (grid this) (row + fst d) (col + snd d) = Some ch ->
  pathPre this occupied maxLength start (row + fst d) (col + snd d)
          (w ++ String (toUpperChar ch) EmptyString)
          (p ++ [(row + fst d, col + snd d)]).
Proof.
  intros [[Hstart [Hp8 [Hnd [Hin Hocc]]]] [Hlast [Hsp [Hlen Hmax]]]]
         Hstep Hlt Hb Hfresh Hfree Hg.
  destruct Hstart as [rest Hrest].
  split; [| split; [| split; [| split]]].
  - split; [| split; [| split; [| split]]].
    + exists (rest ++ [(row + fst d, col + snd d)]). rewrite Hrest. reflexivity.
    + apply (isPath8_snoc p (row, col) _ start).
      * rewrite Hrest. discriminate.
      * exact Hp8.
      * exact Hlast.
      * apply step_neighbors8. exact Hstep.
    + apply NoDup_app; [exact Hnd | repeat constructor; intros [] |].
      intros a Ha [<- | []]. exact (Hfresh Ha).
    + intros c Hc. apply in_app_iff in Hc. destruct Hc as [Hc | [<- | []]].
      * apply Hin. exact Hc.
      * exact Hb.
    + intros c Hc. apply in_app_iff in Hc. destruct Hc as [Hc | [<- | []]].
      * apply Hocc. exact Hc.
      * exact Hfree.
  - apply last_last.
  - apply spells_snoc; assumption.
  - rewrite strLen_app, pathLen_snoc, Hlen. reflexivity.
  - rewrite strLen_app. change (strLen (String (toUpperChar ch) EmptyString)) with 1.
    lia.
Qed.

Lemma tryDirections_cons
  (rec : Z -> Z -> string -> Path -> DfsState -> Outcome DfsState)
  (d : Z * Z) (ds : list (Z * Z)) (row col : Z) (w : string) (p : Path)
  (st : DfsState) :
  tryDirections this occupied rec (d :: ds) row col w p st
  = let newRow := row + fst d in
    let newCol := col + snd d in
    if negb (inBounds this newRow newCol) then
      tryDirections this occupied rec ds row col w p st
    else if posHas (visited st) (newRow, newCol) then
      tryDirections this occupied rec ds row col w p st
    else if posHas occupied (newRow, newCol) then
      tryDirections this occupied rec ds row col w p st
    else
      match gridAt (grid this) newRow newCol with
      | None => Threw
      | Some ch =>
          st2 <- rec newRow newCol (w ++ String (toUpperChar ch) EmptyString)%string
                     (p ++ [(newRow, newCol)])
                     (mkDfsState (uniqueWords st)
                                 (posAdd (visited st) (newRow, newCol))
                                 (hits st)) ;;
          tryDirections this occupied rec ds row col w p
            (mkDfsState (uniqueWords st2)
                        (posDelete (visited st2) (newRow, newCol))
                        (hits st2))
      end.
Proof. destruct d as [dr dc]. reflexivity. Qed.

Lemma tryDirections_ok (n : nat)
  (rec : Z -> Z -> string -> Path -> DfsState -> Outcome DfsState)
  (ds : list (Z * Z)) :
  dfsOk this occupied blacklist minLength maxLength start n rec ->
  Forall isStep ds ->
  forall row col w p st,
    pathPre this occupied maxLength start row col w p ->
    strLen w < maxLength ->
    visited st = p ->
    stateOk this occupied blacklist minLength maxLength start st ->
    (n <= S (List.length p))%nat ->
    outcomeOk this occupied blacklist minLength maxLength start p
              (tryDirections this occupied rec ds row col w p st).
Proof.
  intros Hrec. induction ds as [| d ds IH]; intros Hsteps row col w p st Hpre Hlt Hvis Hst Hn.
  - simpl. split; assumption.
  - inversion Hsteps as [| ? ? Hd Hds]; subst.
    rewrite tryDirections_cons. cbv zeta.
    destruct (inBounds this (row + fst d) (col + snd d)) eqn:Hb; simpl negb; cbv iota;
      [| apply IH; auto].
    destruct (posHas (visited st) (row + fst d, col + snd d)) eqn:Hv; [apply IH; auto |].
    destruct (posHas occupied (row + fst d, col + snd d)) eqn:Hu; [apply IH; auto |].
    apply posHas_false in Hv, Hu.
    destruct (gridAt (grid this) (row + fst d) (col + snd d)) as [ch |] eqn:Hg.
    + pose proof (pathPre_snoc row col w (visited st) d ch Hpre Hd Hlt Hb Hv Hu Hg) as Hpre'.
      match goal with
      | |- context [rec ?r ?c ?w' ?p' ?s1] =>
          assert (Hcall : outcomeOk this occupied blacklist minLength maxLength start p'
                                    (rec r c w' p' s1))
      end.
      { apply Hrec.
        - exact Hpre'.
        - simpl. apply posAdd_fresh. exact Hv.
        - exact Hst.
        - rewrite length_app. simpl. lia. }
      match goal with
      | |- context [rec ?r ?c ?w' ?p' ?s1] => destruct (rec r c w' p' s1) as [st2 | |]
      end; simpl in Hcall |- *; [| exact Hcall | exact Hcall].
      destruct Hcall as [Hv2 Hst2].
      apply IH; auto.
      simpl. rewrite Hv2. apply posDelete_last. exact Hv.
    + simpl. intros Hcov. apply (Hcov _ _ Hb). exact Hg.
Qed.

Lemma checkWord_ok (row col : Z) (w : string) (p : Path) (st : DfsState) :
  pathPre this occupied maxLength start row col w p ->
  stateOk this occupied blacklist minLength maxLength start st ->
  stateOk this occupied blacklist minLength maxLength start
          (checkWord this blacklist minLength w p st)
  /\ visited (checkWord this blacklist minLength w p st) = visited st.
Proof.
  intros [Hpath [Hlast [Hsp [Hlen Hmax]]]] [Hu Hh].
  unfold checkWord. destruct (isValidWord this blacklist minLength w) eqn:E;
    [| split; [split; assumption | reflexivity]].
  unfold isValidWord in E. apply andb_true_iff in E. destruct E as [E Hbl].
  apply andb_true_iff in E. destruct E as [Hmin Hdict].
  apply Z.leb_le in Hmin. apply wordHas_In in Hdict.
  apply negb_true_iff in Hbl. apply wordHas_false in Hbl.
  split; [| reflexivity]. split; simpl.
  - rewrite replayHits_snoc, <- Hu. reflexivity.
  - apply Forall_app. split; [exact Hh |]. constructor; [| constructor].
    split; [| exact Hlen].
    split; [exact Hpath |]. simpl. repeat split; try assumption; lia.
Qed.

Lemma dfs_succ (fuel : nat) (row col : Z) (w : string) (p : Path) (st : DfsState) :
  dfs this occupied blacklist minLength maxLength (S fuel) row col w p st
  = let st1 := checkWord this blacklist minLength w p st in
    if maxLength <=? strLen w then Done st1
    else if negb (hasPrefix this w) then Done st1
    else tryDirections this occupied
           (dfs this occupied blacklist minLength maxLength fuel)
           directions row col w p st1.
Proof. reflexivity. Qed.

Lemma dfs_ok (fuel : nat) :
  dfsOk this occupied blacklist minLength maxLength start
        (S (dfsFuel this) - fuel)
        (dfs this occupied blacklist minLength maxLength fuel).
Proof.
  induction fuel as [| fuel IH]; intros row col w p st Hpre Hvis Hst Hn.
  - change (dfs this occupied blacklist minLength maxLength 0 row col w p st)
      with (@NoFuel DfsState).
    unfold outcomeOk. destruct Hpre as [[_ [_ [Hnd [Hin _]]]] _].
    pose proof (simple_path_short this p Hnd Hin) as Hshort.
    generalize dependent (dfsFuel this). intros. lia.
  - rewrite dfs_succ. cbv zeta.
    destruct (checkWord_ok row col w p st Hpre Hst) as [Hst1 Hv1].
    destruct (maxLength <=? strLen w) eqn:Hmax.
    { unfold outcomeOk. split; [rewrite Hv1; exact Hvis | exact Hst1]. }
    destruct (hasPrefix this w); unfold negb.
    + apply Z.leb_gt in Hmax.
      apply (tryDirections_ok _ _ _ IH directions_are_steps); auto.
      * rewrite Hv1. exact Hvis.
      * generalize dependent (dfsFuel this). intros. lia.
    + unfold outcomeOk. split; [rewrite Hv1; exact Hvis | exact Hst1].
Qed.

(** The search from an in-bounds start: it neither runs out of fuel nor,
    on a grid that answers every in-bounds read, raises an error; and the
    final state has [uniqueWords] equal to the replay of good pairs. *)
Lemma searchFrom_ok (startRow startCol : Z) :
  start = (startRow, startCol) ->
  inBounds this startRow startCol = true ->
  ~ In start occupied ->
  match searchFrom this occupied blacklist minLength maxLength startRow startCol with
  | Done st => stateOk this occupied blacklist minLength maxLength start st
  | Threw => ~ gridCovers this
  | NoFuel => False
  end.
Proof.
  intros Hs Hb Hfree. unfold searchFrom.
  destruct (gridAt (grid this) startRow startCol) as [ch |] eqn:Hg;
    [| intros Hcov; apply (Hcov _ _ Hb); exact Hg].
  cbv zeta. rewrite <- Hs.
  pose proof (dfs_ok (dfsFuel this) startRow startCol
                     (String (toUpperChar ch) EmptyString) [start]
                     (mkDfsState [] [start] [])) as H.
  assert (Hpre : pathPre this occupied maxLength start startRow startCol
                         (String (toUpperChar ch) EmptyString) [start]).
  { split; [| split; [| split; [| split]]].
    - split; [| split; [| split; [| split]]].
      + exists []. reflexivity.
      + exact I.
      + repeat constructor. intros [].
      + intros c [<- | []]. rewrite Hs. exact Hb.
      + intros c [<- | []]. exact Hfree.
    - simpl. exact Hs.
    - unfold spells. rewrite Hs. simpl. rewrite Hg. reflexivity.
    - reflexivity.
    - change (strLen (String (toUpperChar ch) EmptyString)) with 1. lia. }
  specialize (H Hpre eq_refl).
  assert (Hst0 : stateOk this occupied blacklist minLength maxLength start
                         (mkDfsState [] [start] [])).
  { split; [reflexivity | constructor]. }
  specialize (H Hst0).
  assert (Hn : (S (dfsFuel this) - dfsFuel this <= List.length [start])%nat).
  { simpl List.length. generalize (dfsFuel this). intros. lia. }
  specialize (H Hn).
  match goal with
  | |- match ?o with Done _ => _ | Threw => _ | NoFuel => _ end =>
      change (outcomeOk this occupied blacklist minLength maxLength start [start] o) in H;
      destruct o as [st | |]
  end; unfold outcomeOk in H.
  - apply H.
  - exact H.
  - exact H.
Qed.

End EnumeratorCorrect.

(** ** Upper case *)

Lemma toUpperChar_upper (c : ascii) : isUpperChar c = true -> toUpperChar c = c.
Proof.
  unfold isUpperChar, toUpperChar, isLowerChar. intros H.
  apply andb_true_iff in H. destruct H as [_ H]. apply Nat.leb_le in H.
  destruct (97 <=? nat_of_ascii c)%nat eqn:E; [| reflexivity].
  apply Nat.leb_le in E. lia.
Qed.

Lemma toUpperChar_idempotent (c : ascii) : toUpperChar (toUpperChar c) = toUpperChar c.
Proof.
  destruct c as [[] [] [] [] [] [] [] []]; reflexivity.
Qed.

Lemma gridAt_In (g : Grid) (r c : Z) (ch : ascii) :
  gridAt g r c = Some ch -> exists row, In row g /\ In ch row.
Proof.
  unfold gridAt. destruct ((r <? 0) || (c <? 0)); [discriminate |].
  destruct (nth_error g (Z.to_nat r)) as [row |] eqn:E; [| discriminate].
  intros H. exists row. split; eapply nth_error_In; eassumption.
Qed.

Lemma lettersAlong_upper (g : Grid) (p : Path) (s : string) :
  upperGrid g -> lettersAlong g p = Some s -> toUpperCase s = s.
Proof.
  intros Hg. revert s. induction p as [| [r c] p IH]; simpl; intros s H.
  - inversion H. reflexivity.
  - destruct (gridAt g r c) as [ch |] eqn:E; [| discriminate H].
    destruct (lettersAlong g p) as [s' |]; [| discriminate H].
    inversion H; subst. simpl. rewrite (IH s' eq_refl). f_equal.
    apply toUpperChar_upper.
    destruct (gridAt_In g r c ch E) as [row [Hrow Hch]].
    unfold upperGrid in Hg. rewrite Forall_forall in Hg.
    specialize (Hg row Hrow). rewrite Forall_forall in Hg. apply Hg. exact Hch.
Qed.

Lemma spells_upper (g : Grid) (p : Path) (w : string) :
  upperGrid g -> spells g p w -> lettersAlong g p = Some w.
Proof.
  unfold spells. intros Hg H.
  destruct (lettersAlong g p) as [s |] eqn:E; simpl in H; [| discriminate H].
  rewrite (lettersAlong_upper g p s Hg E) in H. exact H.
Qed.

(** ** The enumerator: results *)

Lemma findWordsDFS_Done (this : Solver) (occupied : list Cell) (blacklist : list string)
  (minLength maxLength startRow startCol : Z) (res : list Candidate) :
  findWordsDFS this occupied blacklist minLength maxLength startRow startCol = Done res ->
  res = []
  \/ exists st,
       searchFrom this occupied blacklist minLength maxLength startRow startCol = Done st
       /\ stateOk this occupied blacklist minLength maxLength (startRow, startCol) st
       /\ res = jsSort wordLengthDesc (uniqueWords st).
Proof.
  unfold findWordsDFS. intros H.
  destruct ((startRow <? 0) || (rows this <=? startRow) || (startCol <? 0)
            || (cols this <=? startCol)) eqn:Hb.
  { inversion H. left. reflexivity. }
  destruct (posHas occupied (startRow, startCol)) eqn:Hu.
  { inversion H. left. reflexivity. }
  right.
  assert (Hin : inBounds this startRow startCol = true).
  { unfold inBounds. rewrite Hb. reflexivity. }
  apply posHas_false in Hu.
  pose proof (searchFrom_ok this occupied blacklist minLength maxLength
                            (startRow, startCol) startRow startCol eq_refl Hin Hu) as Hs.
  destruct (searchFrom this occupied blacklist minLength maxLength startRow startCol)
    as [st | |]; simpl in H; try discriminate H.
  exists st. inversion H. auto.
Qed.

(** The enumeration never exhausts the depth bound of the model, and on a
    grid that answers every in-bounds read it returns a list. *)
Lemma findWordsDFS_total (this : Solver) (occupied : list Cell) (blacklist : list string)
  (minLength maxLength startRow startCol : Z) :
  findWordsDFS this occupied blacklist minLength maxLength startRow startCol <> NoFuel
  /\ (gridCovers this ->
      exists res,
        findWordsDFS this occupied blacklist minLength maxLength startRow startCol
        = Done res).
Proof.
  unfold findWordsDFS.
  destruct ((startRow <? 0) || (rows this <=? startRow) || (startCol <? 0)
            || (cols this <=? startCol)) eqn:Hb.
  { split; [discriminate | intros _; eexists; reflexivity]. }
  destruct (posHas occupied (startRow, startCol)) eqn:Hu.
  { split; [discriminate | intros _; eexists; reflexivity]. }
  assert (Hin : inBounds this startRow startCol = true).
  { unfold inBounds. rewrite Hb. reflexivity. }
  apply posHas_false in Hu.
  pose proof (searchFrom_ok this occupied blacklist minLength maxLength
                            (startRow, startCol) startRow startCol eq_refl Hin Hu) as Hs.
  destruct (searchFrom this occupied blacklist minLength maxLength startRow startCol)
    as [st | |]; simpl.
  - split; [discriminate | intros _; eexists; reflexivity].
  - split; [discriminate | intros Hc; contradiction].
  - contradiction.
Qed.

Lemma newSolver_gridCovers (g : Grid) (ws : list string) (this : Solver) :
  newSolver g ws = Done this -> rectangular g -> gridCovers this.
Proof.
  unfold newSolver. intros Hnew Hrect.
  destruct (buildPrefixTree ws) as [trie | |]; simpl in Hnew; try discriminate Hnew.
  destruct g as [| r0 g']; simpl in Hnew; [discriminate Hnew |].
  inversion Hnew; subst this; clear Hnew.
  intros r c Hb. apply inBounds_range in Hb. simpl in Hb.
  unfold gridRows in Hb. destruct Hb as [Hr Hc].
  unfold gridAt. simpl grid.
  assert (E : (r <? 0) || (c <? 0) = false).
  { apply orb_false_iff. split; apply Z.ltb_ge; lia. }
  rewrite E.
  destruct (nth_error (r0 :: g') (Z.to_nat r)) as [row |] eqn:Hrow.
  - apply nth_error_Some. apply nth_error_In in Hrow.
    rewrite (Hrect row Hrow). simpl. lia.
  - apply nth_error_None in Hrow. lia.
Qed.

(** On a rectangular grid the enumeration of a constructed solver returns. *)
Lemma findWordsDFS_returns (g : Grid) (ws : list string) (this : Solver)
  (occupied : list Cell) (blacklist : list string)
  (minLength maxLength startRow startCol : Z) :
  newSolver g ws = Done this -> rectangular g ->
  exists res,
    findWordsDFS this occupied blacklist minLength maxLength startRow startCol = Done res.
Proof.
  intros Hnew Hrect. apply findWordsDFS_total.
  apply (newSolver_gridCovers g ws this Hnew Hrect).
Qed.

Lemma stateOk_entries (this : Solver) (occupied : list Cell) (blacklist : list string)
  (minLength maxLength : Z) (start : Cell) (st : DfsState) (e : Candidate) :
  stateOk this occupied blacklist minLength maxLength start st ->
  In e (jsSort wordLengthDesc (uniqueWords st)) ->
  hitOk this occupied blacklist minLength maxLength start e
  /\ firstLongest (hits st) e.
Proof.
  intros [Hu Hh] He. apply jsSort_In in He. rewrite Hu in He.
  split.
  - rewrite Forall_forall in Hh. apply Hh. apply replayHits_subset. exact He.
  - destruct (replayHits_firstLongest (hits st)) as [Ha _]. apply Ha. exact He.
Qed.

(** Soundness of the enumerator, as far as the code has it: every returned
    pair is a simple 8-path from the start cell avoiding the occupied cells,
    whose word is in the dictionary, not blacklisted, at least [minLength]
    and at most [max maxLength 1] letters long, and is spelled by the path
    (through [toUpperCase]; by the stored letters themselves on an A-Z
    grid).  The bound [maxLength] itself holds when [maxLength >= 1], and
    for any [maxLength] when the dictionary has no one-letter word (as when
    [loadWordList] built it). *)
Theorem findWordsDFS_sound (this : Solver) (occupied : list Cell) (blacklist : list string)
  (minLength maxLength startRow startCol : Z) (res : list Candidate) (e : Candidate) :
  findWordsDFS this occupied blacklist minLength maxLength startRow startCol = Done res ->
  In e res ->
  candidateOk this occupied blacklist minLength (Z.max maxLength 1)
              (startRow, startCol) e
  /\ (upperGrid (grid this) -> lettersAlong (grid this) (snd e) = Some (fst e))
  /\ (1 <= maxLength \/ (forall w, In w (wordSet this) -> 1 < strLen w) ->
      candidateOk this occupied blacklist minLength maxLength (startRow, startCol) e).
Proof.
  intros H He. apply findWordsDFS_Done in H.
  destruct H as [-> | [st [_ [Hst ->]]]]; [destruct He |].
  destruct (stateOk_entries _ _ _ _ _ _ _ _ Hst He) as [[Hc _] _].
  split; [exact Hc | split].
  - intros Hg. apply spells_upper; [exact Hg |].
    destruct Hc as [_ [_ [_ [_ Hsp]]]]. exact Hsp.
  - intros Hmax. destruct Hc as [Hpath [Hlen [Hdict [Hbl Hsp]]]].
    split; [exact Hpath | split; [| split; [exact Hdict | split; assumption]]].
    destruct Hmax as [Hmax | Hwords]; [lia |].
    specialize (Hwords (fst e) Hdict). lia.
Qed.

Lemma findWordsDFS_sound_witness :
  candidateOk solverSEA [] [] 4 (Z.max 15 1) (0, 0)
              ("STARE"%string, [(0, 0); (1, 0); (1, 1); (1, 2); (0, 1)])
  /\ (upperGrid (grid solverSEA)
      -> lettersAlong (grid solverSEA)
                      (snd ("STARE"%string, [(0, 0); (1, 0); (1, 1); (1, 2); (0, 1)]))
         = Some (fst ("STARE"%string, [(0, 0); (1, 0); (1, 1); (1, 2); (0, 1)])))
  /\ (1 <= 15 \/ (forall w, In w (wordSet solverSEA) -> 1 < strLen w) ->
      candidateOk solverSEA [] [] 4 15 (0, 0)
                  ("STARE"%string, [(0, 0); (1, 0); (1, 1); (1, 2); (0, 1)])).
Proof.
  apply (findWordsDFS_sound solverSEA [] [] 4 15 0 0 resultSEA).
  - vm_compute. reflexivity.
  - right. left. reflexivity.
Defined.


Lemma filter_map_comm {A B : Type} (f : A -> B) (p : B -> bool) (l : list A) :
  filter p (map f l) = map f (filter (fun a => p (f a)) l).
Proof.
  induction l as [| a l IH]; simpl; [reflexivity |].
  destruct (p (f a)); simpl; rewrite IH; reflexivity.
Qed.

Lemma wordLengthDesc_key (a b : Candidate) :
  wordLengthDesc a b = (- strLen (fst a)) - (- strLen (fst b)).
Proof. unfold wordLengthDesc. lia. Qed.

Lemma filter_length_neg (n : Z) (l : list Candidate) :
  filter (fun a => strLen (fst a) =? n) l
  = filter (fun a => - strLen (fst a) =? - n) l.
Proof.
  apply filter_ext. intros a.
  destruct (strLen (fst a) =? n) eqn:E1, (- strLen (fst a) =? - n) eqn:E2;
    try reflexivity.
  - apply Z.eqb_eq in E1. apply Z.eqb_neq in E2. lia.
  - apply Z.eqb_neq in E1. apply Z.eqb_eq in E2. lia.
Qed.

(** C6: in a result each word appears once; its path is as long as any
    simple 8-path from the start cell that spells the word; and it is the
    first longest among the validated paths of the word in the order of the
    search, [uniqueWords] being overwritten only by a strictly longer path
    ([keepWord_cases]), under the neighbour order of [directions]. *)
Theorem findWordsDFS_one_longest_path_per_word
  (this : Solver) (occupied : list Cell) (blacklist : list string)
  (minLength maxLength startRow startCol : Z) (res : list Candidate) :
  findWordsDFS this occupied blacklist minLength maxLength startRow startCol = Done res ->
  NoDup (map fst res)
  /\ (forall e q,
        In e res ->
        simplePathFrom this occupied (startRow, startCol) q ->
        spells (grid this) q (fst e) ->
        pathLen q <= pathLen (snd e))
  /\ (res = []
      \/ exists st,
           searchFrom this occupied blacklist minLength maxLength startRow startCol
           = Done st
           /\ uniqueWords st = replayHits (hits st) []
           /\ forall e, In e res -> firstLongest (hits st) e)
  /\ directions = [ (-1, -1); (-1, 0); (-1, 1); (0, -1); (0, 1); (1, -1); (1, 0); (1, 1) ].
Proof.
  intros H. apply findWordsDFS_Done in H.
  destruct H as [-> | [st [Hs [Hst ->]]]].
  - split; [constructor | split; [intros e q [] | split; [left; reflexivity | reflexivity]]].
  - split; [| split; [| split; [| reflexivity]]].
    + apply (Permutation_NoDup (l := map fst (uniqueWords st))).
      * apply Permutation_map, Permutation_sym, jsSort_perm.
      * destruct Hst as [Hu _]. rewrite Hu. apply replayHits_first_occurrences.
    + intros e q He _ Hq.
      destruct (stateOk_entries _ _ _ _ _ _ _ _ Hst He) as [[_ Hlen] _].
      apply spells_length in Hq. lia.
    + right. exists st. split; [exact Hs | split; [apply Hst |]].
      intros e He. apply (stateOk_entries _ _ _ _ _ _ _ _ Hst He).
Qed.

Lemma findWordsDFS_one_longest_path_per_word_witness :
  NoDup (map fst resultSEA)
  /\ (forall e q,
        In e resultSEA ->
        simplePathFrom solverSEA [] (0, 0) q ->
        spells (grid solverSEA) q (fst e) ->
        pathLen q <= pathLen (snd e))
  /\ (resultSEA = []
      \/ exists st,
           searchFrom solverSEA [] [] 4 15 0 0 = Done st
           /\ uniqueWords st = replayHits (hits st) []
           /\ forall e, In e resultSEA -> firstLongest (hits st) e)
  /\ directions = [ (-1, -1); (-1, 0); (-1, 1); (0, -1); (0, 1); (1, -1); (1, 0); (1, 1) ].
Proof.
  apply (findWordsDFS_one_longest_path_per_word solverSEA [] [] 4 15 0 0).
  vm_compute. reflexivity.
Defined.

(** C7: a result is sorted by decreasing word length, and the words of any
    one length appear in the order in which the search first validated them. *)
Theorem findWordsDFS_sorted_by_length
  (this : Solver) (occupied : list Cell) (blacklist : list string)
  (minLength maxLength startRow startCol : Z) (res : list Candidate) :
  findWordsDFS this occupied blacklist minLength maxLength startRow startCol = Done res ->
  StronglySorted (fun a b => strLen (fst b) <= strLen (fst a)) res
  /\ (res = []
      \/ exists st,
           searchFrom this occupied blacklist minLength maxLength startRow startCol
           = Done st
           /\ forall n,
                filter (fun w => strLen w =? n) (map fst res)
                = filter (fun w => strLen w =? n)
                         (firstOccurrences (map fst (hits st)) [])).
Proof.
  intros H. apply findWordsDFS_Done in H.
  destruct H as [-> | [st [Hs [Hst ->]]]].
  - split; [constructor | left; reflexivity].
  - split.
    + pose proof (jsSort_sorted wordLengthDesc (fun a => - strLen (fst a))
                                wordLengthDesc_key (uniqueWords st)) as Hsorted.
      eapply StronglySorted_ind with (P := fun l =>
        StronglySorted (fun a b => strLen (fst b) <= strLen (fst a)) l);
        [constructor | | exact Hsorted].
      intros a l _ IH Hall. constructor; [exact IH |].
      rewrite Forall_forall in Hall |- *. intros x Hx. specialize (Hall x Hx). lia.
    + right. exists st. split; [exact Hs |]. intros n.
      destruct Hst as [Hu _].
      destruct (replayHits_first_occurrences (hits st)) as [Hkeys _].
      rewrite <- Hkeys, <- Hu, !filter_map_comm. f_equal.
      rewrite !(filter_length_neg n).
      apply (jsSort_stable wordLengthDesc (fun a => - strLen (fst a))
                           wordLengthDesc_key (- n)).
Qed.

Lemma findWordsDFS_sorted_by_length_witness :
  StronglySorted (fun a b => strLen (fst b) <= strLen (fst a)) resultSEA
  /\ (resultSEA = []
      \/ exists st,
           searchFrom solverSEA [] [] 4 15 0 0 = Done st
           /\ forall n,
                filter (fun w => strLen w =? n) (map fst resultSEA)
                = filter (fun w => strLen w =? n)
                         (firstOccurrences (map fst (hits st)) [])).
Proof.
  apply (findWordsDFS_sorted_by_length solverSEA [] [] 4 15 0 0).
  vm_compute. reflexivity.
Defined.

(** ** The enumerator reads the grid through [toUpperCase] *)

Lemma gridAt_uppercase (g : Grid) (r c : Z) :
  gridAt (uppercaseGrid g) r c = option_map toUpperChar (gridAt g r c).
Proof.
  unfold gridAt, uppercaseGrid. destruct ((r <? 0) || (c <? 0)); [reflexivity |].
  rewrite nth_error_map. destruct (nth_error g (Z.to_nat r)) as [row |]; simpl;
    [apply nth_error_map | reflexivity].
Qed.

Section UppercaseGrid.
Variable this : Solver.
Variable occupied : list Cell.
Variable blacklist : list string.
Variables minLength maxLength : Z.

Lemma tryDirections_uppercase
  (rec1 rec2 : Z -> Z -> string -> Path -> DfsState -> Outcome DfsState)
  (ds : list (Z * Z)) :
  (forall r c w p st, rec1 r c w p st = rec2 r c w p st) ->
  forall row col w p st,
    tryDirections (uppercased this) occupied rec1 ds row col w p st
    = tryDirections this occupied rec2 ds row col w p st.
Proof.
  intros Hrec. induction ds as [| d ds IH]; intros row col w p st; [reflexivity |].
  rewrite !tryDirections_cons. cbv zeta.
  change (inBounds (uppercased this) (row + fst d) (col + snd d))
    with (inBounds this (row + fst d) (col + snd d)).
  destruct (negb (inBounds this (row + fst d) (col + snd d))); [apply IH |].
  destruct (posHas (visited st) (row + fst d, col + snd d)); [apply IH |].
  destruct (posHas occupied (row + fst d, col + snd d)); [apply IH |].
  change (grid (uppercased this)) with (uppercaseGrid (grid this)).
  rewrite gridAt_uppercase.
  destruct (gridAt (grid this) (row + fst d) (col + snd d)) as [ch |]; simpl;
    [| reflexivity].
  rewrite toUpperChar_idempotent, Hrec.
  match goal with
  | |- bindO ?o _ = _ => destruct o as [st2 | |]; simpl; [apply IH | reflexivity | reflexivity]
  end.
Qed.

Lemma dfs_uppercase (fuel : nat) (row col : Z) (w : string) (p : Path) (st : DfsState) :
  dfs (uppercased this) occupied blacklist minLength maxLength fuel row col w p st
  = dfs this occupied blacklist minLength maxLength fuel row col w p st.
Proof.
  revert row col w p st. induction fuel as [| fuel IH]; intros row col w p st;
    [reflexivity |].
  rewrite !dfs_succ. cbv zeta.
  change (checkWord (uppercased this) blacklist minLength w p st)
    with (checkWord this blacklist minLength w p st).
  change (hasPrefix (uppercased this) w) with (hasPrefix this w).
  destruct (maxLength <=? strLen w); [reflexivity |].
  destruct (negb (hasPrefix this w)); [reflexivity |].
  apply tryDirections_uppercase. exact IH.
Qed.

Lemma searchFrom_uppercase (startRow startCol : Z) :
  searchFrom (uppercased this) occupied blacklist minLength maxLength startRow startCol
  = searchFrom this occupied blacklist minLength maxLength startRow startCol.
Proof.
  unfold searchFrom.
  change (grid (uppercased this)) with (uppercaseGrid (grid this)).
  rewrite gridAt_uppercase.
  destruct (gridAt (grid this) startRow startCol) as [ch |]; simpl; [| reflexivity].
  rewrite toUpperChar_idempotent.
  change (dfsFuel (uppercased this)) with (dfsFuel this).
  apply dfs_uppercase.
Qed.

Lemma findWordsDFS_withGrid_uppercase (startRow startCol : Z) :
  findWordsDFS (uppercased this) occupied blacklist minLength maxLength startRow startCol
  = findWordsDFS this occupied blacklist minLength maxLength startRow startCol.
Proof.
  unfold findWordsDFS.
  change (rows (uppercased this)) with (rows this). change (cols (uppercased this)) with (cols this).
  rewrite searchFrom_uppercase. reflexivity.
Qed.

End UppercaseGrid.

Lemma newSolver_uppercase (g : Grid) (ws : list string) :
  newSolver (uppercaseGrid g) ws = mapO uppercased (newSolver g ws).
Proof.
  unfold newSolver, mapO.
  destruct (buildPrefixTree ws) as [trie | |]; simpl; try reflexivity.
  destruct g as [| r g']; simpl; [reflexivity |].
  unfold uppercased, withGrid, gridRows, uppercaseGrid. simpl.
  rewrite !length_map. reflexivity.
Qed.

(** C10: the enumeration on a grid equals the enumeration on the grid
    upper-cased cell by cell, for a solver built by the constructor and for
    any solver whose grid is replaced. *)
Theorem findWordsDFS_uppercase_invariant
  (g : Grid) (ws : list string) (this : Solver)
  (occupied : list Cell) (blacklist : list string)
  (minLength maxLength startRow startCol : Z) :
  enumerate (uppercaseGrid g) ws occupied blacklist minLength maxLength startRow startCol
  = enumerate g ws occupied blacklist minLength maxLength startRow startCol
  /\ findWordsDFS (uppercased this)
                  occupied blacklist minLength maxLength startRow startCol
     = findWordsDFS this occupied blacklist minLength maxLength startRow startCol.
Proof.
  split; [| apply findWordsDFS_withGrid_uppercase].
  unfold enumerate. rewrite newSolver_uppercase. unfold mapO.
  destruct (newSolver g ws) as [s | |]; simpl; [| reflexivity | reflexivity].
  apply findWordsDFS_withGrid_uppercase.
Qed.

(** ** The solver: marking and releasing cells *)

Lemma filter_all_true {A : Type} (f : A -> bool) (l : list A) :
  (forall x, In x l -> f x = true) -> filter f l = l.
Proof.
  induction l as [| a l IH]; intros H; simpl; [reflexivity |].
  rewrite (H a (or_introl eq_refl)). f_equal. apply IH.
  intros x Hx. apply H. right. exact Hx.
Qed.

Lemma filter_all_false {A : Type} (f : A -> bool) (l : list A) :
  (forall x, In x l -> f x = false) -> filter f l = [].
Proof.
  induction l as [| a l IH]; intros H; simpl; [reflexivity |].
  rewrite (H a (or_introl eq_refl)). apply IH.
  intros x Hx. apply H. right. exact Hx.
Qed.

Lemma filter_twice {A : Type} (f g : A -> bool) (l : list A) :
  filter f (filter g l) = filter (fun x => g x && f x) l.
Proof.
  induction l as [| a l IH]; simpl; [reflexivity |].
  destruct (g a); simpl; [destruct (f a); rewrite IH; reflexivity | exact IH].
Qed.

Lemma cellEqb_sym (a b : Cell) : cellEqb a b = cellEqb b a.
Proof.
  unfold cellEqb. rewrite (Z.eqb_sym (fst a)), (Z.eqb_sym (snd a)). reflexivity.
Qed.

Lemma deleteCoords_filter (cs : Path) (used : list Cell) :
  deleteCoords used cs = filter (fun y => negb (posHas cs y)) used.
Proof.
  revert used. induction cs as [| c cs IH]; intros used.
  - simpl. symmetry. apply filter_all_true. intros x _. reflexivity.
  - change (deleteCoords used (c :: cs)) with (deleteCoords (posDelete used c) cs).
    rewrite IH. unfold posDelete, setDelete. rewrite filter_twice.
    apply filter_ext. intros y. unfold posHas, setHas. simpl.
    rewrite (cellEqb_sym c y). rewrite negb_orb. reflexivity.
Qed.

Lemma addCoords_extends (cs : Path) (used : list Cell) :
  exists extra, addCoords used cs = used ++ extra /\ (forall x, In x extra -> In x cs).
Proof.
  revert used. induction cs as [| c cs IH]; intros used.
  - exists []. simpl. rewrite app_nil_r. split; [reflexivity | intros x []].
  - change (addCoords used (c :: cs)) with (addCoords (posAdd used c) cs).
    destruct (IH (posAdd used c)) as [extra [E Hin]]. rewrite E.
    unfold posAdd, setAdd. fold (posHas used c). destruct (posHas used c).
    + exists extra. split; [reflexivity |]. intros x Hx. right. apply Hin. exact Hx.
    + exists (c :: extra). split; [rewrite <- app_assoc; reflexivity |].
      intros x [<- | Hx]; [left; reflexivity | right; apply Hin; exact Hx].
Qed.

Lemma addCoords_In (cs : Path) (used : list Cell) (x : Cell) :
  In x (addCoords used cs) <-> In x used \/ In x cs.
Proof.
  revert used. induction cs as [| c cs IH]; intros used.
  - simpl. tauto.
  - change (addCoords used (c :: cs)) with (addCoords (posAdd used c) cs).
    rewrite IH, posAdd_In. simpl. split.
    + intros [[H | ->] | H]; auto.
    + intros [H | [<- | H]]; auto.
Qed.

(** Releasing the cells of a word that was placeable gives back the set of
    marked cells as it was, in the same order. *)
Lemma deleteCoords_addCoords (cs : Path) (used : list Cell) :
  forallb (fun c => negb (posHas used c)) cs = true ->
  deleteCoords (addCoords used cs) cs = used.
Proof.
  intros Hfree. rewrite forallb_forall in Hfree.
  destruct (addCoords_extends cs used) as [extra [E Hin]].
  rewrite E, deleteCoords_filter, filter_app.
  rewrite (filter_all_true _ used), (filter_all_false _ extra).
  - apply app_nil_r.
  - intros x Hx. apply negb_false_iff. apply posHas_In. apply Hin. exact Hx.
  - intros x Hx. apply negb_true_iff. apply posHas_false. intros Hc.
    specialize (Hfree x Hc). apply negb_true_iff in Hfree.
    apply posHas_false in Hfree. exact (Hfree Hx).
Qed.

Lemma usedOf_snoc (sol : list Candidate) (e : Candidate) :
  usedOf (sol ++ [e]) = addCoords (usedOf sol) (snd e).
Proof. unfold usedOf. rewrite fold_left_app. reflexivity. Qed.

Lemma usedOf_In (sol : list Candidate) (x : Cell) :
  In x (usedOf sol) <-> exists e, In e sol /\ In x (snd e).
Proof.
  induction sol as [| e sol IH] using rev_ind.
  - simpl. split; [intros [] | intros [e [[] _]]].
  - rewrite usedOf_snoc, addCoords_In, IH. split.
    + intros [[e' [He Hx]] | Hx].
      * exists e'. split; [apply in_app_iff; left; exact He | exact Hx].
      * exists e. split; [apply in_app_iff; right; left; reflexivity | exact Hx].
    + intros [e' [He Hx]]. apply in_app_iff in He. destruct He as [He | [<- | []]].
      * left. exists e'. split; assumption.
      * right. exact Hx.
Qed.

Lemma ForallOrdPairs_snoc {A : Type} (R : A -> A -> Prop) (l : list A) (x : A) :
  ForallOrdPairs R l -> Forall (fun a => R a x) l -> ForallOrdPairs R (l ++ [x]).
Proof.
  induction 1 as [| a l Ha Hl IH]; intros Hx; simpl.
  - constructor; [constructor | constructor].
  - inversion Hx; subst. constructor.
    + apply Forall_app. split; [exact Ha | constructor; [assumption | constructor]].
    + apply IH. assumption.
Qed.

(** ** The solver: the recursion *)

Section SolverInvariants.
Variable this : Solver.
Variable onProgress : bool.
Variable shouldCancel : Z -> bool.
Variable maxAttempts : Z.

Lemma solveRecursive_unfold (ws : list Prioritized) (st : SolveState) :
  solveRecursive this onProgress shouldCancel maxAttempts ws st
  = let st1 := tick st in
    let isPoll := attempts st1 mod 1000 =? 0 in
    let st2 := if isPoll then pollUpdate onProgress st1 else st1 in
    if isPoll && shouldCancel (attempts st2) then (false, st2)
    else if setSize (usedPositions st2) =? totalPositions this then (true, st2)
    else if maxAttempts <? attempts st2 then (false, st2)
    else tryWords this onProgress shouldCancel maxAttempts ws st2.
Proof. destruct ws; reflexivity. Qed.

Lemma tryWords_cons (w : Prioritized) (rest : list Prioritized) (st : SolveState) :
  tryWords this onProgress shouldCancel maxAttempts (w :: rest) st
  = if canPlaceWord st (p_coords w) then
      let (solved, st') :=
        solveRecursive this onProgress shouldCancel maxAttempts rest
                       (placeWord st (p_word w) (p_coords w)) in
      if solved then (true, st')
      else tryWords this onProgress shouldCancel maxAttempts rest (removeWord st')
    else tryWords this onProgress shouldCancel maxAttempts rest st.
Proof. reflexivity. Qed.

(** After a failed attempt on a word, [removeWord] finds that word on top
    of the stack and gives the board back as it was before [placeWord]. *)
Lemma removeWord_restores (st st' : SolveState) (w : string) (cs : Path) :
  canPlaceWord st cs = true ->
  sameBoard (placeWord st w cs) st' ->
  sameBoard st (removeWord st').
Proof.
  intros Hcan [Hsol Hused]. simpl in Hsol, Hused.
  unfold removeWord. rewrite Hsol, rev_app_distr. simpl.
  split; simpl.
  - apply rev_involutive.
  - rewrite Hused. apply deleteCoords_addCoords. exact Hcan.
Qed.

Lemma sameBoard_trans (a b c : SolveState) :
  sameBoard a b -> sameBoard b c -> sameBoard a c.
Proof.
  intros [H1 H2] [H3 H4]. split; congruence.
Qed.

(** An invariant kept by the four state changes of the search is kept by
    the search; and a search that fails leaves the board as it found it. *)
Section Invariant.
Variable P : SolveState -> Prop.
Hypothesis P_tick : forall st, P st -> P (tick st).
Hypothesis P_poll : forall st, P st -> P (pollUpdate onProgress st).
Hypothesis P_place :
  forall st w cs, P st -> canPlaceWord st cs = true -> P (placeWord st w cs).
Hypothesis P_remove :
  forall st st' w cs,
    P st -> canPlaceWord st cs = true -> P st' ->
    sameBoard (placeWord st w cs) st' -> P (removeWord st').

Lemma prologue_keeps (ws : list Prioritized) :
  searchKeeps (totalPositions this) P
              (tryWords this onProgress shouldCancel maxAttempts ws) ->
  searchKeeps (totalPositions this) P
              (solveRecursive this onProgress shouldCancel maxAttempts ws).
Proof.
  intros Htry st Hst. rewrite solveRecursive_unfold. cbv zeta.
  set (st1 := tick st).
  set (st2 := if attempts st1 mod 1000 =? 0 then pollUpdate onProgress st1 else st1).
  assert (H2 : P st2 /\ sameBoard st st2).
  { unfold st2. destruct (attempts st1 mod 1000 =? 0).
    - split; [apply P_poll, P_tick, Hst | split; reflexivity].
    - split; [apply P_tick, Hst | split; reflexivity]. }
  destruct H2 as [HP2 HB2].
  destruct ((attempts st1 mod 1000 =? 0) && shouldCancel (attempts st2));
    [simpl; split; [exact HP2 | split; [intros _; exact HB2 | discriminate]] |].
  destruct (setSize (usedPositions st2) =? totalPositions this) eqn:Hfull;
    [simpl; split; [exact HP2 | split; [discriminate |]];
     intros _; apply Z.eqb_eq; exact Hfull |].
  destruct (maxAttempts <? attempts st2);
    [simpl; split; [exact HP2 | split; [intros _; exact HB2 | discriminate]] |].
  destruct (Htry st2 HP2) as [Ha [Hb Hc]]. split; [exact Ha | split; [| exact Hc]].
  intros Hf. eapply sameBoard_trans; [exact HB2 | apply Hb, Hf].
Qed.

Lemma solveRecursive_keeps (ws : list Prioritized) :
  searchKeeps (totalPositions this) P
              (solveRecursive this onProgress shouldCancel maxAttempts ws)
  /\ searchKeeps (totalPositions this) P
                 (tryWords this onProgress shouldCancel maxAttempts ws).
Proof.
  induction ws as [| w rest [IHsolve IHtry]].
  - assert (Htry : searchKeeps (totalPositions this) P
                               (tryWords this onProgress shouldCancel maxAttempts [])).
    { intros st Hst. simpl.
      split; [exact Hst | split; [intros _; split; reflexivity | discriminate]]. }
    split; [apply prologue_keeps |]; exact Htry.
  - assert (Htry : searchKeeps (totalPositions this) P
                               (tryWords this onProgress shouldCancel maxAttempts
                                         (w :: rest))).
    { intros st Hst. rewrite tryWords_cons.
      destruct (canPlaceWord st (p_coords w)) eqn:Hcan; [| apply IHtry; exact Hst].
      destruct (IHsolve (placeWord st (p_word w) (p_coords w))
                        (P_place st (p_word w) (p_coords w) Hst Hcan)) as [Ha [Hb Hc]].
      destruct (solveRecursive this onProgress shouldCancel maxAttempts rest
                               (placeWord st (p_word w) (p_coords w)))
        as [solved st'] eqn:E.
      simpl in Ha, Hb, Hc. destruct solved.
      - simpl. split; [exact Ha | split; [discriminate | exact Hc]].
      - specialize (Hb eq_refl).
        pose proof (removeWord_restores st st' (p_word w) (p_coords w) Hcan Hb) as Hr.
        pose proof (P_remove st st' (p_word w) (p_coords w) Hst Hcan Ha Hb) as Hp.
        destruct (IHtry (removeWord st') Hp) as [Hd [He Hf]].
        split; [exact Hd | split; [| exact Hf]].
        intros Hfail. eapply sameBoard_trans; [exact Hr | apply He, Hfail]. }
    split; [apply prologue_keeps |]; exact Htry.
Qed.

End Invariant.

End SolverInvariants.

(** ** The solver: placements stay disjoint and keep the existing words *)

Section SolverResults.
Variable this : Solver.
Variable onProgress : bool.
Variable shouldCancel : Z -> bool.
Variable maxAttempts : Z.
Variable existingWords : list Candidate.

Lemma boardOk_initial :
  pairwiseDisjoint existingWords -> boardOk existingWords (initialState existingWords).
Proof.
  intros Hd. split; [| split].
  - split; [exists []; symmetry; apply app_nil_r | exact Hd].
  - reflexivity.
  - left. reflexivity.
Qed.

Lemma boardOk_place (st : SolveState) (w : string) (cs : Path) :
  boardOk existingWords st -> canPlaceWord st cs = true ->
  boardOk existingWords (placeWord st w cs).
Proof.
  intros [[[rest Hpre] Hdis] [Hused Hbest]] Hcan. split; [| split]; simpl.
  - split.
    + exists (rest ++ [(w, cs)]). rewrite Hpre, <- app_assoc. reflexivity.
    + apply ForallOrdPairs_snoc; [exact Hdis |].
      apply Forall_forall. intros e He c Hc Hcs.
      unfold canPlaceWord in Hcan. rewrite forallb_forall in Hcan.
      specialize (Hcan c Hcs). apply negb_true_iff in Hcan.
      apply posHas_false in Hcan. apply Hcan. rewrite Hused.
      apply usedOf_In. exists e. split; assumption.
  - rewrite usedOf_snoc, Hused. reflexivity.
  - exact Hbest.
Qed.

Lemma boardOk_keeps (ws : list Prioritized) :
  searchKeeps (totalPositions this) (boardOk existingWords)
              (solveRecursive this onProgress shouldCancel maxAttempts ws).
Proof.
  apply solveRecursive_keeps.
  - intros st H. exact H.
  - intros st [Hcur [Hused Hbest]]. unfold pollUpdate. split; [| split]; simpl.
    + exact Hcur.
    + exact Hused.
    + destruct (bestCoverage st <? setSize (usedPositions st)); [right; exact Hcur | exact Hbest].
  - apply boardOk_place.
  - intros st st' w cs Hst Hcan Hst' Hsame.
    destruct (removeWord_restores st st' w cs Hcan Hsame) as [Hsol Hused].
    destruct Hst as [Hcur [Hu _]]. destruct Hst' as [_ [_ Hbest']].
    split; [| split].
    + rewrite Hsol. exact Hcur.
    + rewrite Hused, Hsol. exact Hu.
    + unfold removeWord. destruct (rev (currentSolution st')) as [| [w' cs'] below];
        exact Hbest'.
Qed.

(** C3: when the existing words are pairwise cell-disjoint, every result of
    [solvePuzzle] is pairwise cell-disjoint and begins with the existing
    words, unchanged and in place. *)
Theorem solvePuzzle_disjoint_and_prefix (allWords : list PoolWord) (R : list Candidate) :
  pairwiseDisjoint existingWords ->
  solvePuzzle this onProgress shouldCancel maxAttempts allWords existingWords = Some R ->
  pairwiseDisjoint R /\ isPrefixOf existingWords R.
Proof.
  intros Hd. unfold solvePuzzle, runSolver.
  destruct (boardOk_keeps (prioritizedWords this allWords) (initialState existingWords)
                          (boardOk_initial Hd)) as [[Hcur [_ Hbest]] _].
  destruct (solveRecursive this onProgress shouldCancel maxAttempts
                           (prioritizedWords this allWords) (initialState existingWords))
    as [complete st]. simpl in Hcur, Hbest.
  destruct complete.
  - intros H. inversion H; subst. destruct Hcur. split; assumption.
  - destruct (0 <? Z.of_nat (List.length (bestSolution st))) eqn:Hlen.
    + intros H. inversion H; subst.
      destruct Hbest as [E | [Hp Hdis]]; [| split; assumption].
      rewrite E in Hlen. discriminate Hlen.
    + destruct (0 <? Z.of_nat (List.length existingWords)); [| discriminate].
      intros H. inversion H; subst. split; [exact Hd |].
      exists []. symmetry. apply app_nil_r.
Qed.

(** ** The solver: the histories of the polls *)

Lemma StronglySorted_snoc (l : list Z) (b : Z) :
  StronglySorted Z.le l -> Forall (fun x => x <= b) l -> StronglySorted Z.le (l ++ [b]).
Proof.
  induction 1 as [| a l Hl IH Ha]; intros Hb; simpl.
  - constructor; [constructor | constructor].
  - inversion Hb; subst. constructor; [apply IH; assumption |].
    apply Forall_app. split; [exact Ha | constructor; [assumption | constructor]].
Qed.

Lemma pollsOk_keeps (ws : list Prioritized) :
  searchKeeps (totalPositions this) (pollsOk onProgress)
              (solveRecursive this onProgress shouldCancel maxAttempts ws).
Proof.
  apply solveRecursive_keeps.
  - intros st H. exact H.
  - intros st [Hs [Hb Hc]]. unfold pollUpdate, pollsOk. simpl.
    set (coverage := setSize (usedPositions st)).
    assert (Hbest : bestCoverage st <= (if bestCoverage st <? coverage then coverage
                                        else bestCoverage st)
                    /\ coverage <= (if bestCoverage st <? coverage then coverage
                                    else bestCoverage st)).
    { destruct (bestCoverage st <? coverage) eqn:E;
        [apply Z.ltb_lt in E | apply Z.ltb_ge in E]; lia. }
    destruct Hbest as [Hb1 Hb2].
    split; [| split].
    + apply StronglySorted_snoc; [exact Hs |].
      rewrite Forall_forall in Hb |- *. intros x Hx. specialize (Hb x Hx). lia.
    + apply Forall_app. split.
      * rewrite Forall_forall in Hb |- *. intros x Hx. specialize (Hb x Hx). lia.
      * constructor; [lia | constructor].
    + destruct onProgress.
      * apply Forall2_app; [exact Hc |]. constructor; [exact Hb2 | constructor].
      * exact Hc.
  - intros st w cs H _. exact H.
  - intros st st' w cs _ _ H _. unfold removeWord.
    destruct (rev (currentSolution st')) as [| [w' cs'] below]; exact H.
Qed.

(** C4, as the code has it: the best coverage held by the solver never
    decreases from one poll to the next, and the coverage handed to the
    progress callback at a poll, which is that of the placement of the
    moment, is at most the best coverage at that poll. *)
Theorem bestCoverage_at_polls_monotone (allWords : list PoolWord) :
  let st := snd (runSolver this onProgress shouldCancel maxAttempts allWords
                           existingWords) in
  StronglySorted Z.le (bestAtPolls st)
  /\ Forall2 (fun call best => pc_coverage call <= best)
             (progressCalls st)
             (if onProgress then bestAtPolls st else []).
Proof.
  intros st. unfold st, runSolver.
  assert (H0 : pollsOk onProgress (initialState existingWords)).
  { split; [constructor | split; [constructor |]].
    simpl. destruct onProgress; constructor. }
  destruct (pollsOk_keeps (prioritizedWords this allWords) _ H0) as [[Hs [_ Hc]] _].
  split; assumption.
Qed.

(** ** The solver: what is returned *)

Lemma coverageOf_nonneg (sol : list Candidate) : 0 <= coverageOf sol.
Proof. unfold coverageOf, setSize. lia. Qed.

Lemma bestOk_keeps (ws : list Prioritized) :
  searchKeeps (totalPositions this) (bestOk (coverageOf existingWords))
              (solveRecursive this onProgress shouldCancel maxAttempts ws).
Proof.
  pose proof (coverageOf_nonneg existingWords) as Hc0.
  apply solveRecursive_keeps.
  - intros st H. exact H.
  - intros st [Hu [Hc [Hall Hbest]]]. unfold pollUpdate, bestOk. simpl.
    assert (Hcov : coverageOf (currentSolution st) = setSize (usedPositions st)).
    { rewrite Hu. reflexivity. }
    destruct (bestCoverage st <? setSize (usedPositions st)) eqn:E.
    + apply Z.ltb_lt in E.
      split; [exact Hu | split; [lia | split]].
      * apply Forall_app. split; [| constructor; [lia | constructor]].
        rewrite Forall_forall in Hall |- *. intros c Hin. specialize (Hall c Hin). lia.
      * right. split; [| split; [exact Hcov | split; [lia |]]].
        -- intros Hnil. rewrite Hnil in Hcov. change (coverageOf []) with 0 in Hcov. lia.
        -- apply in_app_iff. right. left. reflexivity.
    + apply Z.ltb_ge in E.
      split; [exact Hu | split; [exact Hc | split]].
      * apply Forall_app. split; [exact Hall | constructor; [exact E | constructor]].
      * destruct Hbest as [Hb | [Hn [Hb1 [Hb2 Hb3]]]]; [left; exact Hb | right].
        split; [exact Hn | split; [exact Hb1 | split; [exact Hb2 |]]].
        apply in_app_iff. left. exact Hb3.
  - intros st w cs [Hu Hrest] _. split; [| exact Hrest].
    simpl. rewrite usedOf_snoc, Hu. reflexivity.
  - intros st st' w cs [Hu _] Hcan [_ Hrest'] Hsame.
    destruct (removeWord_restores st st' w cs Hcan Hsame) as [Hsol Hused].
    split; [rewrite Hused, Hsol; exact Hu |].
    unfold removeWord. destruct (rev (currentSolution st')) as [| [w' cs'] below];
      exact Hrest'.
Qed.

Lemma bestOk_initial :
  bestOk (coverageOf existingWords) (initialState existingWords).
Proof.
  split; [reflexivity | split; [apply Z.le_refl | split; [constructor |]]].
  left. split; reflexivity.
Qed.

(** The result of [solvePuzzle], as the code computes it: a complete
    placement found by the recursion is returned; otherwise, if at some poll
    (taken every 1000 attempts) the placement of the moment covered more
    cells than the existing words, the placement recorded at the polls is
    returned and its coverage is the greatest seen at a poll; otherwise the
    existing words are returned when there are some, else [null]. *)
Theorem solvePuzzle_returns_sampled_best (allWords : list PoolWord) :
  let run := runSolver this onProgress shouldCancel maxAttempts allWords existingWords in
  let st := snd run in
  let result :=
    solvePuzzle this onProgress shouldCancel maxAttempts allWords existingWords in
  let committed := coverageOf existingWords in
  (fst run = true ->
     result = Some (currentSolution st)
     /\ coverageOf (currentSolution st) = totalPositions this)
  /\ (fst run = false ->
      Exists (fun c => committed < c) (coverageAtPolls st) ->
      result = Some (bestSolution st)
      /\ In (coverageOf (bestSolution st)) (coverageAtPolls st)
      /\ Forall (fun c => c <= coverageOf (bestSolution st)) (coverageAtPolls st))
  /\ (fst run = false ->
      Forall (fun c => c <= committed) (coverageAtPolls st) ->
      result = match existingWords with [] => None | _ :: _ => Some existingWords end).
Proof.
  cbv zeta. unfold solvePuzzle, runSolver.
  destruct (bestOk_keeps (prioritizedWords this allWords) (initialState existingWords)
                         bestOk_initial) as [[Hu [Hc [Hall Hbest]]] [_ Hfull]].
  destruct (solveRecursive this onProgress shouldCancel maxAttempts
                           (prioritizedWords this allWords) (initialState existingWords))
    as [complete st]. simpl in *.
  split; [| split].
  - intros ->. split; [reflexivity |].
    unfold coverageOf. fold (usedOf (currentSolution st)). rewrite <- Hu.
    apply Hfull. reflexivity.
  - intros -> Hex.
    destruct Hbest as [[_ Hb] | [Hn [Hb1 [Hb2 Hb3]]]].
    + exfalso. apply Exists_exists in Hex. destruct Hex as [c [Hin Hlt]].
      rewrite Forall_forall in Hall. specialize (Hall c Hin). lia.
    + assert (Hlen : (0 <? Z.of_nat (List.length (bestSolution st))) = true).
      { destruct (bestSolution st); [contradiction | reflexivity]. }
      rewrite Hlen, Hb1. split; [reflexivity | split; assumption].
  - intros -> Hno.
    destruct Hbest as [[Hb _] | [_ [_ [Hb2 Hb3]]]].
    + rewrite Hb. simpl. destruct existingWords; reflexivity.
    + exfalso. rewrite Forall_forall in Hno. specialize (Hno _ Hb3). lia.
Qed.

End SolverResults.

Lemma solvePuzzle_disjoint_and_prefix_witness :
  pairwiseDisjoint tilingCancel
  /\ isPrefixOf [("AA"%string, [(0, 1); (0, 2)])] tilingCancel.
Proof.
  apply (solvePuzzle_disjoint_and_prefix boardCancel true neverCancel 100000
           [("AA"%string, [(0, 1); (0, 2)])] poolCancel tilingCancel).
  - constructor; [constructor | constructor].
  - vm_compute. reflexivity.
Defined.

(** ** The solver on the sample boards *)

(** C4, counterexample: on the 2 x 10 board the callback is handed 25 per
    cent at attempt 1000 and 15 per cent at attempt 2000. *)
Lemma progress_reports_decrease :
  progressCalls (snd (runSolver boardProgress true neverCancel 100000 poolProgress []))
  = [mkProgressCall 1000 5 5; mkProgressCall 2000 3 3]
  /\ ~ reportsNonDecreasing (totalPositions boardProgress)
         (progressCalls
            (snd (runSolver boardProgress true neverCancel 100000 poolProgress []))).
Proof.
  assert (E : progressCalls
                (snd (runSolver boardProgress true neverCancel 100000 poolProgress []))
              = [mkProgressCall 1000 5 5; mkProgressCall 2000 3 3])
    by (vm_compute; reflexivity).
  split; [exact E |]. rewrite E. intros H.
  specialize (H [] (mkProgressCall 1000 5 5) (mkProgressCall 2000 3 3) [] eq_refl).
  vm_compute in H. apply H. reflexivity.
Qed.

(** C1 on the code: the best placement is recorded only inside the block
    run every 1000 attempts, so a better placement reached between two polls
    is lost.  On the 2 x 3 grid whose one word covers 4 of the 6 cells the
    search places that word, ends after 2 attempts and returns [null], where
    the claim has the placement of that word returned; on the 2 x 10 board
    the search reaches a coverage of 11 and returns the placement of
    coverage 5 recorded at attempt 1000. *)
Lemma best_partial_not_returned :
  collectAllWords solverPartial [] [] = Done [mkPoolWord "CATS" pathCATS 4]
  /\ solvePuzzle solverPartial true neverCancel 100000 [mkPoolWord "CATS" pathCATS 4] []
     = None
  /\ peakCoverage
       (snd (runSolver solverPartial true neverCancel 100000
                       [mkPoolWord "CATS" pathCATS 4] [])) = 4
  /\ ~ returnsBestEverReached solverPartial true neverCancel 100000
         [mkPoolWord "CATS" pathCATS 4] []
  /\ solvePuzzle boardProgress true neverCancel 100000 poolProgress [] = Some bestProgress
  /\ coverageOf bestProgress = 5
  /\ peakCoverage (snd (runSolver boardProgress true neverCancel 100000 poolProgress []))
     = 11
  /\ ~ returnsBestEverReached boardProgress true neverCancel 100000 poolProgress [].
Proof.
  split; [vm_compute; reflexivity |].
  split; [vm_compute; reflexivity |].
  split; [vm_compute; reflexivity |].
  split.
  { intros H. unfold returnsBestEverReached in H.
    destruct H as [R [HR _]]; [vm_compute; reflexivity | vm_compute; reflexivity |].
    vm_compute in HR. discriminate HR. }
  split; [vm_compute; reflexivity |].
  split; [vm_compute; reflexivity |].
  split; [vm_compute; reflexivity |].
  intros H. unfold returnsBestEverReached in H.
  destruct H as [R [HR Hcov]]; [vm_compute; reflexivity | vm_compute; reflexivity |].
  assert (E : solvePuzzle boardProgress true neverCancel 100000 poolProgress []
              = Some bestProgress) by (vm_compute; reflexivity).
  rewrite E in HR. inversion HR; subst R.
  vm_compute in Hcov. discriminate Hcov.
Qed.

(** C5 on the code: a poll at which [shouldCancel] answers [true] only makes
    the current call return [false]; the loops of the callers go on.  On the
    1 x 13 board the hook answers [true] at attempt 1000, where the best
    placement covers 6 cells, and the search goes on to attempt 1037 and
    returns a complete tiling found after the poll. *)
Theorem solvePuzzle_completes_after_cancel :
  solvePuzzle boardCancel true alwaysCancel 100000 poolCancel [] = Some tilingCancel
  /\ coverageOf tilingCancel = totalPositions boardCancel
  /\ progressCalls (snd (runSolver boardCancel true alwaysCancel 100000 poolCancel []))
     = [mkProgressCall 1000 5 6]
  /\ alwaysCancel 1000 = true
  /\ bestSolution (snd (runSolver boardCancel true alwaysCancel 100000 poolCancel []))
     = bestAtCancel
  /\ coverageOf bestAtCancel = 6
  /\ attempts (snd (runSolver boardCancel true alwaysCancel 100000 poolCancel []))
     = 1037.
Proof. vm_compute. repeat split; reflexivity. Qed.

(** ** The seed scenarios of the specification *)

(** Prefix pruning: short entries are dropped by the loader, and [CATS] is
    enumerated from the top-left cell. *)
Example scenario_prefix_pruning :
  loadWordLines ["cat"; "cats"; "dog"; "dogs"]%string = ["CATS"; "DOGS"]%string
  /\ enumerate gridCATS ["CATS"; "DOGS"]%string [] [] 4 15 0 0
     = Done [("CATS"%string, pathCATS)]
  /\ enumerate gridCATS ["DOGS"; "CATS"]%string [] [] 4 15 0 0
     = Done [("CATS"%string, pathCATS)].
Proof. vm_compute. repeat split; reflexivity. Qed.

(** No cell is visited twice: one path for [ABAB] on the row A B A B A B. *)
Example scenario_no_revisit :
  enumerate gridABAB ["ABAB"%string] [] [] 4 15 0 0
  = Done [("ABAB"%string, [(0, 0); (0, 1); (0, 2); (0, 3)])].
Proof. vm_compute. reflexivity. Qed.

(** Occupied cells are avoided. *)
Example scenario_occupied :
  enumerate gridABCDE ["ABCD"; "BCDE"]%string [(0, 0)] [] 4 15 0 1
  = Done [("BCDE"%string, [(0, 1); (0, 2); (0, 3); (0, 4)])]
  /\ enumerate gridABCDE ["ABCD"; "BCDE"]%string [(0, 0)] [] 4 15 0 0 = Done [].
Proof. vm_compute. split; reflexivity. Qed.

(** Complete tiling of the 2 x 2 grid by one word of the collected pool. *)
Example scenario_complete_tiling :
  collectAllWords solverCATS [] []
  = Done [ mkPoolWord "CATS" pathCATS 4;
           mkPoolWord "ACTS" [(0, 1); (0, 0); (1, 0); (1, 1)] 4 ]
  /\ solvePuzzle solverCATS true neverCancel 100000
       [ mkPoolWord "CATS" pathCATS 4;
         mkPoolWord "ACTS" [(0, 1); (0, 0); (1, 0); (1, 1)] 4 ] []
     = Some [("CATS"%string, pathCATS)].
Proof. vm_compute. split; reflexivity. Qed.

(* ================================================================== *)
(** * Part III.  Further properties of the code                         *)
(* ================================================================== *)

(** ** The prefix tree *)

Lemma startsWith_spec (s p : string) :
  startsWith s p = true <-> exists rest, s = (p ++ rest)%string.
Proof.
  revert s. induction p as [| b p IH]; intros s; simpl.
  - split; [intros _; exists s; reflexivity | intros _; destruct s; reflexivity].
  - destruct s as [| a s]; simpl.
    + split; [discriminate | intros [rest H]; discriminate H].
    + rewrite andb_true_iff, Ascii.eqb_eq, IH. split.
      * intros [-> [rest ->]]. exists rest. reflexivity.
      * intros [rest H]. inversion H; subst. split; [reflexivity | exists rest; reflexivity].
Qed.

Lemma startsWith_empty (s : string) : startsWith s EmptyString = true.
Proof. destruct s; reflexivity. Qed.

Lemma startsWith_cons (a b : ascii) (s p : string) :
  startsWith (String a s) (String b p) = Ascii.eqb a b && startsWith s p.
Proof. reflexivity. Qed.

Lemma noDollar_cons (b : ascii) (p : string) :
  noDollar (String b p) = true -> Ascii.eqb b dollar = false /\ noDollar p = true.
Proof.
  change (noDollar (String b p)) with (negb (Ascii.eqb b dollar) && noDollar p).
  rewrite andb_true_iff, negb_true_iff. tauto.
Qed.

Lemma wfTrie_obj (props : list (ascii * JsTrie)) :
  wfTrie (TrieObj props) <-> Forall wfEntry props.
Proof.
  induction props as [| [k v] ps IH].
  - simpl. split; [constructor | exact (fun _ => I)].
  - change (wfTrie (TrieObj ((k, v) :: ps)))
      with ((if Ascii.eqb k dollar then v = TrieTrue else wfTrie v)
            /\ wfTrie (TrieObj ps)).
    rewrite IH. split.
    + intros [H1 H2]. constructor; assumption.
    + intros H. inversion H; subst. split; assumption.
Qed.

Lemma propsGet_set_same (props : list (ascii * JsTrie)) (k : ascii) (v : JsTrie) :
  propsGet (propsSet props k v) k = Some v.
Proof.
  induction props as [| [k' v'] ps IH]; simpl.
  - rewrite Ascii.eqb_refl. reflexivity.
  - destruct (Ascii.eqb k k') eqn:E; simpl; rewrite E; [reflexivity | exact IH].
Qed.

Lemma propsGet_set_other (props : list (ascii * JsTrie)) (k a : ascii) (v : JsTrie) :
  a <> k -> propsGet (propsSet props k v) a = propsGet props a.
Proof.
  intros Hne. induction props as [| [k' v'] ps IH]; simpl.
  - apply Ascii.eqb_neq in Hne. rewrite Hne. reflexivity.
  - destruct (Ascii.eqb k k') eqn:E; simpl.
    + apply Ascii.eqb_eq in E. subst k'.
      apply Ascii.eqb_neq in Hne. rewrite Hne. reflexivity.
    + destruct (Ascii.eqb a k'); [reflexivity | exact IH].
Qed.

Lemma propsGet_wf (props : list (ascii * JsTrie)) (k : ascii) (v : JsTrie) :
  Forall wfEntry props -> propsGet props k = Some v -> wfEntry (k, v).
Proof.
  induction props as [| [k' v'] ps IH]; simpl; intros Hwf H; [discriminate H |].
  inversion Hwf; subst.
  destruct (Ascii.eqb k k') eqn:E.
  - apply Ascii.eqb_eq in E. inversion H; subst. assumption.
  - apply IH; assumption.
Qed.

Lemma propsSet_wf (props : list (ascii * JsTrie)) (k : ascii) (v : JsTrie) :
  Forall wfEntry props -> wfEntry (k, v) -> Forall wfEntry (propsSet props k v).
Proof.
  induction props as [| [k' v'] ps IH]; simpl; intros Hwf Hv.
  - constructor; [exact Hv | constructor].
  - inversion Hwf; subst. destruct (Ascii.eqb k k') eqn:E.
    + apply Ascii.eqb_eq in E. subst k'. constructor; assumption.
    + constructor; [assumption | apply IH; assumption].
Qed.

(** Inserting a word without ['$'] into a well-shaped tree raises no error,
    keeps the shape, and adds exactly the prefixes of the word followed by
    its end mark. *)
Lemma insertWord_language (w : string) :
  noDollar w = true ->
  forall t, wfTrie t ->
    exists t',
      insertWord t w = Done t'
      /\ wfTrie t'
      /\ forall s, trieHasPrefix t' s
                   = trieHasPrefix t s
                     || startsWith (w ++ String dollar EmptyString) s.
Proof.
  induction w as [| c rest IH]; intros Hw t Hwf.
  - destruct t as [| props]; [destruct Hwf |].
    apply wfTrie_obj in Hwf.
    exists (TrieObj (propsSet props dollar TrieTrue)). split; [reflexivity | split].
    + apply wfTrie_obj. apply propsSet_wf; [exact Hwf |].
      unfold wfEntry. simpl. reflexivity.
    + intros s. destruct s as [| a s']; [reflexivity |].
      change (match propsGet (propsSet props dollar TrieTrue) a with
              | None => false
              | Some child => trieHasPrefix child s'
              end
              = match propsGet props a with
                | None => false
                | Some child => trieHasPrefix child s'
                end
                || (Ascii.eqb dollar a && startsWith EmptyString s')).
      rewrite (Ascii.eqb_sym dollar a).
      destruct (Ascii.eqb a dollar) eqn:E.
      * apply Ascii.eqb_eq in E. subst a. rewrite propsGet_set_same.
        destruct (propsGet props dollar) as [v |] eqn:G.
        -- pose proof (propsGet_wf props dollar v Hwf G) as Hv.
           unfold wfEntry in Hv. simpl in Hv. subst v.
           destruct s'; reflexivity.
        -- destruct s'; reflexivity.
      * rewrite propsGet_set_other by (apply Ascii.eqb_neq; exact E).
        rewrite orb_false_r. reflexivity.
  - simpl in Hw. apply andb_true_iff in Hw. destruct Hw as [Hc Hrest].
    apply negb_true_iff in Hc.
    destruct t as [| props]; [destruct Hwf |].
    apply wfTrie_obj in Hwf.
    assert (Hchild : exists child,
               wfTrie child
               /\ (forall s, trieHasPrefix child s
                             = match propsGet props c with
                               | Some v => trieHasPrefix v s
                               | None => match s with
                                         | EmptyString => true
                                         | String _ _ => false
                                         end
                               end)
               /\ insertWord (TrieObj props) (String c rest)
                  = child' <- insertWord child rest ;;
                    trieSet (TrieObj props) c child').
    { simpl. destruct (propsGet props c) as [v |] eqn:G.
      - exists v. split; [| split; [reflexivity | reflexivity]].
        pose proof (propsGet_wf props c v Hwf G) as Hv.
        unfold wfEntry in Hv. simpl in Hv. rewrite Hc in Hv. exact Hv.
      - exists (TrieObj []). split; [exact I | split; [| reflexivity]].
        intros s. destruct s; reflexivity. }
    destruct Hchild as [child [Hcwf [Hclang Hins]]].
    destruct (IH Hrest child Hcwf) as [child' [E' [Hwf' Hlang']]].
    exists (TrieObj (propsSet props c child')). split; [| split].
    + rewrite Hins, E'. reflexivity.
    + apply wfTrie_obj. apply propsSet_wf; [exact Hwf |].
      unfold wfEntry. simpl. rewrite Hc. exact Hwf'.
    + intros s. destruct s as [| a s']; [reflexivity |].
      simpl. rewrite (Ascii.eqb_sym c a). destruct (Ascii.eqb a c) eqn:E.
      * apply Ascii.eqb_eq in E. subst a. rewrite propsGet_set_same.
        rewrite Hlang', Hclang.
        destruct (propsGet props c) as [v |]; [reflexivity |].
        destruct s'; [| reflexivity].
        simpl. rewrite startsWith_empty. reflexivity.
      * rewrite propsGet_set_other by (apply Ascii.eqb_neq; exact E).
        rewrite orb_false_r. reflexivity.
Qed.

Lemma buildPrefixTree_fold (ws : list string) :
  Forall (fun w => noDollar w = true) ws ->
  forall t, wfTrie t ->
    exists t',
      fold_left (fun acc word => trie <- acc ;; insertWord trie word) ws (Done t)
      = Done t'
      /\ wfTrie t'
      /\ forall s, trieHasPrefix t' s
                   = trieHasPrefix t s
                     || existsb (fun w => startsWith (w ++ String dollar EmptyString) s) ws.
Proof.
  induction ws as [| w ws IH]; intros Hall t Hwf.
  - exists t. split; [reflexivity | split; [exact Hwf |]].
    intros s. simpl. rewrite orb_false_r. reflexivity.
  - inversion Hall as [| ? ? Hw Hws]; subst.
    destruct (insertWord_language w Hw t Hwf) as [t1 [E1 [Hwf1 Hl1]]].
    destruct (IH Hws t1 Hwf1) as [t' [E' [Hwf' Hl']]].
    exists t'. split; [| split; [exact Hwf' |]].
    + simpl. rewrite E1. exact E'.
    + intros s. rewrite Hl', Hl1. simpl. rewrite orb_assoc. reflexivity.
Qed.

Lemma startsWith_marked_prefix (w p : string) :
  noDollar p = true ->
  startsWith (w ++ String dollar EmptyString) p = startsWith w p.
Proof.
  revert p. induction w as [| a w IH]; intros p Hp.
  - destruct p as [| b p']; [reflexivity |].
    apply noDollar_cons in Hp. destruct Hp as [Hb _].
    change (Ascii.eqb dollar b && startsWith EmptyString p' = false).
    rewrite Ascii.eqb_sym, Hb. reflexivity.
  - destruct p as [| b p']; [reflexivity |].
    apply noDollar_cons in Hp. destruct Hp as [_ Hp'].
    change (Ascii.eqb a b && startsWith (w ++ String dollar EmptyString) p'
            = Ascii.eqb a b && startsWith w p').
    rewrite (IH p' Hp'). reflexivity.
Qed.

Lemma startsWith_marked_word (w w0 : string) :
  noDollar w = true -> noDollar w0 = true ->
  startsWith (w ++ String dollar EmptyString) (w0 ++ String dollar EmptyString) = true
  <-> w = w0.
Proof.
  revert w0. induction w as [| a w IH]; intros w0 Hw Hw0.
  - destruct w0 as [| b w0'].
    + change (Ascii.eqb dollar dollar && true = true <-> EmptyString = EmptyString).
      rewrite Ascii.eqb_refl. tauto.
    + apply noDollar_cons in Hw0. destruct Hw0 as [Hb _].
      change (Ascii.eqb dollar b
              && startsWith EmptyString (w0' ++ String dollar EmptyString) = true
              <-> EmptyString = String b w0').
      rewrite Ascii.eqb_sym, Hb. split; discriminate.
  - apply noDollar_cons in Hw. destruct Hw as [Ha Hw].
    destruct w0 as [| b w0'].
    + change (Ascii.eqb a dollar
              && startsWith (w ++ String dollar EmptyString) EmptyString = true
              <-> String a w = EmptyString).
      rewrite Ha. split; discriminate.
    + apply noDollar_cons in Hw0. destruct Hw0 as [_ Hw0].
      change (Ascii.eqb a b
              && startsWith (w ++ String dollar EmptyString)
                            (w0' ++ String dollar EmptyString) = true
              <-> String a w = String b w0').
      rewrite andb_true_iff, Ascii.eqb_eq, (IH w0' Hw Hw0). split.
      * intros [-> ->]. reflexivity.
      * intros H. inversion H. split; reflexivity.
Qed.
Lemma existsb_startsWith_prefix (ws : list string) (p : string) :
  noDollar p = true ->
  existsb (fun w => startsWith (w ++ String dollar EmptyString) p) ws = true
  <-> exists w, In w ws /\ exists rest, w = (p ++ rest)%string.
Proof.
  intros Hp. rewrite existsb_exists. split.
  - intros [w [Hin H]]. exists w. split; [exact Hin |].
    rewrite (startsWith_marked_prefix w p Hp) in H.
    apply startsWith_spec. exact H.
  - intros [w [Hin H]]. exists w. split; [exact Hin |].
    rewrite (startsWith_marked_prefix w p Hp).
    apply startsWith_spec. exact H.
Qed.

Lemma trieHasPrefix_empty_obj (p : string) :
  p <> EmptyString -> trieHasPrefix (TrieObj []) p = false.
Proof. destruct p; [intros H; contradiction H; reflexivity | reflexivity]. Qed.

(** X1: for a word list without ['$'], building the prefix tree raises no
    error, and the tree answers a non-empty query without ['$'] with [true]
    exactly when some word of the list starts with the query. *)
Theorem buildPrefixTree_exact (ws : list string) :
  Forall (fun w => noDollar w = true) ws ->
  exists t,
    buildPrefixTree ws = Done t
    /\ forall p, p <> EmptyString -> noDollar p = true ->
         (trieHasPrefix t p = true
          <-> exists w, In w ws /\ exists rest, w = (p ++ rest)%string).
Proof.
  intros Hws.
  destruct (buildPrefixTree_fold ws Hws (TrieObj []) I) as [t [E [_ Hlang]]].
  exists t. split; [exact E |].
  intros p Hne Hp.
  rewrite Hlang, (trieHasPrefix_empty_obj p Hne), orb_false_l.
  apply existsb_startsWith_prefix. exact Hp.
Qed.

Lemma buildPrefixTree_exact_witness :
  exists t,
    buildPrefixTree ["CATS"; "ACTS"]%string = Done t
    /\ forall p, p <> EmptyString -> noDollar p = true ->
         (trieHasPrefix t p = true
          <-> exists w, In w ["CATS"; "ACTS"]%string
                        /\ exists rest, w = (p ++ rest)%string).
Proof.
  apply (buildPrefixTree_exact ["CATS"; "ACTS"]%string).
  repeat constructor.
Defined.

(** X2: in the tree built from a word list without ['$'], a word followed
    by the end mark ['$'] is found exactly when the word is in the list: the
    tree stores the words themselves, not only their prefixes. *)
Theorem hasPrefix_end_mark (this : Solver) (w : string) :
  treeOfWordSet this ->
  Forall (fun w => noDollar w = true) (wordSet this) ->
  noDollar w = true ->
  (hasPrefix this (w ++ String dollar EmptyString) = true <-> In w (wordSet this)).
Proof.
  intros Htree Hws Hw.
  destruct (buildPrefixTree_fold (wordSet this) Hws (TrieObj []) I)
    as [t [E [_ Hlang]]].
  unfold treeOfWordSet, buildPrefixTree in Htree. rewrite E in Htree.
  inversion Htree as [Ht]. unfold hasPrefix. rewrite <- Ht, Hlang.
  rewrite trieHasPrefix_empty_obj by (destruct w; discriminate).
  rewrite orb_false_l, existsb_exists. split.
  - intros [w0 [Hin H]].
    assert (Hw0 : noDollar w0 = true).
    { rewrite Forall_forall in Hws. apply Hws. exact Hin. }
    apply (startsWith_marked_word w0 w Hw0 Hw) in H. subst w0. exact Hin.
  - intros Hin. exists w. split; [exact Hin |].
    apply (startsWith_marked_word w w Hw Hw). reflexivity.
Qed.

Lemma hasPrefix_end_mark_witness :
  hasPrefix solverCATS ("CATS" ++ String dollar EmptyString) = true
  <-> In "CATS"%string (wordSet solverCATS).
Proof.
  apply (hasPrefix_end_mark solverCATS "CATS").
  - reflexivity.
  - repeat constructor.
  - reflexivity.
Defined.

Lemma trieGet_set_same (t t' : JsTrie) (k : ascii) (v : JsTrie) :
  trieSet t k v = Done t' -> trieGet t' k = Some v.
Proof.
  destruct t as [| props]; simpl; [discriminate |].
  intros H. inversion H. simpl. apply propsGet_set_same.
Qed.

Lemma trieGet_set_other (t t' : JsTrie) (k a : ascii) (v : JsTrie) :
  trieSet t k v = Done t' -> a <> k -> trieGet t' a = trieGet t a.
Proof.
  destruct t as [| props]; simpl; [discriminate |].
  intros H Hne. inversion H. simpl. apply propsGet_set_other. exact Hne.
Qed.

Lemma insertWord_cons (t : JsTrie) (a : ascii) (x : string) :
  insertWord t (String a x)
  = match trieGet t a with
    | Some child => child' <- insertWord child x ;; trieSet t a child'
    | None =>
        match t with
        | TrieTrue => Threw
        | TrieObj _ => child' <- insertWord (TrieObj []) x ;; trieSet t a child'
        end
    end.
Proof. reflexivity. Qed.

Lemma insertWord_raises_or_returns (x : string) :
  forall t, insertWord t x = Threw \/ exists t', insertWord t x = Done t'.
Proof.
  induction x as [| a x IH]; intros t.
  - destruct t as [| props]; [left; reflexivity | right; eexists; reflexivity].
  - rewrite insertWord_cons.
    destruct (trieGet t a) as [child |].
    + destruct (IH child) as [E | [c' E]]; rewrite E; [left; reflexivity |].
      destruct t as [| props]; [left; reflexivity | right; eexists; reflexivity].
    + destruct t as [| props]; [left; reflexivity |].
      destruct (IH (TrieObj [])) as [E | [c' E]]; rewrite E;
        [left; reflexivity | right; eexists; reflexivity].
Qed.

(** An inserted word is marked. *)
Lemma insertWord_marks (w : string) :
  forall t t', insertWord t w = Done t' -> marked t' w.
Proof.
  induction w as [| a w IH]; intros t t' E.
  - simpl in E |- *. apply (trieGet_set_same t t' dollar TrieTrue E).
  - rewrite insertWord_cons in E.
    assert (Hstep : forall child,
               (child' <- insertWord child w ;; trieSet t a child') = Done t' ->
               marked t' (String a w)).
    { intros child H. destruct (insertWord child w) as [child' | |] eqn:Ec;
        simpl in H; try discriminate H.
      exists child'. split; [apply (trieGet_set_same t t' a child' H) |].
      apply (IH child child' Ec). }
    destruct (trieGet t a) as [child |]; [apply (Hstep child E) |].
    destruct t as [| props]; [discriminate E | apply (Hstep (TrieObj []) E)].
Qed.

(** No later insertion that returns removes the mark of a word without
    ['$']. *)
Lemma insertWord_keeps_mark (x : string) :
  forall t t' w,
    noDollar w = true -> marked t w -> insertWord t x = Done t' -> marked t' w.
Proof.
  induction x as [| a x IH]; intros t t' w Hw Hm E.
  - simpl in E. destruct w as [| c r].
    + simpl. apply (trieGet_set_same t t' dollar TrieTrue E).
    + apply noDollar_cons in Hw. destruct Hw as [Hc _].
      destruct Hm as [child [Hg Hr]]. exists child. split; [| exact Hr].
      rewrite (trieGet_set_other t t' dollar c TrieTrue E); [exact Hg |].
      apply Ascii.eqb_neq. exact Hc.
  - rewrite insertWord_cons in E.
    destruct w as [| c r].
    + simpl in Hm. simpl.
      destruct (Ascii.eqb a dollar) eqn:Ea.
      * apply Ascii.eqb_eq in Ea. subst a. rewrite Hm in E.
        destruct x as [| b x']; simpl in E; discriminate E.
      * assert (Hset : forall child,
                   (child' <- insertWord child x ;; trieSet t a child') = Done t' ->
                   trieGet t' dollar = Some TrieTrue).
        { intros child H. destruct (insertWord child x) as [child' | |];
            simpl in H; try discriminate H.
          rewrite (trieGet_set_other t t' a dollar child' H); [exact Hm |].
          intros Heq. subst a. rewrite Ascii.eqb_refl in Ea. discriminate Ea. }
        destruct (trieGet t a) as [child |]; [apply (Hset child E) |].
        destruct t as [| props]; [discriminate E | apply (Hset (TrieObj []) E)].
    + apply noDollar_cons in Hw. destruct Hw as [_ Hr].
      destruct Hm as [child [Hg Hmr]].
      destruct (Ascii.eqb a c) eqn:Eac.
      * apply Ascii.eqb_eq in Eac. subst a. rewrite Hg in E.
        destruct (insertWord child x) as [child' | |] eqn:Ec;
          simpl in E; try discriminate E.
        exists child'. split; [apply (trieGet_set_same t t' c child' E) |].
        apply (IH child child' r Hr Hmr Ec).
      * assert (Hset : forall ch,
                   (child' <- insertWord ch x ;; trieSet t a child') = Done t' ->
                   marked t' (String c r)).
        { intros ch H. destruct (insertWord ch x) as [child' | |];
            simpl in H; try discriminate H.
          exists child. split; [| exact Hmr].
          rewrite (trieGet_set_other t t' a c child' H); [exact Hg |].
          intros Heq. subst a. rewrite Ascii.eqb_refl in Eac. discriminate Eac. }
        destruct (trieGet t a) as [ch |]; [apply (Hset ch E) |].
        destruct t as [| props]; [discriminate E | apply (Hset (TrieObj []) E)].
Qed.

(** The walk for [w$u], [u] not empty, below a node where [w] is marked
    steps onto the [true] under ['$'] and raises. *)
Lemma insertWord_past_mark (w : string) (c : ascii) (u : string) :
  forall t, marked t w -> insertWord t (w ++ String dollar (String c u)) = Threw.
Proof.
  induction w as [| a w IH]; intros t Hm.
  - simpl in Hm.
    change (insertWord t (String dollar (String c u)) = Threw).
    rewrite insertWord_cons, Hm. reflexivity.
  - destruct Hm as [child [Hg Hr]].
    change (insertWord t (String a (w ++ String dollar (String c u))) = Threw).
    rewrite insertWord_cons, Hg, (IH child Hr). reflexivity.
Qed.

Lemma build_fold_threw (l : list string) :
  fold_left (fun acc word => trie <- acc ;; insertWord trie word) l Threw = Threw.
Proof. induction l as [| x l IH]; [reflexivity | exact IH]. Qed.

Lemma build_fold_past_mark (mid post : list string) (w u : string) (c : ascii) :
  noDollar w = true ->
  forall t, marked t w ->
    fold_left (fun acc word => trie <- acc ;; insertWord trie word)
              (mid ++ (w ++ String dollar (String c u))%string :: post) (Done t)
    = Threw.
Proof.
  intros Hw. induction mid as [| x mid IH]; intros t Hm.
  - simpl. rewrite (insertWord_past_mark w c u t Hm). apply build_fold_threw.
  - simpl. destruct (insertWord_raises_or_returns x t) as [E | [t' E]]; rewrite E.
    + apply build_fold_threw.
    + apply IH. apply (insertWord_keeps_mark x t t' w Hw Hm E).
Qed.

Lemma build_fold_raises_or_returns (l : list string) :
  forall t,
    fold_left (fun acc word => trie <- acc ;; insertWord trie word) l (Done t) = Threw
    \/ exists t',
         fold_left (fun acc word => trie <- acc ;; insertWord trie word) l (Done t)
         = Done t'.
Proof.
  induction l as [| x l IH]; intros t; [right; exists t; reflexivity |].
  simpl. destruct (insertWord_raises_or_returns x t) as [E | [t' E]]; rewrite E.
  - left. apply build_fold_threw.
  - apply IH.
Qed.

(** X3: the end mark is an ordinary property key.  When a word list holds a
    word [w] without ['$'] and, anywhere after it, an entry [w$u] with [u]
    not empty, building the prefix tree raises a TypeError, whatever the
    other entries of the list: the walk for [w$u] steps onto the [true]
    stored under ['$'] and then assigns a property on it (unless an entry
    before it has raised already). *)
Theorem buildPrefixTree_raises_past_end_mark (pre mid post : list string)
  (w u : string) (c : ascii) :
  noDollar w = true ->
  buildPrefixTree (pre ++ w :: mid ++ (w ++ String dollar (String c u))%string :: post)
  = Threw.
Proof.
  intros Hw. unfold buildPrefixTree. rewrite fold_left_app.
  destruct (build_fold_raises_or_returns pre (TrieObj [])) as [E | [t E]]; rewrite E.
  - apply build_fold_threw.
  - simpl. destruct (insertWord_raises_or_returns w t) as [Ew | [t' Ew]]; rewrite Ew.
    + apply build_fold_threw.
    + apply (build_fold_past_mark mid post w u c Hw t').
      apply (insertWord_marks w t t' Ew).
Qed.

Lemma buildPrefixTree_raises_past_end_mark_witness :
  buildPrefixTree (["ACTS"%string]
                   ++ "CATS"%string
                      :: ["CAT"%string; "SEAT"%string]
                         ++ ("CATS" ++ String dollar (String "X" "Y"))%string
                            :: ["STAR"%string])%list
  = Threw.
Proof.
  apply (buildPrefixTree_raises_past_end_mark
           ["ACTS"%string] ["CAT"%string; "SEAT"%string] ["STAR"%string]
           "CATS" "Y" "X").
  reflexivity.
Defined.


(** ** The enumerator finds every candidate *)

Lemma noDollar_app (a b : string) :
  noDollar (a ++ b) = noDollar a && noDollar b.
Proof.
  induction a as [| c a IH]; [reflexivity |].
  change (negb (Ascii.eqb c dollar) && noDollar (a ++ b)
          = negb (Ascii.eqb c dollar) && noDollar a && noDollar b).
  rewrite IH, andb_assoc. reflexivity.
Qed.

(** The tree a solver holds for a word list without ['$'] answers a
    non-empty query without ['$'] exactly by the prefixes of the list. *)
Lemma hasPrefix_of_wordSet (this : Solver) :
  treeOfWordSet this ->
  Forall (fun w => noDollar w = true) (wordSet this) ->
  forall p, p <> EmptyString -> noDollar p = true ->
    (hasPrefix this p = true
     <-> exists w, In w (wordSet this) /\ exists rest, w = (p ++ rest)%string).
Proof.
  intros Htree Hws p Hne Hp.
  destruct (buildPrefixTree_fold (wordSet this) Hws (TrieObj []) I)
    as [t [E [_ Hlang]]].
  unfold treeOfWordSet, buildPrefixTree in Htree. rewrite E in Htree.
  inversion Htree as [Ht]. unfold hasPrefix. rewrite <- Ht, Hlang.
  rewrite (trieHasPrefix_empty_obj p Hne), orb_false_l.
  apply existsb_startsWith_prefix. exact Hp.
Qed.

Lemma lettersAlong_app_inv (g : Grid) (p q : Path) (s : string) :
  lettersAlong g (p ++ q) = Some s ->
  exists s1 s2,
    lettersAlong g p = Some s1 /\ lettersAlong g q = Some s2
    /\ s = (s1 ++ s2)%string.
Proof.
  revert s. induction p as [| [r c] p IH]; intros s H.
  - exists EmptyString, s. split; [reflexivity | split; [exact H | reflexivity]].
  - simpl in H. destruct (gridAt g r c) as [ch |] eqn:G; [| discriminate H].
    destruct (lettersAlong g (p ++ q)) as [s' |] eqn:L; [| discriminate H].
    inversion H; subst s.
    destruct (IH s' eq_refl) as [s1 [s2 [H1 [H2 ->]]]].
    exists (String ch s1), s2. simpl. rewrite G, H1.
    split; [reflexivity | split; [exact H2 | reflexivity]].
Qed.

Lemma spells_app_inv (g : Grid) (p q : Path) (w : string) :
  spells g (p ++ q) w ->
  exists w1 w2, spells g p w1 /\ spells g q w2 /\ w = (w1 ++ w2)%string.
Proof.
  unfold spells. intros H.
  destruct (lettersAlong g (p ++ q)) as [s |] eqn:L; [| discriminate H].
  destruct (lettersAlong_app_inv g p q s L) as [s1 [s2 [H1 [H2 ->]]]].
  simpl in H. inversion H as [Hw].
  exists (toUpperCase s1), (toUpperCase s2).
  rewrite H1, H2, toUpperCase_app. repeat split; reflexivity.
Qed.

Lemma spells_functional (g : Grid) (p : Path) (w1 w2 : string) :
  spells g p w1 -> spells g p w2 -> w1 = w2.
Proof. unfold spells. intros H1 H2. rewrite H1 in H2. inversion H2. reflexivity. Qed.

Lemma spells_cons_inv (g : Grid) (c : Cell) (q : Path) (w : string) :
  spells g (c :: q) w ->
  exists ch w', gridAt g (fst c) (snd c) = Some ch
                /\ w = String (toUpperChar ch) w'.
Proof.
  unfold spells. destruct c as [r k]. simpl.
  destruct (gridAt g r k) as [ch |]; [| discriminate].
  destruct (lettersAlong g q) as [s |]; [| discriminate].
  simpl. intros H. inversion H. exists ch, (toUpperCase s). split; reflexivity.
Qed.

Lemma isPath8_app_step (p : Path) (c d : Cell) (ext : Path) :
  p <> [] -> isPath8 (p ++ c :: ext) -> neighbors8 (last p d) c.
Proof.
  induction p as [| a p IH]; intros Hne H; [contradiction Hne; reflexivity |].
  destruct p as [| b p'].
  - simpl in H |- *. apply H.
  - change (last (a :: b :: p') d) with (last (b :: p') d).
    apply IH; [discriminate |].
    change (neighbors8 a b /\ isPath8 ((b :: p') ++ c :: ext)) in H. apply H.
Qed.

Lemma neighbors8_direction (row col : Z) (c : Cell) :
  neighbors8 (row, col) c ->
  exists d, In d directions /\ c = (row + fst d, col + snd d).
Proof.
  destruct c as [r k]. unfold neighbors8. simpl. intros [Hr [Hk Hne]].
  assert (Er : r = row + -1 \/ r = row + 0 \/ r = row + 1) by lia.
  assert (Ek : k = col + -1 \/ k = col + 0 \/ k = col + 1) by lia.
  destruct Er as [-> | [-> | ->]]; destruct Ek as [-> | [-> | ->]];
    try (eexists (_, _); split; [| reflexivity]; simpl; tauto).
  contradiction Hne. rewrite !Z.add_0_r. reflexivity.
Qed.

Section EnumeratorComplete.
Variable this : Solver.
Variable occupied : list Cell.
Variable blacklist : list string.
Variables minLength maxLength : Z.
Variable start : Cell.
Hypothesis Htree : treeOfWordSet this.
Hypothesis Hdollar : Forall (fun w => noDollar w = true) (wordSet this).

Lemma tryDirections_finds
  (rec : Z -> Z -> string -> Path -> DfsState -> Outcome DfsState)
  (ds : list (Z * Z)) :
  dfsFinds this occupied blacklist minLength maxLength start rec ->
  forall row col w p st st',
    tryDirections this occupied rec ds row col w p st = Done st' ->
    p <> [] ->
    spells (grid this) p w ->
    visited st = p ->
    visited st' = p
    /\ (exists new, hits st' = hits st ++ new)
    /\ forall d ext W,
         In d ds ->
         candidateOk this occupied blacklist minLength maxLength start
                     (W, p ++ (row + fst d, col + snd d) :: ext) ->
         In (W, p ++ (row + fst d, col + snd d) :: ext) (hits st').
Proof.
  intros Hrec. induction ds as [| d ds IH]; intros row col w p st st' E Hne Hsp Hvis.
  - simpl in E. inversion E; subst st'.
    split; [exact Hvis | split; [exists []; rewrite app_nil_r; reflexivity |]].
    intros d ext W [].
  - rewrite tryDirections_cons in E. cbv zeta in E.
    set (c := (row + fst d, col + snd d)) in *.
    assert (Hskip :
      tryDirections this occupied rec ds row col w p st = Done st' ->
      (forall ext W,
         ~ candidateOk this occupied blacklist minLength maxLength start
                       (W, p ++ c :: ext)) ->
      visited st' = p
      /\ (exists new, hits st' = hits st ++ new)
      /\ forall d0 ext W,
           In d0 (d :: ds) ->
           candidateOk this occupied blacklist minLength maxLength start
                       (W, p ++ (row + fst d0, col + snd d0) :: ext) ->
           In (W, p ++ (row + fst d0, col + snd d0) :: ext) (hits st')).
    { intros E' Hnone.
      destruct (IH row col w p st st' E' Hne Hsp Hvis) as [Hv' [Hnew Hall]].
      split; [exact Hv' | split; [exact Hnew |]].
      intros d0 ext W [<- | Hin] Hc.
      - exfalso. exact (Hnone ext W Hc).
      - apply Hall; assumption. }
    destruct (inBounds this (row + fst d) (col + snd d)) eqn:Hb;
      simpl negb in E; cbv iota in E.
    2:{ apply Hskip; [exact E |]. intros ext W [[_ [_ [_ [Hin _]]]] _].
        assert (Hc : inBounds this (row + fst d) (col + snd d) = true).
        { apply (Hin c). apply in_or_app. right. left. reflexivity. }
        rewrite Hb in Hc. discriminate Hc. }
    destruct (posHas (visited st) c) eqn:Hv.
    { apply Hskip; [exact E |]. intros ext W [[_ [_ [Hnd _]]] _].
      simpl in Hnd. apply posHas_In in Hv. rewrite Hvis in Hv.
      apply NoDup_remove_2 in Hnd. apply Hnd. apply in_or_app. left. exact Hv. }
    destruct (posHas occupied c) eqn:Hu.
    { apply Hskip; [exact E |]. intros ext W [[_ [_ [_ [_ Hocc]]]] _].
      simpl in Hocc. apply posHas_In in Hu. apply (Hocc c); [| exact Hu].
      apply in_or_app. right. left. reflexivity. }
    apply posHas_false in Hv. rewrite Hvis in Hv.
    destruct (gridAt (grid this) (row + fst d) (col + snd d)) as [ch |] eqn:Hg;
      [| discriminate E].
    match type of E with
    | context [rec ?r ?k ?w' ?p' ?s1] =>
        destruct (rec r k w' p' s1) as [st2 | |] eqn:Ecall; try discriminate E
    end.
    simpl in E.
    destruct (Hrec _ _ _ _ _ _ Ecall) as [Hv2 [[new2 Hnew2] Hall2]].
    + destruct p; [contradiction Hne; reflexivity | discriminate].
    + apply last_last.
    + apply spells_snoc; assumption.
    + simpl. rewrite Hvis. apply posAdd_fresh. exact Hv.
    + simpl in Hnew2.
      destruct (IH row col w p _ st' E Hne Hsp) as [Hv' [[new' Hnew'] Hall']].
      { simpl. rewrite Hv2. apply posDelete_last. exact Hv. }
      simpl in Hnew'.
      split; [exact Hv' | split].
      * exists (new2 ++ new'). rewrite Hnew', Hnew2, app_assoc. reflexivity.
      * intros d0 ext W [<- | Hin] Hc.
        -- rewrite Hnew'. apply in_or_app. left.
           fold c in Hc |- *.
           change (p ++ c :: ext) with (p ++ [c] ++ ext) in Hc |- *.
           rewrite app_assoc in Hc |- *. apply Hall2. exact Hc.
        -- apply Hall'; assumption.
Qed.

Lemma checkWord_hits (w : string) (p : Path) (st : DfsState) :
  visited (checkWord this blacklist minLength w p st) = visited st
  /\ (exists new, hits (checkWord this blacklist minLength w p st) = hits st ++ new)
  /\ (minLength <= strLen w -> In w (wordSet this) -> ~ In w blacklist ->
      In (w, p) (hits (checkWord this blacklist minLength w p st))).
Proof.
  unfold checkWord, isValidWord.
  destruct (minLength <=? strLen w) eqn:Hmin;
    destruct (wordHas (wordSet this) w) eqn:Hd;
    destruct (wordHas blacklist w) eqn:Hb; simpl;
    (split; [reflexivity | split;
       [first [exists []; rewrite app_nil_r; reflexivity | eexists; reflexivity] |]]);
    intros H1 H2 H3;
    try (apply in_or_app; right; left; reflexivity);
    try (apply Z.leb_gt in Hmin; lia);
    try (apply wordHas_false in Hd; contradiction);
    try (apply wordHas_In in Hb; contradiction).
Qed.

Lemma spells_nonempty (g : Grid) (p : Path) (w : string) :
  p <> [] -> spells g p w -> w <> EmptyString.
Proof.
  intros Hne Hsp. destruct p as [| c p']; [contradiction Hne; reflexivity |].
  destruct (spells_cons_inv _ _ _ _ Hsp) as [ch [w' [_ ->]]]. discriminate.
Qed.

Lemma candidate_at_path (w W : string) (p : Path) :
  spells (grid this) p w ->
  candidateOk this occupied blacklist minLength maxLength start (W, p) ->
  W = w /\ minLength <= strLen w /\ In w (wordSet this) /\ ~ In w blacklist.
Proof.
  intros Hsp [_ [Hlen [Hdict [Hbl HspW]]]].
  cbn [fst snd] in Hlen, Hdict, Hbl, HspW.
  pose proof (spells_functional _ _ _ _ HspW Hsp) as ->.
  repeat split; [lia | assumption | assumption].
Qed.

Lemma candidate_past_path (row col : Z) (w W : string) (p ext : Path) (c : Cell) :
  p <> [] ->
  last p start = (row, col) ->
  spells (grid this) p w ->
  candidateOk this occupied blacklist minLength maxLength start (W, p ++ c :: ext) ->
  strLen w < maxLength
  /\ hasPrefix this w = true
  /\ exists d, In d directions /\ c = (row + fst d, col + snd d).
Proof.
  intros Hne Hlast Hsp [[_ [Hp8 _]] [Hlen [Hdict [_ HspW]]]].
  cbn [fst snd] in Hp8, Hlen, Hdict, HspW.
  destruct (spells_app_inv _ _ _ _ HspW) as [w1 [w2 [H1 [H2 ->]]]].
  pose proof (spells_functional _ _ _ _ H1 Hsp) as ->.
  destruct (spells_cons_inv _ _ _ _ H2) as [ch [w' [_ ->]]].
  rewrite strLen_app in Hlen.
  assert (Hpos : 0 < strLen (String (toUpperChar ch) w')).
  { unfold strLen. simpl String.length. lia. }
  split; [lia | split].
  - assert (HW : noDollar (w ++ String (toUpperChar ch) w') = true).
    { rewrite Forall_forall in Hdollar. apply Hdollar. exact Hdict. }
    rewrite noDollar_app in HW. apply andb_true_iff in HW.
    apply (hasPrefix_of_wordSet this Htree Hdollar w).
    + exact (spells_nonempty _ _ _ Hne Hsp).
    + apply HW.
    + eexists. split; [exact Hdict |]. eexists. reflexivity.
  - apply neighbors8_direction. rewrite <- Hlast.
    apply (isPath8_app_step p c start ext Hne Hp8).
Qed.

Lemma dfs_finds (fuel : nat) :
  dfsFinds this occupied blacklist minLength maxLength start
           (dfs this occupied blacklist minLength maxLength fuel).
Proof.
  induction fuel as [| fuel IH];
    intros row col w p st st' E Hne Hlast Hsp Hvis; [discriminate E |].
  rewrite dfs_succ in E. cbv zeta in E.
  destruct (checkWord_hits w p st) as [Hv1 [[new1 Hnew1] Hhit]].
  assert (Hself : forall W,
             candidateOk this occupied blacklist minLength maxLength start (W, p) ->
             In (W, p) (hits (checkWord this blacklist minLength w p st))).
  { intros W Hc.
    destruct (candidate_at_path w W p Hsp Hc) as [-> [Hlen [Hdict Hbl]]].
    apply Hhit; assumption. }
  pose proof (fun c ext W => candidate_past_path row col w W p ext c Hne Hlast Hsp)
    as Hlonger.
  assert (Hstop :
    Done (checkWord this blacklist minLength w p st) = Done st' ->
    (forall c ext W,
       ~ candidateOk this occupied blacklist minLength maxLength start
                     (W, p ++ c :: ext)) ->
    visited st' = p
    /\ (exists new, hits st' = hits st ++ new)
    /\ forall ext W,
         candidateOk this occupied blacklist minLength maxLength start (W, p ++ ext) ->
         In (W, p ++ ext) (hits st')).
  { intros E' Hnone. inversion E'; subst st'.
    split; [rewrite Hv1; exact Hvis | split; [exists new1; exact Hnew1 |]].
    intros [| c ext] W Hc.
    - rewrite app_nil_r in Hc |- *. apply Hself. exact Hc.
    - exfalso. exact (Hnone c ext W Hc). }
  destruct (maxLength <=? strLen w) eqn:Hmax.
  { apply Hstop; [exact E |]. intros c ext W Hc.
    destruct (Hlonger c ext W Hc) as [Hlt _]. apply Z.leb_le in Hmax. lia. }
  destruct (hasPrefix this w) eqn:Hpre; simpl negb in E; cbv iota in E.
  2:{ apply Hstop; [exact E |]. intros c ext W Hc.
      destruct (Hlonger c ext W Hc) as [_ [Hp _]]. discriminate Hp. }
  destruct (tryDirections_finds _ directions IH row col w p _ st' E Hne Hsp)
    as [Hv' [[new' Hnew'] Hall']].
  { rewrite Hv1. exact Hvis. }
  split; [exact Hv' | split].
  - exists (new1 ++ new'). rewrite Hnew', Hnew1, app_assoc. reflexivity.
  - intros [| c ext] W Hc.
    + rewrite Hnew'. apply in_or_app. left.
      rewrite app_nil_r in Hc |- *. apply Hself. exact Hc.
    + destruct (Hlonger c ext W Hc) as [_ [_ [d [Hd ->]]]].
      apply Hall'; assumption.
Qed.

Lemma searchFrom_finds (startRow startCol : Z) (st : DfsState) (w : string) (p : Path) :
  start = (startRow, startCol) ->
  searchFrom this occupied blacklist minLength maxLength startRow startCol = Done st ->
  candidateOk this occupied blacklist minLength maxLength start (w, p) ->
  In (w, p) (hits st).
Proof.
  intros Hs E Hc. unfold searchFrom in E.
  destruct (gridAt (grid this) startRow startCol) as [ch |] eqn:Hg; [| discriminate E].
  cbv zeta in E. rewrite <- Hs in E.
  destruct (dfs_finds _ _ _ _ _ _ _ E) as [_ [_ Hall]].
  - discriminate.
  - simpl. exact Hs.
  - unfold spells. rewrite Hs. simpl. rewrite Hg. reflexivity.
  - reflexivity.
  - destruct Hc as [[[rest Hrest] Hpath] Hmore]. simpl in Hrest. subst p.
    apply (Hall rest w). split; [split; [exists rest; reflexivity | exact Hpath] |].
    exact Hmore.
Qed.

End EnumeratorComplete.

Lemma findWordsDFS_searched (this : Solver) (occupied : list Cell) (blacklist : list string)
  (minLength maxLength startRow startCol : Z) (res : list Candidate) :
  findWordsDFS this occupied blacklist minLength maxLength startRow startCol = Done res ->
  inBounds this startRow startCol = true ->
  ~ In (startRow, startCol) occupied ->
  exists st,
    searchFrom this occupied blacklist minLength maxLength startRow startCol = Done st
    /\ stateOk this occupied blacklist minLength maxLength (startRow, startCol) st
    /\ res = jsSort wordLengthDesc (uniqueWords st).
Proof.
  intros H Hb Hfree. unfold findWordsDFS in H.
  unfold inBounds in Hb. apply negb_true_iff in Hb. rewrite Hb in H.
  apply posHas_false in Hfree. rewrite Hfree in H. apply posHas_false in Hfree.
  assert (Hin : inBounds this startRow startCol = true).
  { unfold inBounds. rewrite Hb. reflexivity. }
  pose proof (searchFrom_ok this occupied blacklist minLength maxLength
                            (startRow, startCol) startRow startCol eq_refl Hin Hfree) as Hs.
  destruct (searchFrom this occupied blacklist minLength maxLength startRow startCol)
    as [st | |]; simpl in H; try discriminate H.
  exists st. inversion H. repeat split; try reflexivity; apply Hs.
Qed.

Lemma candidateOk_start (this : Solver) (occupied : list Cell) (blacklist : list string)
  (minLength upper : Z) (start : Cell) (e : Candidate) :
  candidateOk this occupied blacklist minLength upper start e ->
  inBounds this (fst start) (snd start) = true /\ ~ In start occupied.
Proof.
  intros [[[rest Hrest] [_ [_ [Hin Hocc]]]] _]. split.
  - apply Hin. rewrite Hrest. left. reflexivity.
  - apply Hocc. rewrite Hrest. left. reflexivity.
Qed.

(** Every candidate is found: its word is returned, with a path of the
    same length. *)
Lemma findWordsDFS_finds (this : Solver) (occupied : list Cell) (blacklist : list string)
  (minLength maxLength startRow startCol : Z) (res : list Candidate)
  (w : string) (p : Path) :
  treeOfWordSet this ->
  Forall (fun w => noDollar w = true) (wordSet this) ->
  findWordsDFS this occupied blacklist minLength maxLength startRow startCol = Done res ->
  candidateOk this occupied blacklist minLength maxLength (startRow, startCol) (w, p) ->
  exists q, In (w, q) res /\ pathLen q = pathLen p.
Proof.
  intros Htree Hdollar H Hc.
  destruct (candidateOk_start _ _ _ _ _ _ _ Hc) as [Hb Hfree].
  destruct (findWordsDFS_searched _ _ _ _ _ _ _ _ H Hb Hfree) as [st [E [Hst ->]]].
  pose proof (searchFrom_finds this occupied blacklist minLength maxLength
                (startRow, startCol) Htree Hdollar startRow startCol st w p
                eq_refl E Hc) as Hhit.
  destruct Hst as [Hu Hh].
  destruct (replayHits_firstLongest (hits st)) as [_ Hhas].
  specialize (Hhas (w, p) Hhit). rewrite <- Hu in Hhas.
  apply mapHas_In in Hhas. apply in_map_iff in Hhas.
  destruct Hhas as [[w' q] [Hw Hq]]. simpl in Hw. subst w'.
  exists q. split; [apply jsSort_In; exact Hq |].
  assert (Hq' : In (w, q) (hits st)).
  { apply replayHits_subset. rewrite <- Hu. exact Hq. }
  rewrite Forall_forall in Hh. destruct (Hh _ Hq') as [_ Hlen]. simpl in Hlen.
  destruct Hc as [_ [_ [_ [_ Hsp]]]]. simpl in Hsp.
  rewrite <- Hlen. apply spells_length with (g := grid this). exact Hsp.
Qed.

(** The words returned are exactly the words of the candidates. *)
Lemma findWordsDFS_words (this : Solver) (occupied : list Cell) (blacklist : list string)
  (minLength maxLength startRow startCol : Z) (res : list Candidate) (w : string) :
  treeOfWordSet this ->
  Forall (fun w => noDollar w = true) (wordSet this) ->
  1 <= maxLength ->
  findWordsDFS this occupied blacklist minLength maxLength startRow startCol = Done res ->
  (In w (map fst res)
   <-> exists p,
         candidateOk this occupied blacklist minLength maxLength
                     (startRow, startCol) (w, p)).
Proof.
  intros Htree Hdollar Hmax H. split.
  - intros Hin. apply in_map_iff in Hin. destruct Hin as [[w' p] [Hw He]].
    simpl in Hw. subst w'. exists p.
    apply findWordsDFS_Done in H.
    destruct H as [-> | [st [_ [Hst ->]]]]; [destruct He |].
    destruct (stateOk_entries _ _ _ _ _ _ _ _ Hst He) as [[Hc _] _].
    rewrite Z.max_l in Hc by lia. exact Hc.
  - intros [p Hc].
    destruct (findWordsDFS_finds _ _ _ _ _ _ _ _ _ _ Htree Hdollar H Hc) as [q [Hq _]].
    apply in_map_iff. exists (w, q). split; [reflexivity | exact Hq].
Qed.

(** X4: the enumeration is complete.  For a solver holding the tree of its
    word list (no word with ['$']), every dictionary word that is not
    blacklisted, is [minLength] to [maxLength] letters long and is spelled
    by a simple 8-path from the start cell avoiding the occupied cells is
    returned, with a path as long as any path spelling it. *)
Theorem findWordsDFS_complete (this : Solver) (occupied : list Cell)
  (blacklist : list string) (minLength maxLength startRow startCol : Z)
  (res : list Candidate) (w : string) (p : Path) :
  treeOfWordSet this ->
  Forall (fun w => noDollar w = true) (wordSet this) ->
  findWordsDFS this occupied blacklist minLength maxLength startRow startCol = Done res ->
  simplePathFrom this occupied (startRow, startCol) p ->
  spells (grid this) p w ->
  In w (wordSet this) ->
  ~ In w blacklist ->
  minLength <= strLen w <= maxLength ->
  exists q, In (w, q) res /\ pathLen q = pathLen p.
Proof.
  intros Htree Hdollar H Hpath Hsp Hdict Hbl Hlen.
  apply (findWordsDFS_finds this occupied blacklist minLength maxLength
                            startRow startCol res w p Htree Hdollar H).
  split; [exact Hpath | split; [exact Hlen | split; [exact Hdict | split]]];
    assumption.
Qed.

Lemma findWordsDFS_complete_witness :
  exists q, In ("STARE"%string, q) resultSEA
            /\ pathLen q = pathLen [(0, 0); (1, 0); (1, 1); (1, 2); (0, 1)].
Proof.
  apply (findWordsDFS_complete solverSEA [] [] 4 15 0 0 resultSEA "STARE"
           [(0, 0); (1, 0); (1, 1); (1, 2); (0, 1)]).
  - reflexivity.
  - repeat constructor.
  - vm_compute. reflexivity.
  - split; [exists [(1, 0); (1, 1); (1, 2); (0, 1)]; reflexivity |].
    split; [unfold isPath8, neighbors8; simpl; repeat split; try lia; discriminate |].
    split; [repeat constructor; simpl; intuition discriminate |].
    split; [intros c Hc; simpl in Hc; intuition (subst; reflexivity) |].
    intros c _ [].
  - reflexivity.
  - simpl. tauto.
  - intros [].
  - vm_compute. split; discriminate.
Defined.

(** X5: on a solver that holds the tree of its word set, no word of which
    has a ['$'], and for [maxLength >= 1], the words returned are exactly
    the dictionary words, not blacklisted and of [minLength] to [maxLength]
    letters, that some simple 8-path from the start cell avoiding the
    occupied cells spells. *)
Theorem findWordsDFS_word_set (this : Solver) (occupied : list Cell)
  (blacklist : list string) (minLength maxLength startRow startCol : Z)
  (res : list Candidate) (w : string) :
  treeOfWordSet this ->
  Forall (fun w => noDollar w = true) (wordSet this) ->
  1 <= maxLength ->
  findWordsDFS this occupied blacklist minLength maxLength startRow startCol = Done res ->
  (In w (map fst res)
   <-> In w (wordSet this)
       /\ ~ In w blacklist
       /\ minLength <= strLen w <= maxLength
       /\ exists p,
            simplePathFrom this occupied (startRow, startCol) p
            /\ spells (grid this) p w).
Proof.
  intros Htree Hdollar Hmax H.
  rewrite (findWordsDFS_words this occupied blacklist minLength maxLength
                              startRow startCol res w Htree Hdollar Hmax H).
  unfold candidateOk. cbn [fst snd]. split.
  - intros [p [Hp [Hlen [Hd [Hb Hs]]]]].
    split; [exact Hd | split; [exact Hb | split; [exact Hlen |]]].
    exists p. split; assumption.
  - intros [Hd [Hb [Hlen [p [Hp Hs]]]]]. exists p.
    split; [exact Hp | split; [exact Hlen | split; [exact Hd | split; assumption]]].
Qed.

Lemma findWordsDFS_word_set_witness :
  In "STARE"%string (map fst resultSEA)
  <-> In "STARE"%string (wordSet solverSEA)
      /\ ~ In "STARE"%string []
      /\ 4 <= strLen "STARE" <= 15
      /\ exists p,
           simplePathFrom solverSEA [] (0, 0) p
           /\ spells (grid solverSEA) p "STARE".
Proof.
  apply (findWordsDFS_word_set solverSEA [] [] 4 15 0 0 resultSEA "STARE").
  - reflexivity.
  - repeat constructor.
  - lia.
  - vm_compute. reflexivity.
Defined.

(** X6: the blacklist only filters.  On a solver that holds the tree of its
    word set, no word of which has a ['$'], and for [maxLength >= 1]: with
    the same start cell, occupied cells and bounds, the words returned under
    a blacklist are the words returned under the empty blacklist that are
    not blacklisted. *)
Theorem findWordsDFS_blacklist_filters (this : Solver) (occupied : list Cell)
  (blacklist : list string) (minLength maxLength startRow startCol : Z)
  (res res0 : list Candidate) (w : string) :
  treeOfWordSet this ->
  Forall (fun w => noDollar w = true) (wordSet this) ->
  1 <= maxLength ->
  findWordsDFS this occupied blacklist minLength maxLength startRow startCol = Done res ->
  findWordsDFS this occupied [] minLength maxLength startRow startCol = Done res0 ->
  (In w (map fst res) <-> In w (map fst res0) /\ ~ In w blacklist).
Proof.
  intros Htree Hdollar Hmax H H0.
  rewrite (findWordsDFS_words _ _ _ _ _ _ _ _ w Htree Hdollar Hmax H).
  rewrite (findWordsDFS_words _ _ _ _ _ _ _ _ w Htree Hdollar Hmax H0).
  unfold candidateOk. cbn [fst snd]. split.
  - intros [p [Hp [Hlen [Hd [Hb Hs]]]]]. split; [| exact Hb].
    exists p.
    split; [exact Hp | split; [exact Hlen | split; [exact Hd | split]]];
      [intros [] | exact Hs].
  - intros [[p [Hp [Hlen [Hd [_ Hs]]]]] Hb].
    exists p.
    split; [exact Hp | split; [exact Hlen | split; [exact Hd | split; assumption]]].
Qed.

Lemma findWordsDFS_blacklist_filters_witness :
  In "STARE"%string (map fst (filter (fun e => negb (String.eqb (fst e) "SEAT")) resultSEA))
  <-> In "STARE"%string (map fst resultSEA) /\ ~ In "STARE"%string ["SEAT"%string].
Proof.
  apply (findWordsDFS_blacklist_filters solverSEA [] ["SEAT"%string] 4 15 0 0).
  - reflexivity.
  - repeat constructor.
  - lia.
  - vm_compute. reflexivity.
  - vm_compute. reflexivity.
Defined.

(** X7: occupying more cells never adds a word.  On a solver that holds the
    tree of its word set, no word of which has a ['$'], and for
    [maxLength >= 1]: when every cell occupied in the first run is occupied
    in the second (same start cell, blacklist and bounds), each word the
    second run returns is returned by the first. *)
Theorem findWordsDFS_occupied_antitone (this : Solver) (occupied occupied' : list Cell)
  (blacklist : list string) (minLength maxLength startRow startCol : Z)
  (res res' : list Candidate) (w : string) :
  treeOfWordSet this ->
  Forall (fun w => noDollar w = true) (wordSet this) ->
  1 <= maxLength ->
  (forall c, In c occupied -> In c occupied') ->
  findWordsDFS this occupied blacklist minLength maxLength startRow startCol = Done res ->
  findWordsDFS this occupied' blacklist minLength maxLength startRow startCol = Done res' ->
  In w (map fst res') -> In w (map fst res).
Proof.
  intros Htree Hdollar Hmax Hsub H H'.
  rewrite (findWordsDFS_words _ _ _ _ _ _ _ _ w Htree Hdollar Hmax H).
  rewrite (findWordsDFS_words _ _ _ _ _ _ _ _ w Htree Hdollar Hmax H').
  intros [p [[Hs [Hp8 [Hnd [Hin Hocc]]]] Hrest]]. exists p.
  split; [| exact Hrest].
  split; [exact Hs | split; [exact Hp8 | split; [exact Hnd | split; [exact Hin |]]]].
  intros c Hc Ho. exact (Hocc c Hc (Hsub c Ho)).
Qed.


(** ** The solver: where the placed words come from *)

Lemma subseq_nil_l {A : Type} (l : list A) : subseq [] l.
Proof. induction l; constructor; assumption. Qed.

Lemma subseq_In {A : Type} (l1 l2 : list A) (x : A) :
  subseq l1 l2 -> In x l1 -> In x l2.
Proof.
  induction 1 as [| y l1 l2 _ IH | y l1 l2 _ IH]; intros Hin.
  - exact Hin.
  - right. apply IH. exact Hin.
  - destruct Hin as [-> | Hin]; [left; reflexivity | right; apply IH; exact Hin].
Qed.

Lemma subseq_length {A : Type} (l1 l2 : list A) :
  subseq l1 l2 -> (List.length l1 <= List.length l2)%nat.
Proof. induction 1; simpl; lia. Qed.

Section SolverProvenance.
Variable this : Solver.
Variable onProgress : bool.
Variable shouldCancel : Z -> bool.
Variable maxAttempts : Z.

Lemma removeWord_best (st : SolveState) :
  bestSolution (removeWord st) = bestSolution st.
Proof.
  unfold removeWord. destruct (rev (currentSolution st)) as [| [w cs] below]; reflexivity.
Qed.

Lemma failed_search_same_board (ws : list Prioritized) (st : SolveState) :
  fst (solveRecursive this onProgress shouldCancel maxAttempts ws st) = false ->
  sameBoard st (snd (solveRecursive this onProgress shouldCancel maxAttempts ws st)).
Proof.
  destruct (solveRecursive_keeps this onProgress shouldCancel maxAttempts
              (fun _ => True)
              (fun _ _ => I) (fun _ _ => I) (fun _ _ _ _ _ => I)
              (fun _ _ _ _ _ _ _ _ => I) ws) as [H _].
  destruct (H st I) as [_ [Hf _]]. exact Hf.
Qed.

Lemma prologue_draws (ws : list Prioritized) :
  searchDraws ws (tryWords this onProgress shouldCancel maxAttempts ws) ->
  searchDraws ws (solveRecursive this onProgress shouldCancel maxAttempts ws).
Proof.
  intros Htry st. rewrite solveRecursive_unfold. cbv zeta.
  set (st1 := tick st).
  set (st2 := if attempts st1 mod 1000 =? 0 then pollUpdate onProgress st1 else st1).
  assert (H2 : currentSolution st2 = currentSolution st
               /\ (bestSolution st2 = bestSolution st
                   \/ bestSolution st2 = currentSolution st)).
  { unfold st2. destruct (attempts st1 mod 1000 =? 0); simpl.
    - split; [reflexivity |].
      destruct (bestCoverage st <? setSize (usedPositions st)); [right | left]; reflexivity.
    - split; [reflexivity | left; reflexivity]. }
  destruct H2 as [Hcur Hbest].
  assert (Hhere :
    (exists sub, subseq sub ws /\ currentSolution st2 = currentSolution st ++ placedOf sub)
    /\ (bestSolution st2 = bestSolution st
        \/ exists sub, subseq sub ws
                       /\ bestSolution st2 = currentSolution st ++ placedOf sub)).
  { split.
    - exists []. split; [apply subseq_nil_l | rewrite Hcur, app_nil_r; reflexivity].
    - destruct Hbest as [Hb | Hb]; [left; exact Hb | right].
      exists []. split; [apply subseq_nil_l | rewrite Hb, app_nil_r; reflexivity]. }
  destruct ((attempts st1 mod 1000 =? 0) && shouldCancel (attempts st2));
    [exact Hhere |].
  destruct (setSize (usedPositions st2) =? totalPositions this); [exact Hhere |].
  destruct (maxAttempts <? attempts st2); [exact Hhere |].
  destruct (Htry st2) as [[sub [Hsub Hc]] Hb]. rewrite Hcur in Hc, Hb. split.
  - exists sub. split; assumption.
  - destruct Hb as [Hb | Hb]; [| right; exact Hb].
    rewrite Hb. apply Hhere.
Qed.

Lemma solveRecursive_draws (ws : list Prioritized) :
  searchDraws ws (solveRecursive this onProgress shouldCancel maxAttempts ws)
  /\ searchDraws ws (tryWords this onProgress shouldCancel maxAttempts ws).
Proof.
  induction ws as [| w rest [IHsolve IHtry]].
  - assert (Htry : searchDraws [] (tryWords this onProgress shouldCancel maxAttempts [])).
    { intros st. simpl. split; [| left; reflexivity].
      exists []. split; [constructor | rewrite app_nil_r; reflexivity]. }
    split; [apply prologue_draws |]; exact Htry.
  - assert (Htry : searchDraws (w :: rest)
                     (tryWords this onProgress shouldCancel maxAttempts (w :: rest))).
    { intros st. rewrite tryWords_cons.
      destruct (canPlaceWord st (p_coords w)) eqn:Hcan.
      2:{ destruct (IHtry st) as [[sub [Hsub Hc]] Hb]. split.
          - exists sub. split; [constructor; exact Hsub | exact Hc].
          - destruct Hb as [Hb | [sub' [Hsub' Hb]]]; [left; exact Hb | right].
            exists sub'. split; [constructor; exact Hsub' | exact Hb]. }
      pose proof (IHsolve (placeWord st (p_word w) (p_coords w))) as Hrec.
      pose proof (failed_search_same_board rest (placeWord st (p_word w) (p_coords w)))
        as Hfail.
      destruct (solveRecursive this onProgress shouldCancel maxAttempts rest
                               (placeWord st (p_word w) (p_coords w)))
        as [solved st'] eqn:E.
      simpl in Hrec, Hfail. destruct Hrec as [[sub [Hsub Hc]] Hb].
      assert (Hb' : bestSolution st' = bestSolution st
                    \/ exists sub0, subseq sub0 (w :: rest)
                                    /\ bestSolution st'
                                       = currentSolution st ++ placedOf sub0).
      { destruct Hb as [Hb | [sub' [Hsub' Hb]]]; [left; exact Hb | right].
        exists (w :: sub'). split; [constructor; exact Hsub' |].
        rewrite Hb, <- app_assoc. reflexivity. }
      destruct solved.
      - simpl. split; [| exact Hb'].
        exists (w :: sub). split; [constructor; exact Hsub |].
        rewrite Hc, <- app_assoc. reflexivity.
      - specialize (Hfail eq_refl).
        destruct (removeWord_restores st st' (p_word w) (p_coords w) Hcan Hfail)
          as [Hsol _].
        destruct (IHtry (removeWord st')) as [[sub2 [Hsub2 Hc2]] Hb2].
        rewrite Hsol in Hc2, Hb2. rewrite removeWord_best in Hb2. split.
        + exists sub2. split; [constructor; exact Hsub2 | exact Hc2].
        + destruct Hb2 as [Hb2 | [sub3 [Hsub3 Hb3]]].
          * rewrite Hb2. exact Hb'.
          * right. exists sub3. split; [constructor; exact Hsub3 | exact Hb3]. }
    split; [apply prologue_draws |]; exact Htry.
Qed.

(** Every result is the existing words followed by pool words in priority
    order, each pool entry used at most once. *)
Lemma solvePuzzle_draws (allWords : list PoolWord) (existingWords R : list Candidate) :
  solvePuzzle this onProgress shouldCancel maxAttempts allWords existingWords = Some R ->
  exists sub,
    subseq sub (prioritizedWords this allWords)
    /\ R = existingWords ++ placedOf sub.
Proof.
  unfold solvePuzzle, runSolver.
  destruct (solveRecursive_draws (prioritizedWords this allWords)) as [H _].
  destruct (H (initialState existingWords)) as [[sub [Hsub Hc]] Hb].
  destruct (solveRecursive this onProgress shouldCancel maxAttempts
                           (prioritizedWords this allWords) (initialState existingWords))
    as [complete st].
  simpl in Hc, Hb. destruct complete.
  - intros E. inversion E; subst R. exists sub. split; assumption.
  - destruct (0 <? Z.of_nat (List.length (bestSolution st))) eqn:Hlen.
    + intros E. inversion E; subst R.
      destruct Hb as [Hb | Hb]; [rewrite Hb in Hlen; discriminate Hlen | exact Hb].
    + destruct (0 <? Z.of_nat (List.length existingWords)); [| discriminate].
      intros E. inversion E; subst R.
      exists []. split; [apply subseq_nil_l | rewrite app_nil_r; reflexivity].
Qed.

End SolverProvenance.

Lemma prioritizedWords_perm (this : Solver) (allWords : list PoolWord) :
  Permutation (prioritizedWords this allWords) (map (prioritize this) allWords).
Proof. unfold prioritizedWords. apply (jsSort_perm byPriority). Qed.

(** X8: the solver invents nothing.  Every result of [solvePuzzle] is the
    existing words followed by entries [[word, coords]] of pool words, taken
    in the order of the prioritised pool, each pool entry at most once; in
    particular each word placed is a word of [allWords] on its own path. *)
Theorem solvePuzzle_result_from_pool (this : Solver) (onProgress : bool)
  (shouldCancel : Z -> bool) (maxAttempts : Z)
  (allWords : list PoolWord) (existingWords R : list Candidate) :
  solvePuzzle this onProgress shouldCancel maxAttempts allWords existingWords = Some R ->
  exists sub,
    subseq sub (prioritizedWords this allWords)
    /\ R = existingWords ++ placedOf sub
    /\ forall e, In e (placedOf sub) ->
         exists pw, In pw allWords /\ e = (pw_word pw, pw_coords pw).
Proof.
  intros H.
  destruct (solvePuzzle_draws this onProgress shouldCancel maxAttempts
                              allWords existingWords R H) as [sub [Hsub HR]].
  exists sub. split; [exact Hsub | split; [exact HR |]].
  intros e He. unfold placedOf in He. apply in_map_iff in He.
  destruct He as [w [<- Hw]].
  apply (subseq_In _ _ _ Hsub) in Hw.
  apply (Permutation_in _ (prioritizedWords_perm this allWords)) in Hw.
  apply in_map_iff in Hw. destruct Hw as [pw [<- Hpw]].
  exists pw. split; [exact Hpw | reflexivity].
Qed.


(** ** The solver: the search is exhaustive *)

Section SolverExhaustive.
Variable this : Solver.
Variable onProgress : bool.
Variable shouldCancel : Z -> bool.
Variable maxAttempts : Z.
Hypothesis never_cancelled : forall a, shouldCancel a = false.

Lemma removeWord_attempts (st : SolveState) : attempts (removeWord st) = attempts st.
Proof.
  unfold removeWord. destruct (rev (currentSolution st)) as [| [w cs] below]; reflexivity.
Qed.

Lemma attempts_grow (ws : list Prioritized) (st : SolveState) :
  attempts st <= attempts (snd (solveRecursive this onProgress shouldCancel maxAttempts ws st))
  /\ attempts st <= attempts (snd (tryWords this onProgress shouldCancel maxAttempts ws st)).
Proof.
  destruct (solveRecursive_keeps this onProgress shouldCancel maxAttempts
              (fun s => attempts st <= attempts s)) with (ws := ws) as [H1 H2].
  - intros s H. simpl. lia.
  - intros s H. exact H.
  - intros s w cs H _. exact H.
  - intros s s' w cs _ _ H _. rewrite removeWord_attempts. exact H.
  - split; [apply (H1 st) | apply (H2 st)]; apply Z.le_refl.
Qed.

Lemma tryWords_exhaustive (ws : list Prioritized) :
  (forall st,
     fst (solveRecursive this onProgress shouldCancel maxAttempts ws st) = false ->
     attempts (snd (solveRecursive this onProgress shouldCancel maxAttempts ws st))
     <= maxAttempts ->
     forall sub, subseq sub ws ->
       ~ tilesFrom (totalPositions this) (usedPositions st) sub)
  /\ (forall st,
        setSize (usedPositions st) <> totalPositions this ->
        fst (tryWords this onProgress shouldCancel maxAttempts ws st) = false ->
        attempts (snd (tryWords this onProgress shouldCancel maxAttempts ws st))
        <= maxAttempts ->
        forall sub, subseq sub ws ->
          ~ tilesFrom (totalPositions this) (usedPositions st) sub).
Proof.
  assert (Hpro : forall ws,
    (forall st,
        setSize (usedPositions st) <> totalPositions this ->
        fst (tryWords this onProgress shouldCancel maxAttempts ws st) = false ->
        attempts (snd (tryWords this onProgress shouldCancel maxAttempts ws st))
        <= maxAttempts ->
        forall sub, subseq sub ws ->
          ~ tilesFrom (totalPositions this) (usedPositions st) sub) ->
    forall st,
     fst (solveRecursive this onProgress shouldCancel maxAttempts ws st) = false ->
     attempts (snd (solveRecursive this onProgress shouldCancel maxAttempts ws st))
     <= maxAttempts ->
     forall sub, subseq sub ws ->
       ~ tilesFrom (totalPositions this) (usedPositions st) sub).
  { intros l Htry st. rewrite solveRecursive_unfold. cbv zeta.
    set (st1 := tick st).
    set (st2 := if attempts st1 mod 1000 =? 0 then pollUpdate onProgress st1 else st1).
    assert (Hused : usedPositions st2 = usedPositions st).
    { unfold st2. destruct (attempts st1 mod 1000 =? 0); reflexivity. }
    rewrite never_cancelled, andb_false_r.
    destruct (setSize (usedPositions st2) =? totalPositions this) eqn:Hfull;
      [discriminate |].
    apply Z.eqb_neq in Hfull.
    destruct (maxAttempts <? attempts st2) eqn:Hmax.
    { simpl. intros _ Hle. apply Z.ltb_lt in Hmax. lia. }
    intros Hf Hle sub Hsub. rewrite <- Hused.
    apply (Htry st2 Hfull Hf Hle sub Hsub). }
  induction ws as [| w rest [IHsolve IHtry]].
  - assert (Htry : forall st,
        setSize (usedPositions st) <> totalPositions this ->
        fst (tryWords this onProgress shouldCancel maxAttempts [] st) = false ->
        attempts (snd (tryWords this onProgress shouldCancel maxAttempts [] st))
        <= maxAttempts ->
        forall sub, subseq sub [] ->
          ~ tilesFrom (totalPositions this) (usedPositions st) sub).
    { intros st Hnf _ _ sub Hsub. inversion Hsub; subst. exact Hnf. }
    split; [apply Hpro |]; exact Htry.
  - assert (Htry : forall st,
        setSize (usedPositions st) <> totalPositions this ->
        fst (tryWords this onProgress shouldCancel maxAttempts (w :: rest) st) = false ->
        attempts (snd (tryWords this onProgress shouldCancel maxAttempts (w :: rest) st))
        <= maxAttempts ->
        forall sub, subseq sub (w :: rest) ->
          ~ tilesFrom (totalPositions this) (usedPositions st) sub).
    { intros st Hnf. rewrite tryWords_cons.
      destruct (canPlaceWord st (p_coords w)) eqn:Hcan.
      2:{ intros Hf Hle sub Hsub.
          inversion Hsub as [| x l1 l2 Hs | x l1 l2 Hs]; subst.
          - apply (IHtry st Hnf Hf Hle sub Hs).
          - intros [Hfit _]. unfold canPlaceWord in Hcan.
            rewrite Hfit in Hcan. discriminate Hcan. }
      pose proof (IHsolve (placeWord st (p_word w) (p_coords w))) as Hrec.
      pose proof (failed_search_same_board this onProgress shouldCancel maxAttempts
                    rest (placeWord st (p_word w) (p_coords w))) as Hfail.
      destruct (solveRecursive this onProgress shouldCancel maxAttempts rest
                               (placeWord st (p_word w) (p_coords w)))
        as [solved st'] eqn:E.
      simpl in Hrec, Hfail. destruct solved; [discriminate |].
      specialize (Hfail eq_refl).
      destruct (removeWord_restores st st' (p_word w) (p_coords w) Hcan Hfail)
        as [_ Hused].
      intros Hf Hle sub Hsub.
      destruct (attempts_grow rest (removeWord st')) as [_ Hgrow].
      rewrite removeWord_attempts in Hgrow.
      inversion Hsub as [| x l1 l2 Hs | x l1 l2 Hs]; subst.
      - rewrite <- Hused.
        apply (IHtry (removeWord st')); [rewrite Hused; exact Hnf | exact Hf | exact Hle
                                         | exact Hs].
      - intros [_ Htiles].
        apply (Hrec eq_refl (Z.le_trans _ _ _ Hgrow Hle) l1 Hs). exact Htiles. }
    split; [apply Hpro |]; exact Htry.
Qed.

End SolverExhaustive.

(** X9: the search is exhaustive.  When the cancel hook never answers
    [true] and the run ends with [attempts] within [maxAttempts], a run that
    does not report a complete solution shows that there is none: no
    selection of pool entries, in the order of the prioritised pool, fits
    cell-disjointly above the existing words and marks every cell. *)
Theorem solver_exhaustive (this : Solver) (onProgress : bool)
  (shouldCancel : Z -> bool) (maxAttempts : Z)
  (allWords : list PoolWord) (existingWords : list Candidate) (sub : list Prioritized) :
  (forall a, shouldCancel a = false) ->
  fst (runSolver this onProgress shouldCancel maxAttempts allWords existingWords) = false ->
  attempts (snd (runSolver this onProgress shouldCancel maxAttempts allWords existingWords))
  <= maxAttempts ->
  subseq sub (prioritizedWords this allWords) ->
  ~ tilesFrom (totalPositions this) (usedOf existingWords) sub.
Proof.
  intros Hnever Hf Hle Hsub.
  destruct (tryWords_exhaustive this onProgress shouldCancel maxAttempts Hnever
              (prioritizedWords this allWords)) as [H _].
  exact (H (initialState existingWords) Hf Hle sub Hsub).
Qed.


(** ** The solver: the order of the pool *)







(** ** The pool of candidates *)

Lemma collect_fold (this : Solver) (used : list Cell) (blacklist : list string)
  (cells : list Cell) :
  forall (o : Outcome (list PoolWord)) (pool : list PoolWord),
    fold_left
      (fun acc cell =>
         allPossibleWords <- acc ;;
         wordsFromPos <- findWordsDFS this used blacklist 4 15 (fst cell) (snd cell) ;;
         Done (allPossibleWords
               ++ map (fun wc => mkPoolWord (fst wc) (snd wc) (pathLen (snd wc)))
                      wordsFromPos))
      cells o = Done pool ->
    exists acc,
      o = Done acc
      /\ (forall cell, In cell cells ->
            exists res, findWordsDFS this used blacklist 4 15 (fst cell) (snd cell)
                        = Done res)
      /\ forall pw,
           In pw pool
           <-> In pw acc
               \/ exists cell res e,
                    In cell cells
                    /\ findWordsDFS this used blacklist 4 15 (fst cell) (snd cell)
                       = Done res
                    /\ In e res /\ pw = poolEntry e.
Proof.
  induction cells as [| cell cells IH]; intros o pool H.
  - simpl in H. exists pool. split; [exact H | split].
    + intros c [].
    + intros pw. split; [intros Hin; left; exact Hin |].
      intros [Hin | [c [res [e [[] _]]]]]. exact Hin.
  - simpl in H. destruct (IH _ _ H) as [acc1 [E1 [Hall Hiff]]].
    destruct o as [acc | |]; simpl in E1; try discriminate E1.
    destruct (findWordsDFS this used blacklist 4 15 (fst cell) (snd cell))
      as [res | |] eqn:Ef; simpl in E1; try discriminate E1.
    inversion E1; subst acc1.
    exists acc. split; [reflexivity | split].
    + intros c [<- | Hc]; [exists res; exact Ef | apply Hall; exact Hc].
    + intros pw. rewrite Hiff, in_app_iff, in_map_iff. split.
      * intros [[Hin | [e [<- He]]] | [c [r [e [Hc [Er [He ->]]]]]]].
        -- left. exact Hin.
        -- right. exists cell, res, e.
           split; [left; reflexivity | split; [exact Ef | split; [exact He | reflexivity]]].
        -- right. exists c, r, e.
           split; [right; exact Hc | split; [exact Er | split; [exact He | reflexivity]]].
      * intros [Hin | [c [r [e [[<- | Hc] [Er [He ->]]]]]]].
        -- left. left. exact Hin.
        -- left. right. rewrite Ef in Er. inversion Er; subst r.
           exists e. split; [reflexivity | exact He].
        -- right. exists c, r, e.
           split; [exact Hc | split; [exact Er | split; [exact He | reflexivity]]].
Qed.

Lemma collectAllWords_entries (this : Solver) (used : list Cell) (blacklist : list string)
  (pool : list PoolWord) :
  collectAllWords this used blacklist = Done pool ->
  (forall cell, In cell (allCells (grid this)) ->
     exists res, findWordsDFS this used blacklist 4 15 (fst cell) (snd cell) = Done res)
  /\ forall pw,
       In pw pool
       <-> exists cell res e,
             In cell (allCells (grid this))
             /\ findWordsDFS this used blacklist 4 15 (fst cell) (snd cell) = Done res
             /\ In e res /\ pw = poolEntry e.
Proof.
  intros H. unfold collectAllWords in H.
  destruct (collect_fold this used blacklist _ _ _ H) as [acc [E [Hall Hiff]]].
  inversion E; subst acc. split; [exact Hall |].
  intros pw. rewrite Hiff. split; [intros [[] | Hex]; exact Hex | intros Hex; right; exact Hex].
Qed.

(** A returned candidate is a candidate as promised, with one letter per
    cell. *)
Lemma findWordsDFS_entry (this : Solver) (occupied : list Cell) (blacklist : list string)
  (minLength maxLength startRow startCol : Z) (res : list Candidate) (e : Candidate) :
  1 <= maxLength ->
  findWordsDFS this occupied blacklist minLength maxLength startRow startCol = Done res ->
  In e res ->
  candidateOk this occupied blacklist minLength maxLength (startRow, startCol) e
  /\ strLen (fst e) = pathLen (snd e).
Proof.
  intros Hmax H He. apply findWordsDFS_Done in H.
  destruct H as [-> | [st [_ [Hst ->]]]]; [destruct He |].
  destruct (stateOk_entries _ _ _ _ _ _ _ _ Hst He) as [[Hc Hlen] _].
  rewrite Z.max_l in Hc by lia. split; assumption.
Qed.

Lemma allCells_In (this : Solver) (c : Cell) :
  asConstructed this ->
  (In c (allCells (grid this)) <-> inBounds this (fst c) (snd c) = true).
Proof.
  unfold asConstructed, newSolver. intros H.
  destruct (buildPrefixTree (wordSet this)) as [t | |]; simpl in H; try discriminate H.
  destruct (grid this) as [| r0 g'] eqn:Eg; simpl in H; [discriminate H |].
  injection H as Hthis. rewrite inBounds_range.
  assert (Hr : rows this = gridRows (r0 :: g')) by (rewrite <- Hthis; reflexivity).
  assert (Hc : cols this = Z.of_nat (List.length r0)) by (rewrite <- Hthis; reflexivity).
  rewrite Hr, Hc. unfold allCells. rewrite in_flat_map. split.
  - intros [row [Hrow Hin]]. apply in_map_iff in Hin. destruct Hin as [col [<- Hcol]].
    apply indexRange_In in Hrow, Hcol. simpl. split; assumption.
  - intros [Hrow Hcol]. exists (fst c). split; [apply indexRange_In; exact Hrow |].
    apply in_map_iff. exists (snd c). split; [destruct c; reflexivity |].
    apply indexRange_In. exact Hcol.
Qed.

Lemma asConstructed_tree (this : Solver) : asConstructed this -> treeOfWordSet this.
Proof.
  unfold asConstructed, newSolver, treeOfWordSet. intros H.
  destruct (buildPrefixTree (wordSet this)) as [t | |]; simpl in H; try discriminate H.
  destruct (gridCols (grid this)) as [c | |]; simpl in H; try discriminate H.
  injection H as Hthis. rewrite <- Hthis. reflexivity.
Qed.

(** X11: every entry of the pool that [attemptSolve] collects is a
    candidate: a dictionary word of 4 to 15 letters, not blacklisted, spelled
    along its path, a simple 8-path inside the grid that avoids the cells of
    the set words; its third component is the length of the path, which is
    the length of the word. *)
Theorem collectAllWords_sound (this : Solver) (used : list Cell) (blacklist : list string)
  (pool : list PoolWord) (pw : PoolWord) :
  collectAllWords this used blacklist = Done pool ->
  In pw pool ->
  (exists start,
      In start (allCells (grid this))
      /\ candidateOk this used blacklist 4 15 start (pw_word pw, pw_coords pw))
  /\ pw_length pw = pathLen (pw_coords pw)
  /\ pw_length pw = strLen (pw_word pw).
Proof.
  intros H Hin.
  destruct (collectAllWords_entries this used blacklist pool H) as [_ Hiff].
  apply Hiff in Hin. destruct Hin as [[r c] [res [e [Hcell [Ef [He ->]]]]]].
  simpl in Ef.
  destruct (findWordsDFS_entry this used blacklist 4 15 r c res e) as [Hc Hlen];
    [lia | exact Ef | exact He |].
  destruct e as [w p]. simpl in *.
  split; [exists (r, c); split; assumption | split; [reflexivity | symmetry; exact Hlen]].
Qed.

(** X12: the pool misses no word.  For a solver as constructed, with a
    word list without ['$'], every candidate of 4 to 15 letters from any
    cell of the grid has its word in the pool, on a path of the same length
    from the same cell. *)
Theorem collectAllWords_complete (this : Solver) (used : list Cell)
  (blacklist : list string) (pool : list PoolWord)
  (start : Cell) (w : string) (p : Path) :
  asConstructed this ->
  Forall (fun w => noDollar w = true) (wordSet this) ->
  collectAllWords this used blacklist = Done pool ->
  candidateOk this used blacklist 4 15 start (w, p) ->
  exists q,
    In (mkPoolWord w q (pathLen q)) pool
    /\ pathLen q = pathLen p
    /\ hd_error q = Some start.
Proof.
  intros Hcon Hdollar H Hc.
  destruct (collectAllWords_entries this used blacklist pool H) as [Hall Hiff].
  destruct (candidateOk_start _ _ _ _ _ _ _ Hc) as [Hb _].
  apply (allCells_In this start Hcon) in Hb.
  destruct (Hall start Hb) as [res Ef].
  destruct start as [r c]. simpl in Ef.
  destruct (findWordsDFS_finds this used blacklist 4 15 r c res w p
              (asConstructed_tree this Hcon) Hdollar Ef Hc) as [q [Hq Hlen]].
  exists q. split; [| split; [exact Hlen |]].
  - apply Hiff. exists (r, c), res, (w, q).
    split; [exact Hb | split; [exact Ef | split; [exact Hq | reflexivity]]].
  - destruct (findWordsDFS_entry this used blacklist 4 15 r c res (w, q)) as [Hcq _];
      [lia | exact Ef | exact Hq |].
    destruct Hcq as [[[rest Hrest] _] _]. simpl in Hrest. rewrite Hrest. reflexivity.
Qed.

(** ** The word manager *)

Lemma hasSetWord_In (l : list Candidate) (w : string) :
  hasSetWord l w = true <-> In w (map fst l).
Proof.
  unfold hasSetWord. rewrite existsb_exists, in_map_iff. split.
  - intros [e [He Heq]]. apply String.eqb_eq in Heq. exists e. split; assumption.
  - intros [e [Heq He]]. exists e. split; [exact He | apply String.eqb_eq; exact Heq].
Qed.

Lemma hasSetWord_false (l : list Candidate) (w : string) :
  hasSetWord l w = false <-> ~ In w (map fst l).
Proof.
  rewrite <- hasSetWord_In. destruct (hasSetWord l w); split; intros H;
    try reflexivity; try discriminate; try (intros H'; discriminate H').
  contradiction H. reflexivity.
Qed.

Lemma getUsedPositions_usedOf (wm : WordManager) :
  getUsedPositions wm = usedOf (setWords wm).
Proof. reflexivity. Qed.

Lemma addSetWord_fold (sol : list Candidate) (wm : WordManager) :
  setWords (fold_left (fun m e => addSetWord m (fst e) (snd e)) sol wm)
  = setWords wm ++ firstByWord sol (setWords wm)
  /\ blacklistedWords (fold_left (fun m e => addSetWord m (fst e) (snd e)) sol wm)
     = blacklistedWords wm
  /\ selectedSetWordIndex (fold_left (fun m e => addSetWord m (fst e) (snd e)) sol wm)
     = selectedSetWordIndex wm.
Proof.
  revert wm. induction sol as [| [w p] sol IH]; intros wm.
  - simpl. rewrite app_nil_r. repeat split.
  - simpl fold_left. destruct (IH (addSetWord wm w p)) as [H1 [H2 H3]].
    rewrite H1, H2, H3. unfold addSetWord. simpl firstByWord.
    destruct (hasSetWord (setWords wm) w); simpl.
    + repeat split.
    + rewrite <- app_assoc. repeat split.
Qed.

Lemma firstByWord_subseq (l seen : list Candidate) : subseq (firstByWord l seen) l.
Proof.
  revert seen. induction l as [| e l IH]; intros seen; simpl; [constructor |].
  destruct (hasSetWord seen (fst e)); constructor; apply IH.
Qed.

Lemma firstByWord_NoDup (l seen : list Candidate) :
  NoDup (map fst seen) -> NoDup (map fst (seen ++ firstByWord l seen)).
Proof.
  revert seen. induction l as [| e l IH]; intros seen Hnd; simpl.
  - rewrite app_nil_r. exact Hnd.
  - destruct (hasSetWord seen (fst e)) eqn:E; [apply IH; exact Hnd |].
    apply hasSetWord_false in E.
    change (seen ++ e :: firstByWord l (seen ++ [e]))
      with (seen ++ [e] ++ firstByWord l (seen ++ [e])).
    rewrite app_assoc. apply IH. rewrite map_app. simpl.
    apply NoDup_app; [exact Hnd | repeat constructor; intros [] |].
    intros a Ha [<- | []]. exact (E Ha).
Qed.

Lemma firstByWord_keys (l seen : list Candidate) (w : string) :
  In w (map fst (seen ++ firstByWord l seen)) <-> In w (map fst (seen ++ l)).
Proof.
  revert seen. induction l as [| e l IH]; intros seen; simpl.
  - reflexivity.
  - destruct (hasSetWord seen (fst e)) eqn:E.
    + rewrite IH, !map_app, !in_app_iff. simpl. apply hasSetWord_In in E.
      split; [tauto | intros [H | [<- | H]]; tauto].
    + change (seen ++ e :: firstByWord l (seen ++ [e]))
        with (seen ++ [e] ++ firstByWord l (seen ++ [e])).
      change (seen ++ e :: l) with (seen ++ [e] ++ l).
      rewrite !app_assoc. apply IH.
Qed.

Lemma firstByWord_fresh (l seen : list Candidate) :
  NoDup (map fst (seen ++ l)) -> firstByWord l seen = l.
Proof.
  revert seen. induction l as [| e l IH]; intros seen Hnd; simpl; [reflexivity |].
  destruct (hasSetWord seen (fst e)) eqn:E.
  - exfalso. apply hasSetWord_In in E. rewrite map_app in Hnd. simpl in Hnd.
    apply NoDup_remove_2 in Hnd. apply Hnd. apply in_or_app. left. exact E.
  - f_equal. apply IH. rewrite <- app_assoc. exact Hnd.
Qed.

Lemma firstByWord_app (a b seen : list Candidate) :
  NoDup (map fst (seen ++ a)) ->
  firstByWord (a ++ b) seen = a ++ firstByWord b (seen ++ a).
Proof.
  revert seen. induction a as [| e a IH]; intros seen Hnd; simpl.
  - rewrite app_nil_r. reflexivity.
  - destruct (hasSetWord seen (fst e)) eqn:E.
    + exfalso. apply hasSetWord_In in E. rewrite map_app in Hnd. simpl in Hnd.
      apply NoDup_remove_2 in Hnd. apply Hnd. apply in_or_app. left. exact E.
    + f_equal. rewrite IH by (rewrite <- app_assoc; exact Hnd).
      rewrite <- app_assoc. reflexivity.
Qed.

Lemma ForallOrdPairs_subseq {A : Type} (R : A -> A -> Prop) (l1 l2 : list A) :
  subseq l1 l2 -> ForallOrdPairs R l2 -> ForallOrdPairs R l1.
Proof.
  induction 1 as [| x l1 l2 Hs IH | x l1 l2 Hs IH]; intros H.
  - exact H.
  - inversion H; subst. apply IH. assumption.
  - inversion H as [| ? ? Hx Hl]; subst. constructor; [| apply IH; exact Hl].
    rewrite Forall_forall in Hx |- *. intros y Hy. apply Hx.
    apply (subseq_In _ _ _ Hs). exact Hy.
Qed.

Lemma subseq_app_l {A : Type} (a l1 l2 : list A) :
  subseq l1 l2 -> subseq (a ++ l1) (a ++ l2).
Proof. intros H. induction a; simpl; [exact H | constructor; assumption]. Qed.

Lemma applySolution_setWords (wm : WordManager) (sol : list Candidate) :
  setWords (applySolution wm sol) = firstByWord sol []
  /\ blacklistedWords (applySolution wm sol) = blacklistedWords wm.
Proof.
  unfold applySolution.
  destruct (addSetWord_fold sol (clearSetWords wm)) as [H1 [H2 _]].
  rewrite H1, H2. split; reflexivity.
Qed.

(** X13: applying a solution keeps the first entry of each word.  After
    "Apply solution" the set words are the entries of the solution whose
    word did not occur earlier in it, in order: all the words of the
    solution are set, none twice, and a solution without a repeated word
    is taken over as it is. *)
Theorem applySolution_first_by_word (wm : WordManager) (sol : list Candidate) :
  setWords (applySolution wm sol) = firstByWord sol []
  /\ subseq (setWords (applySolution wm sol)) sol
  /\ NoDup (map fst (setWords (applySolution wm sol)))
  /\ (forall w, In w (map fst (setWords (applySolution wm sol))) <-> In w (map fst sol))
  /\ (NoDup (map fst sol) -> setWords (applySolution wm sol) = sol).
Proof.
  destruct (applySolution_setWords wm sol) as [E _]. rewrite E.
  split; [reflexivity | split; [apply firstByWord_subseq | split; [| split]]].
  - apply (firstByWord_NoDup sol []). constructor.
  - intros w. apply (firstByWord_keys sol [] w).
  - intros Hnd. apply (firstByWord_fresh sol []). exact Hnd.
Qed.

Lemma solvePuzzle_disjoint (this : Solver) (onProgress : bool)
  (shouldCancel : Z -> bool) (maxAttempts : Z)
  (allWords : list PoolWord) (existingWords R : list Candidate) :
  pairwiseDisjoint existingWords ->
  solvePuzzle this onProgress shouldCancel maxAttempts allWords existingWords = Some R ->
  pairwiseDisjoint R.
Proof.
  intros Hd. unfold solvePuzzle, runSolver.
  destruct (boardOk_keeps this onProgress shouldCancel maxAttempts existingWords
              (prioritizedWords this allWords) (initialState existingWords)
              (boardOk_initial existingWords Hd)) as [[Hcur [_ Hbest]] _].
  destruct (solveRecursive this onProgress shouldCancel maxAttempts
                           (prioritizedWords this allWords) (initialState existingWords))
    as [complete st]. simpl in Hcur, Hbest.
  destruct complete.
  - intros H. inversion H; subst. apply Hcur.
  - destruct (0 <? Z.of_nat (List.length (bestSolution st))) eqn:Hlen.
    + intros H. inversion H; subst.
      destruct Hbest as [E | [_ Hdis]]; [| exact Hdis].
      rewrite E in Hlen. discriminate Hlen.
    + destruct (0 <? Z.of_nat (List.length existingWords)); [| discriminate].
      intros H. inversion H; subst. exact Hd.
Qed.

(** What [attemptSolve] leaves as set words: the set words it found, in
    place, followed by candidates from the pool. *)
Lemma attemptSolve_setWords (this : Solver) (wm wm' : WordManager) (cancelled : bool)
  (maxAttempts : Z) :
  attemptSolve this wm cancelled maxAttempts = Done wm' ->
  NoDup (map fst (setWords wm)) ->
  blacklistedWords wm' = blacklistedWords wm
  /\ NoDup (map fst (setWords wm'))
  /\ (pairwiseDisjoint (setWords wm) -> pairwiseDisjoint (setWords wm'))
  /\ exists added,
       setWords wm' = setWords wm ++ added
       /\ forall e, In e added ->
            exists start,
              candidateOk this (getUsedPositions wm) (blacklistedWords wm) 4 15 start e.
Proof.
  unfold attemptSolve. intros H Hnd.
  destruct (collectAllWords this (getUsedPositions wm) (blacklistedWords wm))
    as [pool | |] eqn:Epool; simpl in H; try discriminate H.
  assert (Hsame : Done wm = Done wm' ->
            blacklistedWords wm' = blacklistedWords wm
            /\ NoDup (map fst (setWords wm'))
            /\ (pairwiseDisjoint (setWords wm) -> pairwiseDisjoint (setWords wm'))
            /\ exists added,
                 setWords wm' = setWords wm ++ added
                 /\ forall e, In e added ->
                      exists start,
                        candidateOk this (getUsedPositions wm) (blacklistedWords wm)
                                    4 15 start e).
  { intros E. inversion E; subst wm'.
    split; [reflexivity | split; [exact Hnd | split; [exact (fun h => h) |]]].
    exists []. split; [rewrite app_nil_r; reflexivity | intros e []]. }
  destruct cancelled; [apply Hsame; exact H |].
  destruct (solvePuzzle this true (fun _ => false) maxAttempts pool (setWords wm))
    as [sol |] eqn:Esol; [| apply Hsame; exact H].
  inversion H; subst wm'. clear H Hsame.
  destruct (applySolution_setWords wm sol) as [Eset Ebl].
  destruct (solvePuzzle_draws this true (fun _ => false) maxAttempts pool
                              (setWords wm) sol Esol) as [sub [Hsub Hsol]].
  assert (Hfirst : firstByWord sol []
                   = setWords wm ++ firstByWord (placedOf sub) (setWords wm)).
  { rewrite Hsol. apply (firstByWord_app (setWords wm) (placedOf sub) []). exact Hnd. }
  split; [exact Ebl | split; [| split]].
  - rewrite Eset. apply (firstByWord_NoDup sol []). constructor.
  - intros Hd. rewrite Eset.
    apply (ForallOrdPairs_subseq _ _ sol (firstByWord_subseq sol [])).
    apply (solvePuzzle_disjoint this true (fun _ => false) maxAttempts pool
                                (setWords wm) sol Hd Esol).
  - exists (firstByWord (placedOf sub) (setWords wm)).
    split; [rewrite Eset; exact Hfirst |].
    intros e He.
    apply (subseq_In _ _ _ (firstByWord_subseq _ _)) in He.
    unfold placedOf in He. apply in_map_iff in He. destruct He as [w [<- Hw]].
    apply (subseq_In _ _ _ Hsub) in Hw.
    apply (Permutation_in _ (prioritizedWords_perm this pool)) in Hw.
    apply in_map_iff in Hw. destruct Hw as [pw [<- Hpw]].
    destruct (collectAllWords_entries this _ _ pool Epool) as [_ Hiff].
    apply Hiff in Hpw. destruct Hpw as [[r c] [res [e [_ [Ef [He ->]]]]]].
    simpl in Ef. exists (r, c).
    destruct (findWordsDFS_entry this (getUsedPositions wm) (blacklistedWords wm)
                                 4 15 r c res e) as [Hc _];
      [lia | exact Ef | exact He |].
    destruct e as [w' p']. exact Hc.
Qed.

(** X14: what "Solve" leaves on the board.  When no word is set twice,
    [attemptSolve] keeps the set words it found, in place, and whatever it
    adds is a candidate of the search made with those set words and the
    blacklist: a dictionary word of 4 to 15 letters, not blacklisted, spelled
    along a simple 8-path that avoids the cells already used.  The set words
    stay without a repeated word, and stay cell-disjoint if they were; the
    blacklist is not changed. *)
Theorem attemptSolve_keeps_and_adds (this : Solver) (wm wm' : WordManager)
  (cancelled : bool) (maxAttempts : Z) :
  attemptSolve this wm cancelled maxAttempts = Done wm' ->
  NoDup (map fst (setWords wm)) ->
  blacklistedWords wm' = blacklistedWords wm
  /\ NoDup (map fst (setWords wm'))
  /\ (pairwiseDisjoint (setWords wm) -> pairwiseDisjoint (setWords wm'))
  /\ exists added,
       setWords wm' = setWords wm ++ added
       /\ forall e, In e added ->
            exists start,
              candidateOk this (getUsedPositions wm) (blacklistedWords wm) 4 15 start e.
Proof. exact (attemptSolve_setWords this wm wm' cancelled maxAttempts). Qed.


Lemma spliceOne_split {A : Type} (l : list A) (i : nat) (x : A) :
  nth_error l i = Some x ->
  exists l1 l2,
    l = l1 ++ x :: l2 /\ List.length l1 = i /\ spliceOne l i = l1 ++ l2.
Proof.
  intros H. destruct (nth_error_split l i H) as [l1 [l2 [Hl Hlen]]].
  exists l1, l2. split; [exact Hl | split; [exact Hlen |]].
  unfold spliceOne. subst l i. clear H.
  induction l1 as [| a l1 IH]; [reflexivity |].
  simpl. f_equal. exact IH.
Qed.

Lemma spliceOne_nth {A : Type} (l : list A) (i j : nat) (x : A) :
  nth_error l i = Some x ->
  nth_error (spliceOne l i) j
  = if (j <? i)%nat then nth_error l j else nth_error l (S j).
Proof.
  intros H. destruct (spliceOne_split l i x H) as [l1 [l2 [Hl [Hlen ->]]]].
  subst l i. destruct (j <? List.length l1)%nat eqn:E.
  - apply Nat.ltb_lt in E. rewrite !nth_error_app1 by exact E. reflexivity.
  - apply Nat.ltb_ge in E. rewrite !nth_error_app2 by lia.
    replace (S j - List.length l1)%nat with (S (j - List.length l1)) by lia.
    reflexivity.
Qed.

Lemma spliceOne_subseq {A : Type} (l : list A) (i : nat) (x : A) :
  nth_error l i = Some x -> subseq (spliceOne l i) l.
Proof.
  intros H. destruct (spliceOne_split l i x H) as [l1 [l2 [Hl [_ ->]]]].
  rewrite Hl. apply subseq_app_l. constructor.
  clear. induction l2; constructor; assumption.
Qed.

Lemma subseq_map {A B : Type} (f : A -> B) (l1 l2 : list A) :
  subseq l1 l2 -> subseq (map f l1) (map f l2).
Proof. induction 1; simpl; constructor; assumption. Qed.

Lemma subseq_NoDup {A : Type} (l1 l2 : list A) :
  subseq l1 l2 -> NoDup l2 -> NoDup l1.
Proof.
  induction 1 as [| x l1 l2 Hs IH | x l1 l2 Hs IH]; intros H.
  - exact H.
  - inversion H; subst. apply IH. assumption.
  - inversion H as [| ? ? Hx Hl]; subst. constructor; [| apply IH; exact Hl].
    intros Hin. apply Hx. apply (subseq_In _ _ _ Hs). exact Hin.
Qed.

Lemma removeSetWord_in_range (wm : WordManager) (index : Z) :
  0 <= index < Z.of_nat (List.length (setWords wm)) ->
  exists removed,
    nth_error (setWords wm) (Z.to_nat index) = Some removed
    /\ removeSetWord wm index
       = (mkWordManager (spliceOne (setWords wm) (Z.to_nat index))
                        (blacklistedWords wm)
                        (if selectedSetWordIndex wm =? index then -1
                         else if index <? selectedSetWordIndex wm
                              then selectedSetWordIndex wm - 1
                              else selectedSetWordIndex wm)
                        (foundWordsData wm) (selectedFoundWordIndex wm),
          Some removed).
Proof.
  intros Hr. unfold removeSetWord.
  assert (E : (0 <=? index) && (index <? Z.of_nat (List.length (setWords wm))) = true).
  { apply andb_true_iff. split; [apply Z.leb_le | apply Z.ltb_lt]; lia. }
  rewrite E.
  destruct (nth_error (setWords wm) (Z.to_nat index)) as [removed |] eqn:En.
  - exists removed. split; reflexivity.
  - apply nth_error_None in En. lia.
Qed.

Lemma removeSetWord_out_of_range (wm : WordManager) (index : Z) :
  ~ 0 <= index < Z.of_nat (List.length (setWords wm)) ->
  removeSetWord wm index = (wm, None).
Proof.
  intros Hr. unfold removeSetWord.
  destruct ((0 <=? index) && (index <? Z.of_nat (List.length (setWords wm)))) eqn:E;
    [| reflexivity].
  apply andb_true_iff in E. destruct E as [E1 E2].
  apply Z.leb_le in E1. apply Z.ltb_lt in E2. lia.
Qed.

Lemma spliceOne_length {A : Type} (l : list A) (i : nat) (x : A) :
  nth_error l i = Some x -> List.length l = S (List.length (spliceOne l i)).
Proof.
  intros H. destruct (spliceOne_split l i x H) as [l1 [l2 [Hl [_ ->]]]].
  rewrite Hl, !length_app. simpl. lia.
Qed.

(** X15: removing a set word keeps the selection on its word.  An index
    outside the list changes nothing and returns [null].  An index inside
    returns the entry at that index and shortens the list by it; the
    selection stays a valid one and still points at the word it pointed at,
    or at none when that word was the one removed. *)
Theorem removeSetWord_keeps_selection (wm : WordManager) (index : Z) :
  selectionOk wm ->
  (0 <= index < Z.of_nat (List.length (setWords wm)) ->
     snd (removeSetWord wm index) = nth_error (setWords wm) (Z.to_nat index)
     /\ Z.of_nat (List.length (setWords (fst (removeSetWord wm index))))
        = Z.of_nat (List.length (setWords wm)) - 1
     /\ selectionOk (fst (removeSetWord wm index))
     /\ selectedSetWord (fst (removeSetWord wm index))
        = if selectedSetWordIndex wm =? index then None else selectedSetWord wm)
  /\ (~ 0 <= index < Z.of_nat (List.length (setWords wm)) ->
      removeSetWord wm index = (wm, None)).
Proof.
  intros Hsel. split; [| apply removeSetWord_out_of_range].
  intros Hr. destruct (removeSetWord_in_range wm index Hr) as [removed [En ->]].
  pose proof (spliceOne_length _ _ _ En) as Hlen.
  unfold selectionOk, selectedSetWord in *. simpl.
  split; [symmetry; exact En | split; [lia | split]].
  - destruct (selectedSetWordIndex wm =? index) eqn:E1; [lia |].
    apply Z.eqb_neq in E1.
    destruct (index <? selectedSetWordIndex wm) eqn:E2;
      [apply Z.ltb_lt in E2 | apply Z.ltb_ge in E2]; lia.
  - destruct (selectedSetWordIndex wm =? index) eqn:E1; [reflexivity |].
    apply Z.eqb_neq in E1.
    destruct (index <? selectedSetWordIndex wm) eqn:E2.
    + apply Z.ltb_lt in E2.
      assert (E3 : (selectedSetWordIndex wm - 1 <? 0) = false) by (apply Z.ltb_ge; lia).
      assert (E4 : (selectedSetWordIndex wm <? 0) = false) by (apply Z.ltb_ge; lia).
      rewrite E3, E4, (spliceOne_nth _ _ _ _ En).
      assert (E5 : (Z.to_nat (selectedSetWordIndex wm - 1) <? Z.to_nat index)%nat = false)
        by (apply Nat.ltb_ge; lia).
      rewrite E5. f_equal. lia.
    + apply Z.ltb_ge in E2.
      destruct (selectedSetWordIndex wm <? 0) eqn:E4; [reflexivity |].
      apply Z.ltb_ge in E4. rewrite (spliceOne_nth _ _ _ _ En).
      assert (E5 : (Z.to_nat (selectedSetWordIndex wm) <? Z.to_nat index)%nat = true)
        by (apply Nat.ltb_lt; lia).
      rewrite E5. reflexivity.
Qed.

Lemma removeSetWord_keeps_selection_witness :
  (0 <= 0 < Z.of_nat (List.length (setWords
       (mkWordManager [("CATS"%string, pathCATS); ("SEAT"%string, [(2, 2)])] [] 1 [] (-1)))) ->
     snd (removeSetWord
            (mkWordManager [("CATS"%string, pathCATS); ("SEAT"%string, [(2, 2)])] [] 1 [] (-1)) 0)
     = nth_error (setWords
         (mkWordManager [("CATS"%string, pathCATS); ("SEAT"%string, [(2, 2)])] [] 1 [] (-1)))
         (Z.to_nat 0)
     /\ Z.of_nat (List.length (setWords (fst (removeSetWord
          (mkWordManager [("CATS"%string, pathCATS); ("SEAT"%string, [(2, 2)])] [] 1 [] (-1)) 0))))
        = Z.of_nat (List.length (setWords
            (mkWordManager [("CATS"%string, pathCATS); ("SEAT"%string, [(2, 2)])] [] 1 [] (-1)))) - 1
     /\ selectionOk (fst (removeSetWord
          (mkWordManager [("CATS"%string, pathCATS); ("SEAT"%string, [(2, 2)])] [] 1 [] (-1)) 0))
     /\ selectedSetWord (fst (removeSetWord
          (mkWordManager [("CATS"%string, pathCATS); ("SEAT"%string, [(2, 2)])] [] 1 [] (-1)) 0))
        = if selectedSetWordIndex
               (mkWordManager [("CATS"%string, pathCATS); ("SEAT"%string, [(2, 2)])] [] 1 [] (-1))
             =? 0
          then None
          else selectedSetWord
                 (mkWordManager [("CATS"%string, pathCATS); ("SEAT"%string, [(2, 2)])] [] 1 [] (-1)))
  /\ (~ 0 <= 0 < Z.of_nat (List.length (setWords
         (mkWordManager [("CATS"%string, pathCATS); ("SEAT"%string, [(2, 2)])] [] 1 [] (-1)))) ->
      removeSetWord
        (mkWordManager [("CATS"%string, pathCATS); ("SEAT"%string, [(2, 2)])] [] 1 [] (-1)) 0
      = (mkWordManager [("CATS"%string, pathCATS); ("SEAT"%string, [(2, 2)])] [] 1 [] (-1), None)).
Proof.
  apply (removeSetWord_keeps_selection
           (mkWordManager [("CATS"%string, pathCATS); ("SEAT"%string, [(2, 2)])] [] 1 [] (-1)) 0).
  unfold selectionOk. simpl. lia.
Defined.

Lemma addSetWord_NoDup (wm : WordManager) (w : string) (p : Path) :
  NoDup (map fst (setWords wm)) -> NoDup (map fst (setWords (addSetWord wm w p))).
Proof.
  intros Hnd. unfold addSetWord.
  destruct (hasSetWord (setWords wm) w) eqn:E; [exact Hnd |].
  apply hasSetWord_false in E. simpl. rewrite map_app. simpl.
  apply NoDup_app; [exact Hnd | repeat constructor; intros [] |].
  intros a Ha [<- | []]. exact (E Ha).
Qed.

Lemma addSetWord_length (wm : WordManager) (w : string) (p : Path) :
  (List.length (setWords wm) <= List.length (setWords (addSetWord wm w p)))%nat
  /\ selectedSetWordIndex (addSetWord wm w p) = selectedSetWordIndex wm.
Proof.
  unfold addSetWord. destruct (hasSetWord (setWords wm) w); simpl.
  - split; [lia | reflexivity].
  - rewrite length_app. simpl. split; [lia | reflexivity].
Qed.

Lemma wordAdd_keeps_NoDup (s : list string) (w : string) :
  NoDup s -> NoDup (wordAdd s w).
Proof.
  intros H. unfold wordAdd, setAdd.
  destruct (setHas String.eqb s w) eqn:E; [exact H |].
  apply NoDup_app; [exact H | repeat constructor; intros [] |].
  intros a Ha [<- | []].
  change (wordHas s w = false) in E. apply wordHas_false in E. exact (E Ha).
Qed.

Lemma removeSetWord_invariants (wm : WordManager) (index : Z) :
  NoDup (map fst (setWords wm)) /\ selectionOk wm /\ NoDup (blacklistedWords wm) ->
  NoDup (map fst (setWords (fst (removeSetWord wm index))))
  /\ selectionOk (fst (removeSetWord wm index))
  /\ NoDup (blacklistedWords (fst (removeSetWord wm index))).
Proof.
  intros [Hnd [Hsel Hbl]].
  destruct (Z_le_dec 0 index) as [H0 |];
    [destruct (Z_lt_dec index (Z.of_nat (List.length (setWords wm)))) as [H1 |] |].
  - destruct (removeSetWord_in_range wm index (conj H0 H1)) as [removed [En E]].
    rewrite E. simpl. split; [| split; [| exact Hbl]].
    + apply (subseq_NoDup _ (map fst (setWords wm))); [| exact Hnd].
      apply subseq_map. apply (spliceOne_subseq _ _ _ En).
    + pose proof (spliceOne_length _ _ _ En) as Hlen.
      unfold selectionOk in *. simpl.
      destruct (selectedSetWordIndex wm =? index) eqn:E1; [lia |].
      apply Z.eqb_neq in E1.
      destruct (index <? selectedSetWordIndex wm) eqn:E2;
        [apply Z.ltb_lt in E2 | apply Z.ltb_ge in E2]; lia.
  - rewrite removeSetWord_out_of_range by lia. simpl.
    split; [exact Hnd | split; [exact Hsel | exact Hbl]].
  - rewrite removeSetWord_out_of_range by lia. simpl.
    split; [exact Hnd | split; [exact Hsel | exact Hbl]].
Qed.

(** X16: the word manager keeps its lists in order.  Whatever calls are
    made on a new word manager ([selectSetWord] on indices of the list), no
    word is set twice, no word is blacklisted twice, and the selected index
    is [-1] or the index of a set word. *)
Theorem reachable_invariants (wm : WordManager) :
  reachable wm ->
  NoDup (map fst (setWords wm)) /\ selectionOk wm /\ NoDup (blacklistedWords wm).
Proof.
  induction 1 as [| wm c _ IH Hc].
  - unfold selectionOk. simpl. repeat split; try constructor; lia.
  - destruct c as [w p | i | w | i | | | i | ws]; simpl doCall.
    + destruct IH as [Hnd [Hsel Hbl]].
      destruct (addSetWord_length wm w p) as [Hlen Hs].
      split; [apply addSetWord_NoDup; exact Hnd | split].
      * unfold selectionOk in *. rewrite Hs. lia.
      * unfold addSetWord. destruct (hasSetWord (setWords wm) w); exact Hbl.
    + apply removeSetWord_invariants. exact IH.
    + destruct IH as [Hnd [Hsel Hbl]]. simpl.
      repeat split; try assumption; try apply Hsel.
      apply wordAdd_keeps_NoDup. exact Hbl.
    + unfold blacklistAndRemoveWord.
      pose proof (removeSetWord_invariants wm i IH) as H.
      destruct (removeSetWord wm i) as [wm1 [r |]]; simpl in H |- *.
      * destruct H as [Hnd [Hsel Hbl]].
        repeat split; try assumption; try apply Hsel.
        apply wordAdd_keeps_NoDup. exact Hbl.
      * exact H.
    + destruct IH as [_ [_ Hbl]]. unfold selectionOk. simpl.
      repeat split; try constructor; try lia. exact Hbl.
    + destruct IH as [Hnd [Hsel _]]. simpl.
      repeat split; try assumption; try apply Hsel. constructor.
    + destruct IH as [Hnd [Hsel Hbl]]. simpl in Hc. unfold selectionOk in *. simpl.
      split; [exact Hnd | split; [| exact Hbl]].
      destruct (selectedSetWordIndex wm =? i); lia.
    + exact IH.
Qed.

Lemma reachable_invariants_witness :
  NoDup (map fst (setWords (doCall (doCall newWordManager
                                           (CallAddSetWord "CATS" pathCATS))
                                   (CallSelectSetWord 0))))
  /\ selectionOk (doCall (doCall newWordManager (CallAddSetWord "CATS" pathCATS))
                         (CallSelectSetWord 0))
  /\ NoDup (blacklistedWords (doCall (doCall newWordManager
                                             (CallAddSetWord "CATS" pathCATS))
                                     (CallSelectSetWord 0))).
Proof.
  apply (reachable_invariants
           (doCall (doCall newWordManager (CallAddSetWord "CATS" pathCATS))
                   (CallSelectSetWord 0))).
  apply reachable_call; [apply reachable_call; [apply reachable_new | exact I] |].
  simpl. lia.
Defined.

Lemma NoDup_keys_spliceOne (l : list Candidate) (i : nat) (w : string) (p : Path) :
  NoDup (map fst l) -> nth_error l i = Some (w, p) ->
  ~ In w (map fst (spliceOne l i)).
Proof.
  intros Hnd En. destruct (spliceOne_split l i _ En) as [l1 [l2 [Hl [_ ->]]]].
  rewrite Hl, map_app in Hnd. simpl in Hnd.
  apply NoDup_remove_2 in Hnd. rewrite map_app. exact Hnd.
Qed.

Lemma removeSelectedWord_selected (wm : WordManager) (w : string) (p : Path) :
  selectedSetWord wm = Some (w, p) ->
  setWords (removeSelectedWord wm)
  = spliceOne (setWords wm) (Z.to_nat (selectedSetWordIndex wm))
  /\ blacklistedWords (removeSelectedWord wm) = wordAdd (blacklistedWords wm) w
  /\ nth_error (setWords wm) (Z.to_nat (selectedSetWordIndex wm)) = Some (w, p).
Proof.
  unfold selectedSetWord, removeSelectedWord. intros H.
  destruct (selectedSetWordIndex wm <? 0) eqn:E; [discriminate H |].
  apply Z.ltb_ge in E.
  assert (E' : (0 <=? selectedSetWordIndex wm) = true) by (apply Z.leb_le; exact E).
  rewrite E'. cbv zeta.
  assert (Hr : 0 <= selectedSetWordIndex wm < Z.of_nat (List.length (setWords wm))).
  { split; [exact E |].
    assert (Hlt : (Z.to_nat (selectedSetWordIndex wm) < List.length (setWords wm))%nat).
    { apply nth_error_Some. rewrite H. discriminate. }
    lia. }
  destruct (removeSetWord_in_range wm _ Hr) as [removed [En Er]].
  rewrite H in En. inversion En; subst removed.
  unfold blacklistAndRemoveWord. rewrite Er. simpl.
  split; [reflexivity | split; [reflexivity | exact H]].
Qed.

(** X17: a removed word stays out.  After [removeSelectedWord] has removed
    and blacklisted the selected set word, a following [attemptSolve] never
    sets that word again: it is on the blacklist and not among the set
    words, whatever the solver returns (no word being set twice before). *)
Theorem removed_word_stays_out (this : Solver) (wm wm' : WordManager)
  (w : string) (p : Path) (cancelled : bool) (maxAttempts : Z) :
  NoDup (map fst (setWords wm)) ->
  selectedSetWord wm = Some (w, p) ->
  attemptSolve this (removeSelectedWord wm) cancelled maxAttempts = Done wm' ->
  In w (blacklistedWords wm') /\ ~ In w (map fst (setWords wm')).
Proof.
  intros Hnd Hsel H.
  destruct (removeSelectedWord_selected wm w p Hsel) as [Eset [Ebl En]].
  assert (Hnd1 : NoDup (map fst (setWords (removeSelectedWord wm)))).
  { rewrite Eset. apply (subseq_NoDup _ (map fst (setWords wm))); [| exact Hnd].
    apply subseq_map. apply (spliceOne_subseq _ _ _ En). }
  destruct (attemptSolve_setWords this _ wm' cancelled maxAttempts H Hnd1)
    as [Hbl [_ [_ [added [Hadd Hcand]]]]].
  assert (Hin : In w (blacklistedWords (removeSelectedWord wm))).
  { rewrite Ebl. apply wordAdd_In. right. reflexivity. }
  split; [rewrite Hbl; exact Hin |].
  rewrite Hadd, map_app. intros Hw. apply in_app_or in Hw. destruct Hw as [Hw | Hw].
  - rewrite Eset in Hw. exact (NoDup_keys_spliceOne _ _ w p Hnd En Hw).
  - apply in_map_iff in Hw. destruct Hw as [e [He Hadded]].
    destruct (Hcand e Hadded) as [start [_ [_ [_ [Hnot _]]]]].
    apply Hnot. rewrite He. exact Hin.
Qed.

Lemma find_some_In {A : Type} (f : A -> bool) (l : list A) (x : A) :
  find f l = Some x -> In x l /\ f x = true.
Proof. apply find_some. Qed.

(** X18: a word added after a search fits.  When the click on a cell
    belonging to no set word has listed the words from that cell, adding
    any word of that list keeps the set words cell-disjoint and without a
    repeated word; the set words are the old ones, followed at most by one
    candidate of that search. *)
Theorem add_after_search_fits (this : Solver) (wm wm1 : WordManager)
  (row col : Z) (proposedWordText : string) :
  setWordsOk wm ->
  findWordIndexFrom (setWords wm) 0 row col < 0 ->
  onCellClick this wm row col = Done wm1 ->
  setWordsOk (appAddSetWord wm1 proposedWordText)
  /\ (setWords (appAddSetWord wm1 proposedWordText) = setWords wm
      \/ exists e,
           setWords (appAddSetWord wm1 proposedWordText) = setWords wm ++ [e]
           /\ fst e = proposedWordText
           /\ candidateOk this (getUsedPositions wm) (blacklistedWords wm) 4 15
                          (row, col) e).
Proof.
  intros [Hdis Hnd] Hfree H. unfold onCellClick in H. cbv zeta in H.
  assert (E : (0 <=? findWordIndexFrom (setWords wm) 0 row col) = false)
    by (apply Z.leb_gt; exact Hfree).
  rewrite E in H.
  destruct (findWordsDFS this (getUsedPositions wm) (blacklistedWords wm) 4 15 row col)
    as [words | |] eqn:Ef; simpl in H; try discriminate H.
  inversion H; subst wm1. clear H.
  assert (Hsame : setWordsOk wm
                  /\ (setWords wm = setWords wm
                      \/ exists e,
                           setWords wm = setWords wm ++ [e]
                           /\ fst e = proposedWordText
                           /\ candidateOk this (getUsedPositions wm)
                                          (blacklistedWords wm) 4 15 (row, col) e)).
  { split; [split; assumption | left; reflexivity]. }
  unfold appAddSetWord.
  destruct proposedWordText as [| c0 rest]; [exact Hsame |].
  simpl foundWordsData.
  destruct (find (fun e => String.eqb (fst e) (String c0 rest)) words)
    as [e |] eqn:Efind; [| exact Hsame].
  apply find_some_In in Efind. destruct Efind as [He Hw].
  apply String.eqb_eq in Hw.
  destruct (findWordsDFS_entry this (getUsedPositions wm) (blacklistedWords wm)
                               4 15 row col words e) as [Hc _];
    [lia | exact Ef | exact He |].
  unfold addSetWord. simpl setWords.
  destruct (hasSetWord (setWords wm) (fst e)) eqn:Ehas; [exact Hsame |].
  apply hasSetWord_false in Ehas. simpl.
  split; [split | right; exists e; split; [destruct e; reflexivity | split; assumption]].
  - unfold pairwiseDisjoint. destruct e as [w p]. simpl.
    apply ForallOrdPairs_snoc; [exact Hdis |].
    apply Forall_forall. intros a Ha c Hca Hcp.
    destruct Hc as [[_ [_ [_ [_ Hocc]]]] _]. simpl in Hocc.
    apply (Hocc c Hcp). rewrite getUsedPositions_usedOf.
    apply usedOf_In. exists a. split; assumption.
  - unfold setWordsOk. simpl. rewrite map_app. simpl.
    apply NoDup_app; [exact Hnd | repeat constructor; intros [] |].
    intros a Ha [<- | []]. exact (Ehas Ha).
Qed.


(** ** The properties above on the sample boards *)

Lemma subseq_refl {A : Type} (l : list A) : subseq l l.
Proof. induction l; constructor; assumption. Qed.

Lemma candidate_CATS : candidateOk solverCATS [] [] 4 15 (0, 0) ("CATS"%string, pathCATS).
Proof.
  split; [| split; [vm_compute; split; discriminate | split; [simpl; tauto | split]]].
  - split; [exists [(0, 1); (1, 0); (1, 1)]; reflexivity |].
    split; [unfold isPath8, neighbors8; simpl; repeat split; try lia; discriminate |].
    split; [repeat constructor; simpl; intuition discriminate |].
    split; [intros c Hc; simpl in Hc; intuition (subst; reflexivity) |].
    intros c _ [].
  - intros [].
  - reflexivity.
Qed.

Lemma findWordsDFS_occupied_antitone_witness :
  In "STARE"%string (map fst resultSEA).
Proof.
  apply (findWordsDFS_occupied_antitone solverSEA [] [(2, 2)] [] 4 15 0 0
           resultSEA resultSEAOccupied "STARE").
  - reflexivity.
  - repeat constructor.
  - lia.
  - intros c [].
  - vm_compute. reflexivity.
  - vm_compute. reflexivity.
  - right. left. reflexivity.
Defined.

Lemma solvePuzzle_result_from_pool_witness :
  exists sub,
    subseq sub (prioritizedWords boardCancel poolCancel)
    /\ tilingCancel = [("AA"%string, [(0, 1); (0, 2)])] ++ placedOf sub
    /\ forall e, In e (placedOf sub) ->
         exists pw, In pw poolCancel /\ e = (pw_word pw, pw_coords pw).
Proof.
  apply (solvePuzzle_result_from_pool boardCancel true neverCancel 100000
           poolCancel [("AA"%string, [(0, 1); (0, 2)])] tilingCancel).
  vm_compute. reflexivity.
Defined.

Lemma solver_exhaustive_witness :
  ~ tilesFrom (totalPositions solverPartial) (usedOf [])
              (prioritizedWords solverPartial [mkPoolWord "CATS" pathCATS 4]).
Proof.
  apply (solver_exhaustive solverPartial true neverCancel 100000
           [mkPoolWord "CATS" pathCATS 4] []).
  - intros a. reflexivity.
  - vm_compute. reflexivity.
  - vm_compute. discriminate.
  - apply subseq_refl.
Defined.

Lemma collectAllWords_sound_witness :
  (exists start,
      In start (allCells (grid solverCATS))
      /\ candidateOk solverCATS [] [] 4 15 start
                     (pw_word (mkPoolWord "CATS" pathCATS 4),
                      pw_coords (mkPoolWord "CATS" pathCATS 4)))
  /\ pw_length (mkPoolWord "CATS" pathCATS 4)
     = pathLen (pw_coords (mkPoolWord "CATS" pathCATS 4))
  /\ pw_length (mkPoolWord "CATS" pathCATS 4)
     = strLen (pw_word (mkPoolWord "CATS" pathCATS 4)).
Proof.
  apply (collectAllWords_sound solverCATS [] [] poolCATS).
  - vm_compute. reflexivity.
  - left. reflexivity.
Defined.

Lemma collectAllWords_complete_witness :
  exists q,
    In (mkPoolWord "CATS" q (pathLen q)) poolCATS
    /\ pathLen q = pathLen pathCATS
    /\ hd_error q = Some (0, 0).
Proof.
  apply (collectAllWords_complete solverCATS [] [] poolCATS (0, 0) "CATS" pathCATS).
  - vm_compute. reflexivity.
  - repeat constructor.
  - vm_compute. reflexivity.
  - exact candidate_CATS.
Defined.

Lemma attemptSolve_keeps_and_adds_witness :
  blacklistedWords wmSolvedCATS = blacklistedWords newWordManager
  /\ NoDup (map fst (setWords wmSolvedCATS))
  /\ (pairwiseDisjoint (setWords newWordManager) -> pairwiseDisjoint (setWords wmSolvedCATS))
  /\ exists added,
       setWords wmSolvedCATS = setWords newWordManager ++ added
       /\ forall e, In e added ->
            exists start,
              candidateOk solverCATS (getUsedPositions newWordManager)
                          (blacklistedWords newWordManager) 4 15 start e.
Proof.
  apply (attemptSolve_keeps_and_adds solverCATS newWordManager wmSolvedCATS false 100000).
  - vm_compute. reflexivity.
  - simpl. constructor.
Defined.

Lemma removed_word_stays_out_witness :
  In "CATS"%string (blacklistedWords wmSolvedACTS)
  /\ ~ In "CATS"%string (map fst (setWords wmSolvedACTS)).
Proof.
  apply (removed_word_stays_out solverCATS wmSelectedCATS wmSolvedACTS
           "CATS" pathCATS false 100000).
  - simpl. repeat constructor. intros [].
  - reflexivity.
  - vm_compute. reflexivity.
Defined.

Lemma add_after_search_fits_witness :
  setWordsOk (appAddSetWord (updatePossibleWords newWordManager resultSEA) "STARE")
  /\ (setWords (appAddSetWord (updatePossibleWords newWordManager resultSEA) "STARE")
      = setWords newWordManager
      \/ exists e,
           setWords (appAddSetWord (updatePossibleWords newWordManager resultSEA) "STARE")
           = setWords newWordManager ++ [e]
           /\ fst e = "STARE"%string
           /\ candidateOk solverSEA (getUsedPositions newWordManager)
                          (blacklistedWords newWordManager) 4 15 (0, 0) e).
Proof.
  apply (add_after_search_fits solverSEA newWordManager
           (updatePossibleWords newWordManager resultSEA) 0 0 "STARE").
  - split; [constructor | constructor].
  - simpl. lia.
  - vm_compute. reflexivity.
Defined.


(** ** The prefix tree, the grid and the solver *)

(** X19: pruning is safe on any tree.  When [hasPrefix] answers [false]
    for a string it answers [false] for every extension of it; so the
    letters a search skips after a failed test cannot have spelled a string
    the tree holds. *)
Theorem hasPrefix_prefix_closed (this : Solver) (p q : string) :
  hasPrefix this (p ++ q) = true -> hasPrefix this p = true.
Proof.
  unfold hasPrefix. generalize (prefixTree this). induction p as [| c p IH]; intros t H.
  - reflexivity.
  - simpl in H |- *. destruct (trieGet t c) as [child |]; [| discriminate H].
    apply IH. exact H.
Qed.

Lemma hasPrefix_prefix_closed_witness :
  hasPrefix solverCATS "CA" = true.
Proof.
  apply (hasPrefix_prefix_closed solverCATS "CA" "TS"). reflexivity.
Defined.

Lemma asConstructed_dims (this : Solver) :
  asConstructed this ->
  rows this = gridRows (grid this) /\ gridCols (grid this) = Done (cols this).
Proof.
  unfold asConstructed, newSolver. intros H.
  destruct (buildPrefixTree (wordSet this)) as [t | |]; simpl in H; try discriminate H.
  destruct (gridCols (grid this)) as [c | |] eqn:Ec; simpl in H; try discriminate H.
  injection H as Hthis.
  split; [rewrite <- Hthis; reflexivity | rewrite <- Hthis; reflexivity].
Qed.

(** X20: an updated solver is a new solver.  On a solver as constructed,
    [setGrid] gives what the constructor gives for the new grid and the
    same word set, and [setWordSet] what it gives for the same grid and the
    new word set, errors included. *)
Theorem setters_as_constructor (this : Solver) (g : Grid) (ws : list string) :
  asConstructed this ->
  setGrid this g = newSolver g (wordSet this)
  /\ setWordSet this ws = newSolver (grid this) ws.
Proof.
  intros Hcon.
  pose proof (asConstructed_tree this Hcon) as Htree.
  destruct (asConstructed_dims this Hcon) as [Hr Hc].
  unfold setGrid, setWordSet, newSolver. split.
  - unfold treeOfWordSet in Htree. rewrite Htree. reflexivity.
  - rewrite Hc, Hr. destruct (buildPrefixTree ws); reflexivity.
Qed.

Lemma setters_as_constructor_witness :
  setGrid solverCATS gridSEA = newSolver gridSEA (wordSet solverCATS)
  /\ setWordSet solverCATS ["SEAT"%string] = newSolver (grid solverCATS) ["SEAT"%string].
Proof.
  apply (setters_as_constructor solverCATS gridSEA ["SEAT"%string]).
  vm_compute. reflexivity.
Defined.

Lemma validateGrid_spec (g : Grid) :
  validateGrid g = true <->
  g <> [] /\ hd [] g <> [] /\ rectangular g /\ upperGrid g.
Proof.
  unfold validateGrid, rectangular, upperGrid.
  destruct g as [| r0 g']; [split; [discriminate | intros [H _]; contradiction H; reflexivity] |].
  cbv zeta. simpl hd.
  destruct (List.length r0 =? 0)%nat eqn:E0.
  { apply Nat.eqb_eq in E0. split; [discriminate |].
    intros [_ [H _]]. destruct r0; [contradiction H; reflexivity | discriminate E0]. }
  apply Nat.eqb_neq in E0.
  destruct (existsb (fun row => negb (List.length row =? List.length r0)%nat) (r0 :: g'))
    eqn:E1.
  { split; [discriminate |]. intros [_ [_ [Hrect _]]].
    apply existsb_exists in E1. destruct E1 as [row [Hin Hne]].
    apply negb_true_iff, Nat.eqb_neq in Hne. contradiction (Hne (Hrect row Hin)). }
  destruct (existsb (fun row => existsb (fun cell => negb (isUpperChar cell)) row)
                    (r0 :: g')) eqn:E2.
  { split; [discriminate |]. intros [_ [_ [_ Hup]]].
    apply existsb_exists in E2. destruct E2 as [row [Hin Hex]].
    apply existsb_exists in Hex. destruct Hex as [cell [Hc Hn]].
    rewrite Forall_forall in Hup. specialize (Hup row Hin).
    rewrite Forall_forall in Hup. rewrite (Hup cell Hc) in Hn. discriminate Hn. }
  split; [intros _ | reflexivity].
  split; [discriminate | split; [| split]].
  - intros ->. contradiction E0. reflexivity.
  - intros row Hin. destruct (Nat.eq_dec (List.length row) (List.length r0)) as [e | n];
      [exact e |].
    assert (Hex : existsb (fun row => negb (List.length row =? List.length r0)%nat)
                          (r0 :: g') = true).
    { apply existsb_exists. exists row. split; [exact Hin |].
      apply negb_true_iff, Nat.eqb_neq. exact n. }
    rewrite Hex in E1. discriminate E1.
  - apply Forall_forall. intros row Hin. apply Forall_forall. intros cell Hc.
    destruct (isUpperChar cell) eqn:Eu; [reflexivity |].
    assert (Hex : existsb (fun row => existsb (fun cell => negb (isUpperChar cell)) row)
                          (r0 :: g') = true).
    { apply existsb_exists. exists row. split; [exact Hin |].
      apply existsb_exists. exists cell. split; [exact Hc | rewrite Eu; reflexivity]. }
    rewrite Hex in E2. discriminate E2.
Qed.

(** X21: a grid that passes [validateGrid] is safe to search.  For such a
    grid and a word list without ['$'] the constructor succeeds, and every
    enumeration on the solver, whatever the start cell, the occupied cells,
    the blacklist and the bounds, returns without an error; each word it
    returns is spelled by the stored letters along its path. *)
Theorem validateGrid_safe_search (g : Grid) (ws : list string) :
  validateGrid g = true ->
  Forall (fun w => noDollar w = true) ws ->
  exists this,
    newSolver g ws = Done this
    /\ forall occupied blacklist minLength maxLength startRow startCol,
         exists res,
           findWordsDFS this occupied blacklist minLength maxLength startRow startCol
           = Done res
           /\ forall e, In e res -> lettersAlong g (snd e) = Some (fst e).
Proof.
  intros Hv Hws. apply validateGrid_spec in Hv.
  destruct Hv as [Hne [_ [Hrect Hup]]].
  destruct (buildPrefixTree_fold ws Hws (TrieObj []) I) as [t [Et _]].
  destruct g as [| r0 g'] eqn:Eg; [contradiction Hne; reflexivity |].
  rewrite <- Eg in *.
  assert (Enew : newSolver g ws
                 = Done (mkSolver g ws t (gridRows g) (Z.of_nat (List.length r0)))).
  { unfold newSolver, buildPrefixTree. rewrite Et. rewrite Eg. reflexivity. }
  set (this := mkSolver g ws t (gridRows g) (Z.of_nat (List.length r0))) in *.
  exists this. split; [exact Enew |].
  intros occupied blacklist minLength maxLength startRow startCol.
  pose proof (newSolver_gridCovers g ws this Enew Hrect) as Hcov.
  destruct (findWordsDFS_total this occupied blacklist minLength maxLength
                               startRow startCol) as [_ Htot].
  destruct (Htot Hcov) as [res Eres]. exists res. split; [exact Eres |].
  intros e He. apply findWordsDFS_Done in Eres.
  destruct Eres as [-> | [st [_ [Hst ->]]]]; [destruct He |].
  destruct (stateOk_entries _ _ _ _ _ _ _ _ Hst He) as [[[_ [_ [_ [_ Hsp]]]] _] _].
  simpl in Hsp. apply spells_upper; assumption.
Qed.

Lemma validateGrid_safe_search_witness :
  exists this,
    newSolver gridSEA ["SEAT"%string] = Done this
    /\ forall occupied blacklist minLength maxLength startRow startCol,
         exists res,
           findWordsDFS this occupied blacklist minLength maxLength startRow startCol
           = Done res
           /\ forall e, In e res -> lettersAlong gridSEA (snd e) = Some (fst e).
Proof.
  apply (validateGrid_safe_search gridSEA ["SEAT"%string]).
  - reflexivity.
  - repeat constructor.
Defined.

Lemma repeat_In {A : Type} (x y : A) (n : nat) : In y (repeat x n) -> y = x.
Proof. apply repeat_spec. Qed.

(** X22: an empty grid is a valid grid.  For [rows] and [cols] from 1 to
    the greatest array length, [createEmptyGrid] returns a grid of [rows]
    rows of [cols] cells that passes [validateGrid]; with no rows asked it
    returns the empty grid, which does not pass. *)
Theorem createEmptyGrid_valid (rows cols : Z) :
  (0 < rows <= maxArrayLength -> 0 < cols <= maxArrayLength ->
   exists g,
     createEmptyGrid rows cols = Done g
     /\ validateGrid g = true
     /\ gridRows g = rows
     /\ gridCols g = Done cols)
  /\ (rows = 0 -> createEmptyGrid rows cols = Done [] /\ validateGrid [] = false).
Proof.
  split.
  - intros Hr Hc. unfold createEmptyGrid.
    assert (E1 : (rows <? 0) || (maxArrayLength <? rows) = false).
    { apply orb_false_iff. split; [apply Z.ltb_ge | apply Z.ltb_ge]; lia. }
    assert (E2 : (rows =? 0) = false) by (apply Z.eqb_neq; lia).
    assert (E3 : (cols <? 0) || (maxArrayLength <? cols) = false).
    { apply orb_false_iff. split; [apply Z.ltb_ge | apply Z.ltb_ge]; lia. }
    rewrite E1, E2, E3. eexists. split; [reflexivity |].
    destruct (Z.to_nat rows) as [| n] eqn:En; [lia |].
    destruct (Z.to_nat cols) as [| m] eqn:Em; [lia |].
    split; [| split].
    + apply validateGrid_spec. split; [discriminate | split; [discriminate | split]].
      * intros row Hin. apply repeat_In in Hin. subst row. reflexivity.
      * apply Forall_forall. intros row Hin. apply repeat_In in Hin. subst row.
        apply Forall_forall. intros cell Hcell. apply repeat_In in Hcell. subst cell.
        reflexivity.
    + unfold gridRows. rewrite repeat_length. lia.
    + simpl gridCols. rewrite repeat_length. f_equal. lia.
  - intros ->. split; reflexivity.
Qed.

Lemma createEmptyGrid_valid_witness :
  exists g,
    createEmptyGrid 8 6 = Done g
    /\ validateGrid g = true
    /\ gridRows g = 8
    /\ gridCols g = Done 6.
Proof.
  apply (createEmptyGrid_valid 8 6); unfold maxArrayLength; lia.
Defined.

(** ** The word list *)

Lemma isSpaceChar_toUpperChar (c : ascii) : isSpaceChar (toUpperChar c) = isSpaceChar c.
Proof. destruct c as [[] [] [] [] [] [] [] []]; reflexivity. Qed.

Lemma trimStart_toUpperCase (s : string) :
  trimStart (toUpperCase s) = toUpperCase (trimStart s).
Proof.
  induction s as [| c s IH]; [reflexivity |].
  simpl. rewrite isSpaceChar_toUpperChar. destruct (isSpaceChar c); [exact IH | reflexivity].
Qed.

Lemma trimEnd_toUpperCase (s : string) :
  trimEnd (toUpperCase s) = toUpperCase (trimEnd s).
Proof.
  induction s as [| c s IH]; [reflexivity |].
  simpl. rewrite IH, isSpaceChar_toUpperChar.
  destruct (trimEnd s) as [| c' s']; simpl; [destruct (isSpaceChar c) |]; reflexivity.
Qed.

Lemma toUpperCase_idempotent (s : string) : toUpperCase (toUpperCase s) = toUpperCase s.
Proof.
  induction s as [| c s IH]; [reflexivity |].
  simpl. rewrite toUpperChar_idempotent, IH. reflexivity.
Qed.

Lemma trimEnd_idempotent (s : string) : trimEnd (trimEnd s) = trimEnd s.
Proof.
  induction s as [| c s IH]; [reflexivity |].
  simpl. destruct (trimEnd s) as [| c' s'] eqn:E.
  - destruct (isSpaceChar c) eqn:Ec; [reflexivity |]. simpl. rewrite Ec. reflexivity.
  - change (trimEnd (String c (String c' s')))
      with (match trimEnd (String c' s') with
            | EmptyString => if isSpaceChar c then EmptyString else String c EmptyString
            | r' => String c r'
            end).
    rewrite IH. reflexivity.
Qed.

Lemma trimStart_fixed (s : string) : trimStart (trimStart s) = trimStart s.
Proof.
  induction s as [| c s IH]; [reflexivity |].
  simpl. destruct (isSpaceChar c) eqn:E; [exact IH |]. simpl. rewrite E. reflexivity.
Qed.

Lemma trimStart_trimEnd (s : string) :
  trimStart s = s -> trimStart (trimEnd s) = trimEnd s.
Proof.
  destruct s as [| c s]; [reflexivity |].
  simpl. destruct (isSpaceChar c) eqn:E.
  - intros H. exfalso.
    assert (Hlen : (String.length (trimStart s) <= String.length s)%nat).
    { clear. induction s as [| a s IH]; simpl; [lia |].
      destruct (isSpaceChar a); simpl; lia. }
    rewrite H in Hlen. simpl in Hlen. lia.
  - intros _. destruct (trimEnd s); simpl; rewrite E; reflexivity.
Qed.

Lemma trim_idempotent (s : string) : trim (trim s) = trim s.
Proof.
  unfold trim. rewrite (trimStart_trimEnd (trimStart s) (trimStart_fixed s)).
  apply trimEnd_idempotent.
Qed.

Lemma loadWordLines_fresh (l acc : list string) :
  NoDup (acc ++ l) ->
  (forall w, In w l -> toUpperCase (trim w) = w /\ 4 <= strLen w) ->
  fold_left
    (fun wordSet line =>
       let word := toUpperCase (trim line) in
       if 4 <=? strLen word then wordAdd wordSet word else wordSet)
    l acc
  = acc ++ l.
Proof.
  revert acc. induction l as [| w l IH]; intros acc Hnd Hform.
  - simpl. rewrite app_nil_r. reflexivity.
  - simpl fold_left. cbv zeta.
    destruct (Hform w (or_introl eq_refl)) as [Hw Hlen]. rewrite Hw.
    assert (E : (4 <=? strLen w) = true) by (apply Z.leb_le; exact Hlen).
    rewrite E.
    assert (Hfresh : wordAdd acc w = acc ++ [w]).
    { unfold wordAdd, setAdd. fold (wordHas acc w).
      assert (Hn : wordHas acc w = false).
      { apply wordHas_false. intros Hin. apply NoDup_remove_2 in Hnd.
        apply Hnd. apply in_or_app. left. exact Hin. }
      rewrite Hn. reflexivity. }
    rewrite Hfresh, IH.
    + rewrite <- app_assoc. reflexivity.
    + rewrite <- app_assoc. exact Hnd.
    + intros x Hx. apply Hform. right. exact Hx.
Qed.

(** X23: the loaded words are in the form the loader gives them, and
    loading is idempotent.  Every word of the dictionary is unchanged by
    [trim] and by [toUpperCase] and has at least 4 characters; and loading
    the dictionary itself, taken as lines, returns it unchanged, in the
    same order. *)
Theorem loadWordLines_idempotent (lines : list string) :
  (forall w, In w (loadWordLines lines) ->
     trim w = w /\ toUpperCase w = w /\ 4 <= strLen w)
  /\ loadWordLines (loadWordLines lines) = loadWordLines lines.
Proof.
  assert (Hform : forall w, In w (loadWordLines lines) ->
            trim w = w /\ toUpperCase w = w /\ 4 <= strLen w).
  { intros w Hw. unfold loadWordLines in Hw. apply loadWordLines_fold in Hw.
    destruct Hw as [[] | [line [_ [-> Hlen]]]].
    split; [| split; [apply toUpperCase_idempotent | exact Hlen]].
    unfold trim at 1. rewrite trimStart_toUpperCase, trimEnd_toUpperCase.
    fold (trim (trim line)). rewrite trim_idempotent. reflexivity. }
  split; [exact Hform |].
  apply (loadWordLines_fresh (loadWordLines lines) []).
  - simpl. unfold loadWordLines. apply loadWordLines_fold_NoDup. constructor.
  - intros w Hw. destruct (Hform w Hw) as [Ht [Hu Hlen]].
    rewrite Ht, Hu. split; [reflexivity | exact Hlen].
Qed.


(** ** The handlers of the page *)

Lemma cellAt_In (row col : Z) (p : Path) :
  existsb (fun q => (fst q =? row) && (snd q =? col)) p = true <-> In (row, col) p.
Proof.
  rewrite existsb_exists. split.
  - intros [[r c] [Hin H]]. simpl in H. apply andb_true_iff in H.
    destruct H as [Hr Hc]. apply Z.eqb_eq in Hr, Hc. subst. exact Hin.
  - intros Hin. exists (row, col). split; [exact Hin |].
    simpl. rewrite !Z.eqb_refl. reflexivity.
Qed.

Lemma findWordIndexFrom_spec (l : list Candidate) (i row col : Z) :
  0 <= i ->
  (findWordIndexFrom l i row col = -1
   /\ forall e, In e l -> ~ In (row, col) (snd e))
  \/ exists k e,
       findWordIndexFrom l i row col = i + Z.of_nat k
       /\ nth_error l k = Some e
       /\ In (row, col) (snd e)
       /\ forall j e', (j < k)%nat -> nth_error l j = Some e' -> ~ In (row, col) (snd e').
Proof.
  revert i. induction l as [| e l IH]; intros i Hi.
  - left. split; [reflexivity | intros e []].
  - simpl findWordIndexFrom.
    destruct (existsb (fun p => (fst p =? row) && (snd p =? col)) (snd e)) eqn:E.
    + right. exists 0%nat, e. apply cellAt_In in E.
      split; [simpl; lia | split; [reflexivity | split; [exact E |]]].
      intros j e' Hj. lia.
    + assert (Hnot : ~ In (row, col) (snd e)).
      { intros Hin. apply cellAt_In in Hin. rewrite Hin in E. discriminate E. }
      destruct (IH (i + 1)) as [[Hr Hall] | [k [e0 [Hr [Hn [Hin Hbefore]]]]]]; [lia | |].
      * left. split; [exact Hr |]. intros e' [<- | He']; [exact Hnot | apply Hall; exact He'].
      * right. exists (S k), e0.
        split; [rewrite Hr; lia | split; [exact Hn | split; [exact Hin |]]].
        intros j e' Hj Hnth. destruct j as [| j].
        -- simpl in Hnth. inversion Hnth; subst. exact Hnot.
        -- simpl in Hnth. apply (Hbefore j e'); [lia | exact Hnth].
Qed.

(** X24: a click selects or searches, by the cell.  A click on a cell of
    some set word selects (or deselects) the first set word that has the
    cell and makes no search, so it cannot fail; a click on a cell of no
    set word lists the words that [findWordsDFS] finds from that cell with
    the used cells and the blacklist of the moment, bounds 4 and 15. *)
Theorem onCellClick_dispatch (this : Solver) (wm : WordManager) (row col : Z) :
  (In (row, col) (getUsedPositions wm) ->
   exists k e,
     onCellClick this wm row col = Done (selectSetWord wm (Z.of_nat k))
     /\ nth_error (setWords wm) k = Some e
     /\ In (row, col) (snd e)
     /\ forall j e', (j < k)%nat -> nth_error (setWords wm) j = Some e' ->
          ~ In (row, col) (snd e'))
  /\ (~ In (row, col) (getUsedPositions wm) ->
      onCellClick this wm row col
      = (words <- findWordsDFS this (getUsedPositions wm) (blacklistedWords wm) 4 15
                               row col ;;
         Done (updatePossibleWords wm words))).
Proof.
  unfold onCellClick. cbv zeta.
  destruct (findWordIndexFrom_spec (setWords wm) 0 row col (Z.le_refl 0))
    as [[Hr Hall] | [k [e [Hr [Hn [Hin Hbefore]]]]]].
  - rewrite Hr. simpl. split; [| intros _; reflexivity].
    intros Hused. exfalso. rewrite getUsedPositions_usedOf in Hused.
    apply usedOf_In in Hused. destruct Hused as [e [He Hc]]. exact (Hall e He Hc).
  - rewrite Hr. simpl Z.add.
    assert (E : (0 <=? Z.of_nat k) = true) by (apply Z.leb_le; lia).
    rewrite E. split.
    + intros _. exists k, e. split; [reflexivity | split; [exact Hn | split; assumption]].
    + intros Hfree. exfalso. apply Hfree. rewrite getUsedPositions_usedOf.
      apply usedOf_In. exists e. split; [| exact Hin].
      apply (nth_error_In _ _ Hn).
Qed.

(** ** The cursor of the editor *)

Lemma advanceToNextCell_step (rows cols r c : Z) :
  0 <= r < rows -> 0 <= c < cols ->
  (0 <= fst (advanceToNextCell rows cols r c) < rows
   /\ 0 <= snd (advanceToNextCell rows cols r c) < cols)
  /\ readingIndex cols (advanceToNextCell rows cols r c)
     = (readingIndex cols (r, c) + 1) mod (rows * cols).
Proof.
  intros Hr Hc. unfold advanceToNextCell, readingIndex. cbv zeta. simpl fst. simpl snd.
  destruct (cols <=? c + 1) eqn:E1.
  - apply Z.leb_le in E1. assert (c = cols - 1) by lia. subst c.
    destruct (rows <=? r + 1) eqn:E2.
    + apply Z.leb_le in E2. assert (r = rows - 1) by lia. subst r.
      simpl. split; [lia |].
      replace ((rows - 1) * cols + (cols - 1) + 1) with (rows * cols) by ring.
      rewrite Z.mod_same by nia. reflexivity.
    + apply Z.leb_gt in E2. simpl. split; [lia |].
      rewrite Z.mod_small by nia. ring.
  - apply Z.leb_gt in E1. simpl. split; [lia |].
    rewrite Z.mod_small by nia. ring.
Qed.

(** X25: the cursor of the editor runs through the grid in reading order.
    From a cell of the grid, [k] advances lead to the cell of the grid that
    comes [k] places later in reading order, the count wrapping from the
    last cell to the first; after [rows * cols] advances the cursor is back
    where it started. *)
Theorem advanceToNextCell_reading_order (rows cols r c : Z) (k : nat) :
  0 <= r < rows -> 0 <= c < cols ->
  let cell :=
    Nat.iter k (fun cell => advanceToNextCell rows cols (fst cell) (snd cell)) (r, c) in
  (0 <= fst cell < rows /\ 0 <= snd cell < cols)
  /\ readingIndex cols cell = (readingIndex cols (r, c) + Z.of_nat k) mod (rows * cols).
Proof.
  intros Hr Hc. cbv zeta. induction k as [| k [Hrange Hidx]].
  - simpl Nat.iter. split; [simpl; lia |].
    rewrite Z.add_0_r, Z.mod_small; [reflexivity |].
    unfold readingIndex. simpl. nia.
  - rewrite Nat.iter_succ.
    set (cell := Nat.iter k (fun cell => advanceToNextCell rows cols (fst cell) (snd cell))
                          (r, c)) in *.
    destruct Hrange as [Hr' Hc'].
    destruct (advanceToNextCell_step rows cols (fst cell) (snd cell) Hr' Hc')
      as [Hrange' Hidx'].
    split; [exact Hrange' |].
    rewrite Hidx'. replace (fst cell, snd cell) with cell by (destruct cell; reflexivity).
    rewrite Hidx, Nat2Z.inj_succ.
    rewrite Zplus_mod_idemp_l. f_equal. lia.
Qed.

Lemma advanceToNextCell_reading_order_witness :
  (0 <= fst (Nat.iter 48 (fun cell => advanceToNextCell 8 6 (fst cell) (snd cell)) (2, 3)) < 8
   /\ 0 <= snd (Nat.iter 48 (fun cell => advanceToNextCell 8 6 (fst cell) (snd cell)) (2, 3)) < 6)
  /\ readingIndex 6 (Nat.iter 48 (fun cell => advanceToNextCell 8 6 (fst cell) (snd cell)) (2, 3))
     = (readingIndex 6 (2, 3) + Z.of_nat 48) mod (8 * 6).
Proof.
  apply (advanceToNextCell_reading_order 8 6 2 3 48); lia.
Defined.


(** ** Reading a grid from text *)

Lemma letter_not_space (c : ascii) : isLetterChar c = true -> isSpaceChar c = false.
Proof. destruct c as [[] [] [] [] [] [] [] []]; simpl; try reflexivity; discriminate. Qed.

Lemma letter_not_newline (c : ascii) : isLetterChar c = true -> Ascii.eqb c newline = false.
Proof. destruct c as [[] [] [] [] [] [] [] []]; simpl; try reflexivity; discriminate. Qed.

Lemma letter_upper (c : ascii) : isLetterChar c = true -> isUpperChar (toUpperChar c) = true.
Proof. destruct c as [[] [] [] [] [] [] [] []]; simpl; try reflexivity; discriminate. Qed.

Lemma trimEnd_endsNonSpace (s : string) : endsNonSpace s = true -> trimEnd s = s.
Proof.
  induction s as [| c s IH]; [discriminate |].
  destruct s as [| c' s'].
  - simpl. intros H. apply negb_true_iff in H. rewrite H. reflexivity.
  - intros H.
    change (trimEnd (String c (String c' s')))
      with (match trimEnd (String c' s') with
            | EmptyString => if isSpaceChar c then EmptyString else String c EmptyString
            | r' => String c r'
            end).
    rewrite IH by exact H. reflexivity.
Qed.

Lemma endsNonSpace_app (a b : string) :
  b <> EmptyString -> endsNonSpace (a ++ b) = endsNonSpace b.
Proof.
  intros Hb. induction a as [| c a IH]; [reflexivity |].
  simpl append. destruct (a ++ b)%string as [| c' r] eqn:E.
  - destruct a; simpl in E; [contradiction Hb | discriminate E].
  - exact IH.
Qed.

Lemma allLetters_ends (s : string) :
  s <> EmptyString -> allLetters s = true -> endsNonSpace s = true.
Proof.
  induction s as [| c s IH]; intros Hne H; [contradiction Hne; reflexivity |].
  simpl in H. apply andb_true_iff in H. destruct H as [Hc Hs].
  destruct s as [| c' s'].
  - simpl. rewrite (letter_not_space c Hc). reflexivity.
  - apply IH; [discriminate | exact Hs].
Qed.

Lemma allLetters_trim (s : string) :
  s <> EmptyString -> allLetters s = true -> trim s = s.
Proof.
  intros Hne H. unfold trim.
  assert (Hstart : trimStart s = s).
  { destruct s as [| c r]; [reflexivity |].
    simpl in H. apply andb_true_iff in H. destruct H as [Hc _].
    simpl. rewrite (letter_not_space c Hc). reflexivity. }
  rewrite Hstart. apply trimEnd_endsNonSpace. apply allLetters_ends; assumption.
Qed.

Lemma splitLines_nonempty (s : string) : splitLines s <> [].
Proof.
  destruct s as [| c r]; [discriminate |].
  simpl. destruct (Ascii.eqb c newline); [discriminate |].
  destruct (splitLines r); discriminate.
Qed.

Lemma splitLines_app_letters (l s : string) :
  allLetters l = true ->
  splitLines (l ++ s)
  = match splitLines s with
    | [] => [l]
    | h :: t => (l ++ h)%string :: t
    end.
Proof.
  induction l as [| c l IH]; intros H.
  - simpl. destruct (splitLines s) eqn:E; [contradiction (splitLines_nonempty s E) |].
    reflexivity.
  - simpl in H. apply andb_true_iff in H. destruct H as [Hc Hl].
    simpl. rewrite (letter_not_newline c Hc), (IH Hl).
    destruct (splitLines s); reflexivity.
Qed.

Lemma append_empty_r (l : string) : (l ++ EmptyString)%string = l.
Proof. induction l as [| c l IH]; [reflexivity | simpl; rewrite IH; reflexivity]. Qed.

Lemma splitLines_letters (l : string) : allLetters l = true -> splitLines l = [l].
Proof.
  intros H. pose proof (splitLines_app_letters l EmptyString H) as E.
  simpl in E. rewrite !append_empty_r in E. exact E.
Qed.

Lemma splitLines_joinLines (lines : list string) :
  lines <> [] ->
  Forall (fun l => allLetters l = true) lines ->
  splitLines (joinLines lines) = lines.
Proof.
  induction lines as [| l rest IH]; intros Hne Hall; [contradiction Hne; reflexivity |].
  inversion Hall as [| ? ? Hl Hrest]; subst.
  destruct rest as [| l' rest'].
  - simpl. apply splitLines_letters. exact Hl.
  - change (joinLines (l :: l' :: rest'))
      with (l ++ String newline (joinLines (l' :: rest')))%string.
    rewrite (splitLines_app_letters l _ Hl).
    change (splitLines (String newline (joinLines (l' :: rest'))))
      with (if Ascii.eqb newline newline
            then EmptyString :: splitLines (joinLines (l' :: rest'))
            else match splitLines (joinLines (l' :: rest')) with
                 | [] => [String newline EmptyString]
                 | h :: t => String newline h :: t
                 end).
    rewrite Ascii.eqb_refl, append_empty_r, IH; [reflexivity | discriminate | exact Hrest].
Qed.

Lemma joinLines_trim (lines : list string) :
  lines <> [] ->
  Forall (fun l => l <> EmptyString /\ allLetters l = true) lines ->
  trim (joinLines lines) = joinLines lines.
Proof.
  intros Hne Hall. unfold trim.
  assert (Hstart : trimStart (joinLines lines) = joinLines lines).
  { destruct lines as [| l rest]; [contradiction Hne; reflexivity |].
    inversion Hall as [| ? ? [Hl Hlet] _]; subst.
    destruct l as [| c r]; [contradiction Hl; reflexivity |].
    simpl in Hlet. apply andb_true_iff in Hlet. destruct Hlet as [Hc _].
    destruct rest; simpl; rewrite (letter_not_space c Hc); reflexivity. }
  rewrite Hstart. apply trimEnd_endsNonSpace.
  clear Hstart. induction lines as [| l rest IH]; [contradiction Hne; reflexivity |].
  inversion Hall as [| ? ? [Hl Hlet] Hrest]; subst.
  destruct rest as [| l' rest'].
  - simpl. apply allLetters_ends; assumption.
  - change (joinLines (l :: l' :: rest'))
      with (l ++ String newline (joinLines (l' :: rest')))%string.
    rewrite endsNonSpace_app by discriminate.
    assert (Hj : endsNonSpace (joinLines (l' :: rest')) = true)
      by (apply IH; [discriminate | exact Hrest]).
    destruct (joinLines (l' :: rest')) as [| c r] eqn:E; [discriminate Hj |].
    exact Hj.
Qed.

Lemma keepUpperAZ_letters (s : string) :
  allLetters s = true -> keepUpperAZ (toUpperCase s) = toUpperCase s.
Proof.
  induction s as [| c s IH]; intros H; [reflexivity |].
  simpl in H. apply andb_true_iff in H. destruct H as [Hc Hs].
  simpl. rewrite (letter_upper c Hc), (IH Hs). reflexivity.
Qed.

Lemma allLetters_of_list (r : list ascii) :
  Forall (fun c => isLetterChar c = true) r ->
  allLetters (string_of_list_ascii r) = true.
Proof.
  induction 1 as [| c r Hc _ IH]; [reflexivity |].
  simpl. rewrite Hc, IH. reflexivity.
Qed.

Lemma list_of_toUpperCase (r : list ascii) :
  list_ascii_of_string (toUpperCase (string_of_list_ascii r)) = map toUpperChar r.
Proof. induction r as [| c r IH]; [reflexivity | simpl; rewrite IH; reflexivity]. Qed.

Lemma strLen_of_list (r : list ascii) :
  strLen (string_of_list_ascii r) = Z.of_nat (List.length r).
Proof.
  unfold strLen. f_equal. induction r as [| c r IH]; [reflexivity | simpl; rewrite IH; reflexivity].
Qed.

Lemma parseLines_letters (cols : Z) (rows : list (list ascii)) (acc : Grid) :
  Forall (fun r => r <> [] /\ Z.of_nat (List.length r) = cols
                   /\ Forall (fun c => isLetterChar c = true) r) rows ->
  parseLines cols (map string_of_list_ascii rows) acc
  = Some (acc ++ map (map toUpperChar) rows).
Proof.
  revert acc. induction rows as [| r rows IH]; intros acc Hall.
  - simpl. rewrite app_nil_r. reflexivity.
  - inversion Hall as [| ? ? [Hne [Hlen Hlet]] Hrest]; subst.
    simpl map. simpl parseLines. cbv zeta.
    pose proof (allLetters_of_list r Hlet) as Hal.
    assert (Hs : string_of_list_ascii r <> EmptyString)
      by (destruct r; [contradiction Hne; reflexivity | discriminate]).
    rewrite (allLetters_trim _ Hs Hal), (keepUpperAZ_letters _ Hal).
    rewrite toUpperCase_length, strLen_of_list, Z.eqb_refl. simpl negb. cbv iota.
    rewrite list_of_toUpperCase, IH by exact Hrest.
    rewrite <- app_assoc. reflexivity.
Qed.

Lemma filter_nonBlank_letters (lines : list string) :
  Forall (fun l => l <> EmptyString /\ allLetters l = true) lines ->
  filter nonBlank lines = lines.
Proof.
  induction 1 as [| l lines [Hne Hl] _ IH]; [reflexivity |].
  simpl. unfold nonBlank at 1. rewrite (allLetters_trim l Hne Hl).
  destruct l; [contradiction Hne; reflexivity |]. rewrite IH. reflexivity.
Qed.

(** X26: a grid written as text is read back.  For a grid that is not
    empty, whose rows are not empty and all of one length, and whose cells
    are letters of either case, [parseTextGrid] applied to the text with one
    row per line returns the grid with its letters in upper case. *)
Theorem parseTextGrid_reads_gridText (g : Grid) :
  g <> [] -> hd [] g <> [] -> rectangular g ->
  Forall (Forall (fun c => isLetterChar c = true)) g ->
  parseTextGrid (gridText g) = Some (uppercaseGrid g).
Proof.
  intros Hne Hhd Hrect Hlet.
  assert (Hrows : Forall (fun r => r <> []
                                   /\ Z.of_nat (List.length r)
                                      = Z.of_nat (List.length (hd [] g))
                                   /\ Forall (fun c => isLetterChar c = true) r) g).
  { apply Forall_forall. intros r Hr. rewrite Forall_forall in Hlet.
    pose proof (Hrect r Hr) as Hlen.
    split; [| split; [rewrite Hlen; reflexivity | apply Hlet; exact Hr]].
    intros ->. simpl in Hlen. destruct (hd [] g); [contradiction Hhd; reflexivity |].
    discriminate Hlen. }
  assert (Hlines : Forall (fun l => l <> EmptyString /\ allLetters l = true)
                          (map string_of_list_ascii g)).
  { apply Forall_forall. intros l Hl. apply in_map_iff in Hl.
    destruct Hl as [r [<- Hr]]. rewrite Forall_forall in Hrows.
    destruct (Hrows r Hr) as [Hr0 [_ Hrl]].
    split; [destruct r; [contradiction Hr0; reflexivity | discriminate] |].
    apply allLetters_of_list. exact Hrl. }
  assert (Hmne : map string_of_list_ascii g <> []).
  { destruct g; [contradiction Hne; reflexivity | discriminate]. }
  unfold parseTextGrid, gridText. cbv zeta.
  rewrite (joinLines_trim _ Hmne Hlines).
  rewrite splitLines_joinLines;
    [| exact Hmne
     | apply Forall_forall; intros l Hl; rewrite Forall_forall in Hlines;
       apply (Hlines l Hl)].
  rewrite (filter_nonBlank_letters _ Hlines).
  destruct g as [| r0 g'] eqn:Eg; [contradiction Hne; reflexivity |].
  rewrite <- Eg in *.
  assert (Emap : map string_of_list_ascii g
                 = string_of_list_ascii r0 :: map string_of_list_ascii g')
    by (rewrite Eg; reflexivity).
  rewrite Emap at 1. rewrite strLen_of_list.
  assert (Ehd : hd [] g = r0) by (rewrite Eg; reflexivity).
  rewrite Ehd in Hrows.
  rewrite (parseLines_letters _ g [] Hrows). simpl app.
  fold (uppercaseGrid g).
  assert (Hv : validateGrid (uppercaseGrid g) = true).
  { apply validateGrid_spec. unfold uppercaseGrid.
    split; [rewrite Eg; discriminate | split; [| split]].
    - rewrite Eg. simpl. destruct r0; [rewrite Eg in Hhd; contradiction Hhd; reflexivity |].
      discriminate.
    - intros row Hrow. apply in_map_iff in Hrow. destruct Hrow as [r [<- Hr]].
      rewrite length_map, (Hrect r Hr), Eg. simpl. rewrite length_map. reflexivity.
    - apply Forall_forall. intros row Hrow. apply in_map_iff in Hrow.
      destruct Hrow as [r [<- Hr]]. apply Forall_forall. intros c Hc.
      apply in_map_iff in Hc. destruct Hc as [c0 [<- Hc0]].
      apply letter_upper. rewrite Forall_forall in Hlet.
      specialize (Hlet r Hr). rewrite Forall_forall in Hlet. apply Hlet. exact Hc0. }
  rewrite Hv. reflexivity.
Qed.

Lemma parseTextGrid_reads_gridText_witness :
  parseTextGrid (gridText gridCATS) = Some (uppercaseGrid gridCATS).
Proof.
  apply (parseTextGrid_reads_gridText gridCATS).
  - discriminate.
  - discriminate.
  - intros row Hrow. simpl in Hrow. destruct Hrow as [<- | [<- | []]]; reflexivity.
  - repeat constructor.
Defined.

Lemma keepUpperAZ_length (s : string) :
  (String.length (keepUpperAZ s) <= String.length s)%nat
  /\ (String.length (keepUpperAZ s) = String.length s -> allUpperAZ s = true).
Proof.
  induction s as [| c s [IH1 IH2]]; [split; [apply Nat.le_refl | reflexivity] |].
  cbn [keepUpperAZ allUpperAZ]. destruct (isUpperChar c); cbn [String.length andb].
  - split; [lia |]. intros H. apply IH2. lia.
  - split; [lia |]. intros H. lia.
Qed.

Lemma trimStart_length (s : string) :
  (String.length (trimStart s) <= String.length s)%nat
  /\ (String.length (trimStart s) = String.length s -> trimStart s = s).
Proof.
  induction s as [| c s [IH1 IH2]]; [split; [apply Nat.le_refl | reflexivity] |].
  cbn [trimStart]. destruct (isSpaceChar c); cbn [String.length].
  - split; [lia |]. intros H. lia.
  - split; [lia | reflexivity].
Qed.

Lemma trimEnd_length (s : string) :
  (String.length (trimEnd s) <= String.length s)%nat
  /\ (String.length (trimEnd s) = String.length s -> trimEnd s = s).
Proof.
  induction s as [| c s [IH1 IH2]]; [split; [apply Nat.le_refl | reflexivity] |].
  cbn [trimEnd]. destruct (trimEnd s) as [| c' s'] eqn:E.
  - destruct (isSpaceChar c); cbn [String.length] in *.
    + split; [lia |]. intros H. lia.
    + split; [lia |]. intros H. rewrite <- IH2 by lia. reflexivity.
  - cbn [String.length] in *. split; [lia |]. intros H. rewrite IH2 by lia. reflexivity.
Qed.

Lemma trim_length (s : string) :
  (String.length (trim s) <= String.length s)%nat
  /\ (String.length (trim s) = String.length s -> trim s = s).
Proof.
  unfold trim.
  destruct (trimStart_length s) as [H1 H2].
  destruct (trimEnd_length (trimStart s)) as [H3 H4].
  split; [lia |]. intros H.
  rewrite H4 by lia. apply H2. lia.
Qed.

Lemma upper_of_letter (c : ascii) :
  isUpperChar (toUpperChar c) = true -> isLetterChar c = true.
Proof. destruct c as [[] [] [] [] [] [] [] []]; simpl; try reflexivity; discriminate. Qed.

Lemma allUpperAZ_toUpperCase (s : string) :
  allUpperAZ (toUpperCase s) = true -> allLetters s = true.
Proof.
  induction s as [| c s IH]; [reflexivity |].
  simpl. intros H. apply andb_true_iff in H. destruct H as [Hc Hs].
  rewrite (upper_of_letter c Hc), (IH Hs). reflexivity.
Qed.

Lemma parseLines_Some (cols : Z) (lines : list string) (acc g : Grid) :
  parseLines cols lines acc = Some g ->
  g = acc ++ map (fun line =>
                    list_ascii_of_string (keepUpperAZ (toUpperCase (trim line)))) lines
  /\ Forall (fun line => strLen (keepUpperAZ (toUpperCase (trim line))) = cols) lines.
Proof.
  revert acc. induction lines as [| l lines IH]; intros acc H.
  - simpl in H. inversion H. rewrite app_nil_r. split; [reflexivity | constructor].
  - simpl in H. cbv zeta in H.
    destruct (strLen (keepUpperAZ (toUpperCase (trim l))) =? cols) eqn:E;
      simpl in H; [| discriminate H].
    apply Z.eqb_eq in E. destruct (IH _ H) as [Hg Hall].
    split; [rewrite Hg, <- app_assoc; reflexivity | constructor; assumption].
Qed.

(** X27: what [parseTextGrid] accepts of an ASCII text.  When it returns a
    grid for a text of ASCII characters only, the first non-blank line of
    the trimmed text holds letters only (a first line with a blank, a digit
    or a carriage return at its end makes it return [null]); the rows of the
    grid are the upper-cased letters A-Z of the non-blank lines, in order,
    and the grid passes [validateGrid].  (Outside ASCII [toUpperCase] can
    lengthen a line, and the statement is not made there.) *)
Theorem parseTextGrid_accepts (text : string) (g : Grid) :
  asciiText text = true ->
  parseTextGrid text = Some g ->
  exists line0 rest,
    filter nonBlank (splitLines (trim text)) = line0 :: rest
    /\ allLetters line0 = true
    /\ g = map (fun line =>
                  list_ascii_of_string (keepUpperAZ (toUpperCase (trim line))))
               (line0 :: rest)
    /\ validateGrid g = true.
Proof.
  intros _. unfold parseTextGrid. cbv zeta.
  destruct (filter nonBlank (splitLines (trim text))) as [| line0 rest]; [discriminate |].
  destruct (parseLines (strLen line0) (line0 :: rest) []) as [grid |] eqn:E;
    [| discriminate].
  destruct (validateGrid grid) eqn:Hv; [| discriminate].
  intros H. inversion H; subst g.
  destruct (parseLines_Some _ _ _ _ E) as [Hg Hall].
  exists line0, rest. split; [reflexivity | split; [| split; [exact Hg | exact Hv]]].
  inversion Hall as [| ? ? H0 _]; subst.
  destruct (keepUpperAZ_length (toUpperCase (trim line0))) as [Hk1 Hk2].
  destruct (trim_length line0) as [Ht1 Ht2].
  pose proof (toUpperCase_length (trim line0)) as Hup.
  pose proof (toUpperCase_length line0) as Hup0.
  unfold strLen in H0, Hup, Hup0.
  assert (Htrim : trim line0 = line0) by (apply Ht2; lia).
  rewrite Htrim in Hk2, H0. apply allUpperAZ_toUpperCase. apply Hk2. lia.
Qed.

Lemma parseTextGrid_accepts_witness :
  exists line0 rest,
    filter nonBlank (splitLines (trim (gridText gridCATS))) = line0 :: rest
    /\ allLetters line0 = true
    /\ gridCATS
       = map (fun line =>
                list_ascii_of_string (keepUpperAZ (toUpperCase (trim line))))
             (line0 :: rest)
    /\ validateGrid gridCATS = true.
Proof.
  apply (parseTextGrid_accepts (gridText gridCATS) gridCATS).
  - vm_compute. reflexivity.
  - vm_compute. reflexivity.
Defined.
